(** * P2PNode: the session and message-dispatch engine of ts-p2p

    A shallow embedding of the [P2PNode] class (the TypeScript source that
    drives a libp2p node): option handling and the private-network key
    envelope, the start-up sequence, the static-peer monitoring timer, the
    gossipsub message listener, peer lookup by identifier, and the query
    methods.  The libp2p node itself is an external library; it appears
    here as a record of what the class reads and drives, plus a class of
    oracles for the outcomes the library decides (dial results, parsing of
    addresses, ...). *)

From Stdlib Require Import String Ascii List ZArith Lia Bool.
Import ListNotations.
Open Scope string_scope.
Open Scope Z_scope.
Open Scope list_scope.

(* ------------------------------------------------------------------ *)
(** ** JavaScript values used by the class *)

(** A JavaScript string whose encoding matters (the shared key) is the
    list of its UTF-16 code units. *)
Definition js_string := list Z.

(** A [Uint8Array] is the list of its bytes. *)
Definition Uint8Array := list Z.

Definition js_of_string (s : string) : js_string :=
  map (fun a => Z.of_N (N_of_ascii a)) (list_ascii_of_string s).

Record JsError := { message : string }.

(** How a call ends: it returns a value, or it throws (for an async
    function: the promise resolves, or it rejects). *)
Inductive Outcome (A : Type) :=
| Returns (a : A)
| Throws (e : JsError).
Arguments Returns {A} a.
Arguments Throws {A} e.

(** [peerId.toString()] is [pid_string]. *)
Record PeerId := { pid_string : string }.

(* ------------------------------------------------------------------ *)
(** ** [new TextEncoder().encode(s)]: UTF-8 of a UTF-16 string, a lone
    surrogate being replaced by U+FFFD *)

Definition is_high_surrogate (c : Z) : bool := (0xD800 <=? c) && (c <=? 0xDBFF).
Definition is_low_surrogate (c : Z) : bool := (0xDC00 <=? c) && (c <=? 0xDFFF).

Definition utf8_of_code_point (cp : Z) : list Z :=
  if cp <? 0x80 then [cp]
  else if cp <? 0x800 then
    [Z.lor 0xC0 (Z.shiftr cp 6); Z.lor 0x80 (Z.land cp 0x3F)]
  else if cp <? 0x10000 then
    [Z.lor 0xE0 (Z.shiftr cp 12);
     Z.lor 0x80 (Z.land (Z.shiftr cp 6) 0x3F);
     Z.lor 0x80 (Z.land cp 0x3F)]
  else
    [Z.lor 0xF0 (Z.shiftr cp 18);
     Z.lor 0x80 (Z.land (Z.shiftr cp 12) 0x3F);
     Z.lor 0x80 (Z.land (Z.shiftr cp 6) 0x3F);
     Z.lor 0x80 (Z.land cp 0x3F)].

Definition surrogate_pair (hi lo : Z) : Z :=
  0x10000 + Z.shiftl (hi - 0xD800) 10 + (lo - 0xDC00).

Fixpoint TextEncoder_encode (s : js_string) : Uint8Array :=
  match s with
  | [] => []
  | c :: rest =>
      if is_high_surrogate c then
        match rest with
        | d :: rest' =>
            if is_low_surrogate d
            then utf8_of_code_point (surrogate_pair c d) ++ TextEncoder_encode rest'
            else utf8_of_code_point 0xFFFD ++ TextEncoder_encode rest
        | [] => utf8_of_code_point 0xFFFD
        end
      else if is_low_surrogate c then
        utf8_of_code_point 0xFFFD ++ TextEncoder_encode rest
      else utf8_of_code_point c ++ TextEncoder_encode rest
  end.

(* ------------------------------------------------------------------ *)
(** ** Options *)

(** [P2PNodeOptions]: every field is optional ([None] is [undefined]). *)
Record P2PNodeOptions := {
  listenAddresses : option (list string);
  bootstrapPeers : option (list string);
  opt_staticPeers : option (list string);
  usePrivateDHT : option bool;
  sharedKey : option js_string;
  dhtProtocolID : option string;
  port : option Z
}.

(** JavaScript truthiness of the optional fields tested by [init]. *)
Definition truthy_bool (b : option bool) : bool :=
  match b with Some true => true | _ => false end.

Definition truthy_js_string (s : option js_string) : bool :=
  match s with Some (_ :: _) => true | _ => false end.

Definition truthy_string (s : option string) : bool :=
  match s with
  | Some EmptyString => false
  | Some _ => true
  | None => false
  end.

(** [`/key/swarm/psk/1.0.0/\n/base16/\n${options.sharedKey}`] *)
Definition pskString (key : js_string) : js_string :=
  js_of_string "/key/swarm/psk/1.0.0/" ++ [10] ++
  js_of_string "/base16/" ++ [10] ++ key.

(** The [psk] handed to [preSharedKey], when [init] installs a connection
    protector at all. *)
Definition connectionProtector_psk (options : P2PNodeOptions) : option Uint8Array :=
  if truthy_bool (usePrivateDHT options) && truthy_js_string (sharedKey options)
  then match sharedKey options with
       | Some key => Some (TextEncoder_encode (pskString key))
       | None => None
       end
  else None.

(** The DHT service of the libp2p options. *)
Record KadDHTInit := {
  protocol : string;
  clientMode : bool;
  empty_validators_and_selectors : bool
}.

Definition dht_service (options : P2PNodeOptions) : KadDHTInit :=
  if truthy_bool (usePrivateDHT options) && truthy_string (dhtProtocolID options)
  then {| protocol := match dhtProtocolID options with
                      | Some p => (p ++ "/kad/1.0.0")%string
                      | None => "/kad/1.0.0"
                      end;
          clientMode := false;
          empty_validators_and_selectors := true |}
  else {| protocol := "/ipfs/kad/1.0.0";
          clientMode := false;
          empty_validators_and_selectors := false |}.

(** The [libp2pOptions] object built at the start of [init]; transports,
    muxers, encrypters and the fixed gossipsub flags are constants of the
    source and carry no data of the session. *)
Record Libp2pOptions := {
  addresses_listen : list string;
  bootstrap_list : list string;
  discovery_topics : list string;
  discovery_interval : Z;
  services_dht : KadDHTInit;
  connectionProtector : option Uint8Array
}.

Definition libp2pOptions_of (topics : list string) (options : P2PNodeOptions)
  : Libp2pOptions :=
  {| addresses_listen :=
       match listenAddresses options with
       | Some l => l
       | None => ["/ip4/0.0.0.0/tcp/0"]
       end;
     bootstrap_list :=
       match bootstrapPeers options with Some l => l | None => [] end;
     discovery_topics := topics;
     discovery_interval := 5000;
     services_dht := dht_service options;
     connectionProtector := connectionProtector_psk options |}.

(* ------------------------------------------------------------------ *)
(** ** The libp2p node, as the class sees it *)

(** The state of the [Libp2p] object that [P2PNode] reads or drives:
    whether it is started, its identity, [getPeers()], the gossipsub
    subscription set, and the event names a listener was added for. *)
Record Libp2p := {
  lp_options : Libp2pOptions;
  lp_started : bool;
  lp_peerId : PeerId;
  lp_peers : list PeerId;
  lp_subscriptions : list string;
  lp_listeners : list string
}.

(** What [peerStore.get] can answer: it throws, or yields a peer record
    (possibly falsy), of which only the address list is read; an address
    is kept as its [multiaddr.toString()]. *)
Definition PeerInfo := option (list string).

(** The outcomes decided by the library and the network rather than by the
    class.  Any instance is a possible environment. *)
Class Capability := {
  (** [createLibp2p(options)]: the identity of the new node, or a failure *)
  createLibp2p : Libp2pOptions -> Outcome PeerId;
  (** [node.start()] *)
  node_start : Libp2pOptions -> Outcome unit;
  (** [node.stop()] *)
  node_stop : Libp2p -> Outcome unit;
  (** [multiaddr(s)] parses [s] or throws *)
  multiaddr : string -> Outcome unit;
  (** [node.dial(multiaddr(s))]: the connected peer, or a failure *)
  dial : Libp2p -> string -> Outcome PeerId;
  (** [node.dial(peerId)] *)
  dial_peer : Libp2p -> PeerId -> Outcome unit;
  (** [dht.provide(key)] *)
  dht_provide : Libp2p -> Uint8Array -> Outcome unit;
  (** [pubsub.publish(topic, message)] *)
  pubsub_publish : Libp2p -> string -> Uint8Array -> Outcome unit;
  (** [pubsub.getSubscribers(topic)] *)
  getSubscribers : Libp2p -> string -> list PeerId;
  (** [peerIdFromString(s)] *)
  peerIdFromString : string -> Outcome PeerId;
  (** [node.peerStore.get(peerId)] *)
  peerStore_get : Libp2p -> PeerId -> Outcome PeerInfo
}.

(** [includes] on an array of strings. *)
Definition includes (l : list string) (s : string) : bool :=
  existsb (String.eqb s) l.

(** [pubsub.subscribe(topic)]: the subscription set gains the topic. *)
Definition subscribe (topic : string) (n : Libp2p) : Libp2p :=
  {| lp_options := lp_options n; lp_started := lp_started n;
     lp_peerId := lp_peerId n; lp_peers := lp_peers n;
     lp_subscriptions :=
       if includes (lp_subscriptions n) topic
       then lp_subscriptions n
       else lp_subscriptions n ++ [topic];
     lp_listeners := lp_listeners n |}.

(** [addEventListener(name, ...)] on the node or on its pubsub service. *)
Definition addEventListener (name : string) (n : Libp2p) : Libp2p :=
  {| lp_options := lp_options n; lp_started := lp_started n;
     lp_peerId := lp_peerId n; lp_peers := lp_peers n;
     lp_subscriptions := lp_subscriptions n;
     lp_listeners := lp_listeners n ++ [name] |}.

Definition set_started (b : bool) (n : Libp2p) : Libp2p :=
  {| lp_options := lp_options n; lp_started := b;
     lp_peerId := lp_peerId n; lp_peers := lp_peers n;
     lp_subscriptions := lp_subscriptions n;
     lp_listeners := lp_listeners n |}.

(** The live peer list after the network connected or dropped peers. *)
Definition set_peers (ps : list PeerId) (n : Libp2p) : Libp2p :=
  {| lp_options := lp_options n; lp_started := lp_started n;
     lp_peerId := lp_peerId n; lp_peers := ps;
     lp_subscriptions := lp_subscriptions n;
     lp_listeners := lp_listeners n |}.

(** A successful dial leaves the dialled peer in [getPeers()]. *)
Definition connected (p : PeerId) (n : Libp2p) : Libp2p :=
  if includes (map pid_string (lp_peers n)) (pid_string p) then n
  else set_peers (lp_peers n ++ [p]) n.

(** The node returned by [createLibp2p]: not started, nothing subscribed. *)
Definition new_libp2p (o : Libp2pOptions) (id : PeerId) : Libp2p :=
  {| lp_options := o; lp_started := false; lp_peerId := id; lp_peers := [];
     lp_subscriptions := []; lp_listeners := [] |}.

(* ------------------------------------------------------------------ *)
(** ** Observable actions *)

(** One constructor per logging statement of the class. *)
Inductive LogMsg :=
| UsingPrivateDHT (key : js_string)
| PskFormattedString (psk : js_string)
| CreatingNode
| StartingNode
| NodeStarted
| PeerDiscovered (id : string)
| PeerMultiaddrs (multiaddrs : list string)
| AttemptingDiscovered
| DialedDiscovered
| FailedDialDiscovered (e : JsError)
| PeerConnected (id : string)
| TotalConnected (n : nat)
| PeerDisconnected (id : string)
| RemainingConnected (n : nat)
| SubscribingTo (topic : string)
| SubscribersFor (topic : string) (subscribers : list string)
| AdvertisingTopic (topic : string)
| FailedAdvertise (topic : string) (e : JsError)
| ReceivedMessage (topic : string)
| ConnectingToStatic (n : nat)
| CannotConnectStatic
| AttemptingStatic (peerAddr : string)
| ConnectedStatic (peerAddr : string)
| FailedStatic (peerAddr : string) (e : JsError)
| StaticComplete (connectedPeers : nat)
| ReconnectingStatic (n : nat)
| SearchingPeer (peerId : string)
| FoundPeer (peerId : string) (addr : string)
| FailedFindPeer (peerId : string) (e : JsError)
| ConnectedById (peerId : string)
| FailedConnectById (peerId : string) (e : JsError)
| CouldNotDiscover (peerId : string)
| Published (topic : string).

Inductive LogLevel := LevelInfo | LevelWarn | LevelError.

Definition level (m : LogMsg) : LogLevel :=
  match m with
  | FailedDialDiscovered _ => LevelError
  | FailedAdvertise _ _ | CannotConnectStatic | FailedStatic _ _
  | FailedFindPeer _ _ | FailedConnectById _ _ | CouldNotDiscover _ => LevelWarn
  | _ => LevelInfo
  end.

(** An argument passed to the application's message handler. *)
Inductive Arg :=
| ABytes (b : Uint8Array)
| AString (s : string).

Inductive Timeout := Interval (ms : Z).

(** What a run of a method does to the outside, in order. *)
Inductive Event :=
| ELog (m : LogMsg)
| ENodeStart
| ENodeStop
| ESubscribe (topic : string)
| EProvide (key : Uint8Array)
| EDial (addr : string)
| EDialPeer (id : PeerId)
| EPublish (topic : string) (msg : Uint8Array)
| ECallHandler (args : list Arg)
| ESetInterval (ms : Z)
| EClearInterval (t : Timeout).

(* ------------------------------------------------------------------ *)
(** ** The session object *)

Record P2PNode := {
  node : option Libp2p;
  topics : list string;
  messageHandler : Uint8Array -> Outcome unit;
  staticPeers : list string;
  reconnectionInterval : option Timeout
}.

Definition default_topics : list string :=
  [ "bitcoin/mainnet-bestblock";
    "bitcoin/mainnet-block";
    "bitcoin/mainnet-subtree";
    "bitcoin/mainnet-mining_on";
    "bitcoin/mainnet-handshake";
    "bitcoin/mainnet-rejected_tx" ].

(** [new P2PNode(messageHandler, options)] *)
Definition constructor (messageHandler : Uint8Array -> Outcome unit) : P2PNode :=
  {| node := None; topics := default_topics; messageHandler := messageHandler;
     staticPeers := []; reconnectionInterval := None |}.

Definition set_node (n : option Libp2p) (this : P2PNode) : P2PNode :=
  {| node := n; topics := topics this; messageHandler := messageHandler this;
     staticPeers := staticPeers this;
     reconnectionInterval := reconnectionInterval this |}.

Definition set_staticPeers (l : list string) (this : P2PNode) : P2PNode :=
  {| node := node this; topics := topics this;
     messageHandler := messageHandler this; staticPeers := l;
     reconnectionInterval := reconnectionInterval this |}.

Definition set_reconnectionInterval (t : option Timeout) (this : P2PNode) : P2PNode :=
  {| node := node this; topics := topics this;
     messageHandler := messageHandler this; staticPeers := staticPeers this;
     reconnectionInterval := t |}.

(* ------------------------------------------------------------------ *)
(** ** Methods run in a monad of session state, action trace and exceptions *)

Definition M (A : Type) : Type := P2PNode -> Outcome A * P2PNode * list Event.

Definition ret {A} (a : A) : M A := fun this => (Returns a, this, []).

Definition bind {A B} (m : M A) (f : A -> M B) : M B :=
  fun this =>
    match m this with
    | (Returns a, this', tr) =>
        match f a this' with
        | (r, this'', tr') => (r, this'', tr ++ tr')
        end
    | (Throws e, this', tr) => (Throws e, this', tr)
    end.

Notation "x <- m ;; k" := (bind m (fun x => k))
  (at level 61, m at next level, right associativity).
Notation "m ;; k" := (bind m (fun _ => k))
  (at level 61, right associativity).

Definition throw {A} (e : JsError) : M A := fun this => (Throws e, this, []).

(** [try { m } catch (error) { h error }] *)
Definition try_catch {A} (m : M A) (h : JsError -> M A) : M A :=
  fun this =>
    match m this with
    | (Throws e, this', tr) =>
        match h e this' with
        | (r, this'', tr') => (r, this'', tr ++ tr')
        end
    | r => r
    end.

Definition get : M P2PNode := fun this => (Returns this, this, []).
Definition modify (f : P2PNode -> P2PNode) : M unit :=
  fun this => (Returns tt, f this, []).
Definition emit (ev : Event) : M unit := fun this => (Returns tt, this, [ev]).
Definition log (m : LogMsg) : M unit := emit (ELog m).

(** The result of an awaited library call. *)
Definition await {A} (r : Outcome A) : M A :=
  fun this => (r, this, []).

Definition TypeError_null : JsError :=
  {| message := "Cannot read properties of null" |}.

(** [this.node.] on a node that must be there: a property access on
    [null] throws. *)
Definition the_node : M Libp2p :=
  this <- get ;;
  match node this with
  | Some n => ret n
  | None => throw TypeError_null
  end.

Definition update_node (f : Libp2p -> Libp2p) : M unit :=
  n <- the_node ;; modify (set_node (Some (f n))).

Fixpoint for_of {A} (l : list A) (body : A -> M unit) : M unit :=
  match l with
  | [] => ret tt
  | x :: l' => body x ;; for_of l' body
  end.

Fixpoint map_m {A B} (f : A -> M B) (l : list A) : M (list B) :=
  match l with
  | [] => ret []
  | x :: l' => y <- f x ;; ys <- map_m f l' ;; ret (y :: ys)
  end.

Definition outcome_of {A} (r : Outcome A * P2PNode * list Event) : Outcome A :=
  fst (fst r).
Definition state_of {A} (r : Outcome A * P2PNode * list Event) : P2PNode :=
  snd (fst r).
Definition trace_of {A} (r : Outcome A * P2PNode * list Event) : list Event :=
  snd r.

(* ------------------------------------------------------------------ *)
(** ** Extraction of the peer identifier: [/\/p2p\/([^/]+)$/] *)

Fixpoint no_slash (s : string) : bool :=
  match s with
  | EmptyString => true
  | String a r => negb (Ascii.eqb a "/") && no_slash r
  end.

Fixpoint strip_prefix (p s : string) : option string :=
  match p with
  | EmptyString => Some s
  | String a p' =>
      match s with
      | String b s' => if Ascii.eqb a b then strip_prefix p' s' else None
      | EmptyString => None
      end
  end.

(** The pattern tried at the first character of [s]: the literal
    [/p2p/], then one or more characters other than [/], then the end of
    the input.  The result is capture group 1. *)
Definition match_p2p_here (s : string) : option string :=
  match strip_prefix "/p2p/" s with
  | Some EmptyString => None
  | Some id => if no_slash id then Some id else None
  | None => None
  end.

(** [staticPeer.match(re)]: the leftmost position where the pattern
    matches ([None] is [null]); [peerIdMatch[1]] is the value returned. *)
Fixpoint peerIdMatch (staticPeer : string) : option string :=
  match match_p2p_here staticPeer with
  | Some id => Some id
  | None =>
      match staticPeer with
      | EmptyString => None
      | String _ r => peerIdMatch r
      end
  end.

(** The loop of the monitoring timer that fills [disconnectedStaticPeers]
    ([acc]) by [push]. *)
Fixpoint check_static_peers (connectedPeerIds staticPeers acc : list string)
  : list string :=
  match staticPeers with
  | [] => acc
  | staticPeer :: rest =>
      check_static_peers connectedPeerIds rest
        (match peerIdMatch staticPeer with
         | Some peerId =>
             if negb (includes connectedPeerIds peerId)
             then acc ++ [staticPeer]
             else acc
         | None => acc
         end)
  end.

Definition disconnectedStaticPeers (n : Libp2p) (staticPeers : list string)
  : list string :=
  check_static_peers (map pid_string (lp_peers n)) staticPeers [].

(** A message event of the gossipsub service ([evt.detail.msg], with the
    peer it came from). *)
Record GossipsubMessage := {
  msg_topic : string;
  msg_data : Uint8Array;
  msg_from : string
}.

Section Methods.
Context {cap : Capability}.

(** *** Static peers *)

(** The body of the [map] callback of [connectToStaticPeers] up to its
    [await]: the attempt is logged and the dial is issued (or [multiaddr]
    throws, which the callback's own [catch] logs). The result tells
    whether a dial is pending. *)
Definition static_dial_begin (peerAddr : string) : M (option string) :=
  log (AttemptingStatic peerAddr) ;;
  try_catch
    (await (multiaddr peerAddr) ;;
     emit (EDial peerAddr) ;;
     ret (Some peerAddr))
    (fun error => log (FailedStatic peerAddr error) ;; ret None).

(** The rest of the callback, once the dial has settled. *)
Definition static_dial_settle (pending : option string) : M unit :=
  match pending with
  | None => ret tt
  | Some peerAddr =>
      n <- the_node ;;
      try_catch
        (peer <- await (dial n peerAddr) ;;
         update_node (connected peer) ;;
         log (ConnectedStatic peerAddr))
        (fun error => log (FailedStatic peerAddr error))
  end.

(** All callbacks run to their [await] inside [map]; [Promise.allSettled]
    then waits for every one of them. *)
Definition connectToStaticPeers (staticPeers : list string) : M unit :=
  this <- get ;;
  match node this with
  | None => log CannotConnectStatic
  | Some _ =>
      connectionPromises <- map_m static_dial_begin staticPeers ;;
      for_of connectionPromises static_dial_settle ;;
      n <- the_node ;;
      log (StaticComplete (length (lp_peers n)))
  end.

(** The callback given to [setInterval] by [startStaticPeerMonitoring].
    (The [catch] inside its loop guards statements that do not throw.) *)
Definition monitoring_tick : M unit :=
  this <- get ;;
  match node this with
  | None => ret tt
  | Some n =>
      if (length (staticPeers this) =? 0)%nat then ret tt
      else
        let disconnected := disconnectedStaticPeers n (staticPeers this) in
        if (0 <? length disconnected)%nat then
          log (ReconnectingStatic (length disconnected)) ;;
          connectToStaticPeers disconnected
        else ret tt
  end.

Definition startStaticPeerMonitoring : M unit :=
  emit (ESetInterval 30000) ;;
  modify (set_reconnectionInterval (Some (Interval 30000))).

(** *** Start-up *)

Definition subscribe_and_advertise (topic : string) : M unit :=
  log (SubscribingTo topic) ;;
  emit (ESubscribe topic) ;;
  update_node (subscribe topic) ;;
  n <- the_node ;;
  log (SubscribersFor topic (map pid_string (getSubscribers n topic))) ;;
  (* [init] always configures a dht service, so ['dht' in services] holds *)
  let topicKey :=
    TextEncoder_encode (js_of_string ("/pubsub/topic/" ++ topic)%string) in
  try_catch
    (emit (EProvide topicKey) ;;
     await (dht_provide n topicKey) ;;
     log (AdvertisingTopic topic))
    (fun error => log (FailedAdvertise topic error)).

Definition init (options : P2PNodeOptions) : M unit :=
  this <- get ;;
  let libp2pOptions := libp2pOptions_of (topics this) options in
  (if truthy_bool (usePrivateDHT options) && truthy_js_string (sharedKey options)
   then match sharedKey options with
        | Some key =>
            log (UsingPrivateDHT key) ;;
            log (PskFormattedString (pskString key))
        | None => ret tt
        end
   else ret tt) ;;
  log CreatingNode ;;
  id <- await (createLibp2p libp2pOptions) ;;
  modify (set_node (Some (new_libp2p libp2pOptions id))) ;;
  log StartingNode ;;
  emit ENodeStart ;;
  await (node_start libp2pOptions) ;;
  update_node (set_started true) ;;
  log NodeStarted ;;
  update_node (addEventListener "peer:discovery") ;;
  update_node (addEventListener "peer:connect") ;;
  update_node (addEventListener "peer:disconnect") ;;
  for_of (topics this) subscribe_and_advertise ;;
  update_node (addEventListener "gossipsub:message") ;;
  match opt_staticPeers options with
  | Some (p :: ps) =>
      modify (set_staticPeers (p :: ps)) ;;
      log (ConnectingToStatic (length (p :: ps))) ;;
      connectToStaticPeers (p :: ps) ;;
      startStaticPeerMonitoring
  | _ => ret tt
  end.

(** [P2PNode.create]: the instance is handed out only when [init] ends
    without an error. *)
Definition create (messageHandler : Uint8Array -> Outcome unit)
    (options : P2PNodeOptions) : Outcome P2PNode * list Event :=
  match init options (constructor messageHandler) with
  | (Returns _, this, tr) => (Returns this, tr)
  | (Throws e, _, tr) => (Throws e, tr)
  end.

(** *** Event listeners installed by [init] *)

Definition on_peer_discovery (id : PeerId) (multiaddrs : list string) : M unit :=
  log (PeerDiscovered (pid_string id)) ;;
  log (PeerMultiaddrs multiaddrs) ;;
  this <- get ;;
  match node this with
  | Some n =>
      try_catch
        (log AttemptingDiscovered ;;
         emit (EDialPeer id) ;;
         await (dial_peer n id) ;;
         update_node (connected id) ;;
         log DialedDiscovered)
        (fun error => log (FailedDialDiscovered error))
  | None => ret tt
  end.

Definition on_peer_connect (id : PeerId) : M unit :=
  log (PeerConnected (pid_string id)) ;;
  this <- get ;;
  match node this with
  | Some n => log (TotalConnected (length (lp_peers n)))
  | None => ret tt
  end.

Definition on_peer_disconnect (id : PeerId) : M unit :=
  log (PeerDisconnected (pid_string id)) ;;
  this <- get ;;
  match node this with
  | Some n => log (RemainingConnected (length (lp_peers n)))
  | None => ret tt
  end.

(** The ['gossipsub:message'] listener. *)
Definition on_gossipsub_message (msg : GossipsubMessage) : M unit :=
  log (ReceivedMessage (msg_topic msg)) ;;
  this <- get ;;
  emit (ECallHandler [ABytes (msg_data msg)]) ;;
  await (messageHandler this (msg_data msg)).

(** The pubsub service dispatching a message event: the listener runs if
    it has been added. *)
Definition dispatch_message (msg : GossipsubMessage) : M unit :=
  this <- get ;;
  match node this with
  | Some n =>
      if includes (lp_listeners n) "gossipsub:message"
      then on_gossipsub_message msg
      else ret tt
  | None => ret tt
  end.

(** *** Peer lookup by identifier *)

Definition discoverPeerById (peerId : string) : M (option string) :=
  this <- get ;;
  match node this with
  | None => ret None
  | Some n =>
      try_catch
        (log (SearchingPeer peerId) ;;
         peerIdObj <- await (peerIdFromString peerId) ;;
         peerInfo <- await (peerStore_get n peerIdObj) ;;
         match peerInfo with
         | Some (addr :: _) =>
             log (FoundPeer peerId addr) ;;
             ret (Some addr)
         | _ => ret None
         end)
        (fun error => log (FailedFindPeer peerId error) ;; ret None)
  end.

Definition connectToPeerById (peerId : string) : M unit :=
  address <- discoverPeerById peerId ;;
  match address with
  | Some (String c a) =>
      try_catch
        (n <- the_node ;;
         await (multiaddr (String c a)) ;;
         emit (EDial (String c a)) ;;
         peer <- await (dial n (String c a)) ;;
         update_node (connected peer) ;;
         log (ConnectedById peerId))
        (fun error => log (FailedConnectById peerId error))
  | _ => log (CouldNotDiscover peerId)
  end.

(** *** Shutdown, publishing and queries *)

Definition stop : M unit :=
  this <- get ;;
  match reconnectionInterval this with
  | Some t =>
      emit (EClearInterval t) ;;
      modify (set_reconnectionInterval None)
  | None => ret tt
  end ;;
  this <- get ;;
  match node this with
  | Some n =>
      emit ENodeStop ;;
      await (node_stop n) ;;
      update_node (set_started false)
  | None => ret tt
  end.

Definition publish (topic : string) (msg : Uint8Array) : M unit :=
  this <- get ;;
  match node this with
  | None => throw {| message := "Node not initialized" |}
  | Some n =>
      emit (EPublish topic msg) ;;
      await (pubsub_publish n topic msg) ;;
      log (Published topic)
  end.

Definition getConnectedPeers : M (list PeerId) :=
  this <- get ;;
  match node this with
  | None => ret []
  | Some n => ret (lp_peers n)
  end.

(** [null] is [None]. *)
Definition getNodeId : M (option string) :=
  this <- get ;;
  match node this with
  | None => ret None
  | Some n => ret (Some (pid_string (lp_peerId n)))
  end.

(** [getSubscribers] returns an array, so the [Array.isArray] branch is
    the one taken. *)
Definition getTopicPeers (topic : string) : M (list PeerId) :=
  this <- get ;;
  match node this with
  | None => ret []
  | Some n => ret (getSubscribers n topic)
  end.

(** *** The life of a session *)

(** What can happen to a session once [create] has handed it out: a call
    of a public method, the monitoring timer firing, an event of the
    node, or the network changing the connected peers. *)
Inductive Input :=
| CallStop
| CallPublish (topic : string) (msg : Uint8Array)
| CallDiscoverPeerById (peerId : string)
| CallConnectToPeerById (peerId : string)
| CallGetConnectedPeers
| CallGetNodeId
| CallGetTopicPeers (topic : string)
| TimerFires
| MessageEvent (msg : GossipsubMessage)
| PeerDiscoveryEvent (id : PeerId) (multiaddrs : list string)
| PeerConnectEvent (id : PeerId)
| PeerDisconnectEvent (id : PeerId)
| NetworkChange (peers : list PeerId).

Definition discard {A} (m : M A) : M unit := m ;; ret tt.

Definition run_input (i : Input) : M unit :=
  match i with
  | CallStop => stop
  | CallPublish topic msg => publish topic msg
  | CallDiscoverPeerById peerId => discard (discoverPeerById peerId)
  | CallConnectToPeerById peerId => connectToPeerById peerId
  | CallGetConnectedPeers => discard getConnectedPeers
  | CallGetNodeId => discard getNodeId
  | CallGetTopicPeers topic => discard (getTopicPeers topic)
  | TimerFires =>
      this <- get ;;
      match reconnectionInterval this with
      | Some _ => monitoring_tick
      | None => ret tt
      end
  | MessageEvent msg => dispatch_message msg
  | PeerDiscoveryEvent id multiaddrs => on_peer_discovery id multiaddrs
  | PeerConnectEvent id => on_peer_connect id
  | PeerDisconnectEvent id => on_peer_disconnect id
  | NetworkChange peers =>
      this <- get ;;
      match node this with
      | Some _ => update_node (set_peers peers)
      | None => ret tt
      end
  end.

Inductive reachable (messageHandler : Uint8Array -> Outcome unit)
    (options : P2PNodeOptions) : P2PNode -> Prop :=
| reachable_create this tr :
    create messageHandler options = (Returns this, tr) ->
    reachable messageHandler options this
| reachable_step this i :
    reachable messageHandler options this ->
    reachable messageHandler options (state_of (run_input i this)).

End Methods.

(* ------------------------------------------------------------------ *)
(** ** Reading a trace *)

(** The argument lists of the handler invocations, in order. *)
Definition handler_calls (tr : list Event) : list (list Arg) :=
  flat_map (fun ev => match ev with ECallHandler args => [args] | _ => [] end) tr.

(** The addresses [node.dial] was called with. *)
Definition dials (tr : list Event) : list string :=
  flat_map (fun ev => match ev with EDial a => [a] | _ => [] end) tr.

(** The static peers a connection attempt was started for. *)
Definition attempts (tr : list Event) : list string :=
  flat_map (fun ev => match ev with
                      | ELog (AttemptingStatic a) => [a]
                      | _ => []
                      end) tr.

(** The static peers whose attempt was concluded by a log line, success
    or failure. *)
Definition concluded (tr : list Event) : list string :=
  flat_map (fun ev => match ev with
                      | ELog (ConnectedStatic a) => [a]
                      | ELog (FailedStatic a _) => [a]
                      | _ => []
                      end) tr.

Definition logged (tr : list Event) : list LogMsg :=
  flat_map (fun ev => match ev with ELog m => [m] | _ => [] end) tr.

Definition parses {cap : Capability} (addr : string) : bool :=
  match multiaddr addr with Returns _ => true | Throws _ => false end.

(* ------------------------------------------------------------------ *)
(** ** Vocabulary of the properties *)


(** The topics that have a registered callback.  The class registers no
    callback per topic: it holds one message handler and one
    ['gossipsub:message'] listener that calls it.  The topics of the
    session's list have their callback from the moment that listener is
    attached to the node; before that, and without a node, no topic has
    one. *)
Definition callback_topics (this : P2PNode) : list string :=
  match node this with
  | Some n =>
      if includes (lp_listeners n) "gossipsub:message" then topics this else []
  | None => []
  end.

(** A static peer address that ends with a [/p2p/<peerId>] component. *)
Definition ends_with_p2p_component (addr : string) : Prop :=
  exists pre id,
    addr = (pre ++ "/p2p/" ++ id)%string /\ id <> EmptyString /\ no_slash id = true.

(** The live connected-peer set contains none of the targets. *)
Definition none_connected (n : Libp2p) (targets : list string) : Prop :=
  forall t id, In t targets -> peerIdMatch t = Some id ->
               includes (map pid_string (lp_peers n)) id = false.

Definition is_hex_digit (c : Z) : bool :=
  ((48 <=? c) && (c <=? 57)) || ((65 <=? c) && (c <=? 70)) ||
  ((97 <=? c) && (c <=? 102)).

(** A hex secret: a string of hexadecimal digits. *)
Definition is_hex (s : js_string) : bool := forallb is_hex_digit s.

(** A session configured for private admission with secret [s]. *)
Definition configured_with (s : js_string) (options : P2PNodeOptions) : Prop :=
  usePrivateDHT options = Some true /\ sharedKey options = Some s.

(** The token derived for a session: the [psk] of the connection
    protector in the options given to [createLibp2p]. *)
Definition derived_token (options : P2PNodeOptions) : option Uint8Array :=
  connectionProtector (libp2pOptions_of default_topics options).

(** The bytes of the two tag lines of the envelope. *)
Definition envelope_tags : Uint8Array :=
  js_of_string "/key/swarm/psk/1.0.0/" ++ [10] ++ js_of_string "/base16/" ++ [10].

(** A call that does nothing and answers [empty]. *)
Definition noop_returning {A} (empty : A) (m : M A) (this : P2PNode) : Prop :=
  m this = (Returns empty, this, []).

(* ------------------------------------------------------------------ *)
(** ** A concrete environment, for examples *)

Definition peerA : PeerId := {| pid_string := "12D3KooWPeerA" |}.
Definition addrA : string := "/ip4/10.0.0.1/tcp/9905/p2p/12D3KooWPeerA".
Definition addrB : string := "/ip4/10.0.0.2/tcp/9905/p2p/12D3KooWPeerB".
Definition addr_without_id : string := "/ip4/10.0.0.10/tcp/4003".

(** A network in which only peer A answers a dial; the peer store knows
    an address for A and for B. *)
Definition example_network : Capability :=
  {| createLibp2p := fun _ => Returns {| pid_string := "12D3KooWLocal" |};
     node_start := fun _ => Returns tt;
     node_stop := fun _ => Returns tt;
     multiaddr := fun s =>
       match s with
       | String c _ =>
           if Ascii.eqb c "/" then Returns tt
           else Throws {| message := "invalid multiaddr" |}
       | EmptyString => Throws {| message := "invalid multiaddr" |}
       end;
     dial := fun _ s =>
       if String.eqb s addrA then Returns peerA
       else Throws {| message := "connection refused" |};
     dial_peer := fun _ _ => Throws {| message := "connection refused" |};
     dht_provide := fun _ _ => Returns tt;
     pubsub_publish := fun _ _ _ => Returns tt;
     getSubscribers := fun _ _ => [];
     peerIdFromString := fun s => Returns {| pid_string := s |};
     peerStore_get := fun _ p =>
       if String.eqb (pid_string p) "12D3KooWPeerA" then Returns (Some [addrA])
       else if String.eqb (pid_string p) "12D3KooWPeerB" then Returns (Some [addrB])
       else Throws {| message := "NotFound" |} |}.

Definition no_options : P2PNodeOptions :=
  {| listenAddresses := None; bootstrapPeers := None; opt_staticPeers := None;
     usePrivateDHT := None; sharedKey := None; dhtProtocolID := None;
     port := None |}.

Definition options_with_static (l : list string) : P2PNodeOptions :=
  {| listenAddresses := None; bootstrapPeers := None; opt_staticPeers := Some l;
     usePrivateDHT := None; sharedKey := None; dhtProtocolID := None;
     port := None |}.

Definition options_with_key (key : string) : P2PNodeOptions :=
  {| listenAddresses := None; bootstrapPeers := None; opt_staticPeers := None;
     usePrivateDHT := Some true; sharedKey := Some (js_of_string key);
     dhtProtocolID := Some "/teranode"; port := None |}.

(** A handler that returns normally, and one that throws on every message. *)
Definition quiet_handler : Uint8Array -> Outcome unit := fun _ => Returns tt.
Definition failing_handler : Uint8Array -> Outcome unit :=
  fun _ => Throws {| message := "handler failed" |}.

(** The session [create] hands out in the example network. *)
Definition session_of (h : Uint8Array -> Outcome unit) (o : P2PNodeOptions)
  : P2PNode :=
  state_of (@init example_network o (constructor h)).

Definition example_session : P2PNode := session_of quiet_handler no_options.

Definition block_message : GossipsubMessage :=
  {| msg_topic := "bitcoin/mainnet-block"; msg_data := [1; 2; 3];
     msg_from := "12D3KooWPeerA" |}.

Definition stray_message : GossipsubMessage :=
  {| msg_topic := "teranode/blocks"; msg_data := [7];
     msg_from := "12D3KooWPeerA" |}.

(** The session before [init] has created its node. *)
Definition unstarted_session : P2PNode := constructor quiet_handler.

(** The session whose only static peer carries no peer identifier (its
    first dial is refused, so nobody is connected). *)
Definition session_without_id : P2PNode :=
  session_of quiet_handler (options_with_static [addr_without_id]).

(** The session with static peers A (reachable) and B (not reachable),
    after the network dropped every connection. *)
Definition session_all_dropped : P2PNode :=
  state_of
    (@run_input example_network (NetworkChange [])
       (session_of quiet_handler (options_with_static [addrA; addrB]))).

Definition failing_session : P2PNode := session_of failing_handler no_options.

(** The example session after [stop()]. *)
Definition stopped_session : P2PNode :=
  state_of (@stop example_network example_session).

(** The handler receives the payload, the topic name and the
    originating peer. *)
Definition payload_topic_origin (msg : GossipsubMessage) : list Arg :=
  [ABytes (msg_data msg); AString (msg_topic msg); AString (msg_from msg)].

(** A message on a topic with a callback invokes it once, with payload,
    topic and origin. *)
Definition dispatched_with_topic_and_origin (this : P2PNode)
    (msg : GossipsubMessage) : Prop :=
  In (msg_topic msg) (callback_topics this) ->
  handler_calls (trace_of (dispatch_message msg this)) = [payload_topic_origin msg].

(** An error raised by the handler does not leave the dispatch. *)
Definition handler_error_contained (this : P2PNode) (msg : GossipsubMessage)
  : Prop :=
  forall e, messageHandler this (msg_data msg) = Throws e ->
            outcome_of (dispatch_message msg this) = Returns tt.

(** A message on a topic without a callback invokes nothing and raises
    nothing. *)
Definition dropped_silently (this : P2PNode) (msg : GossipsubMessage) : Prop :=
  ~ In (msg_topic msg) (callback_topics this) ->
  handler_calls (trace_of (dispatch_message msg this)) = [] /\
  outcome_of (dispatch_message msg this) = Returns tt.

(** The address the peer store knows first for a peer identifier. *)
Definition first_known_address {cap : Capability} (n : Libp2p) (peerId : string)
  : option string :=
  match peerIdFromString peerId with
  | Returns peerIdObj =>
      match peerStore_get n peerIdObj with
      | Returns (Some (addr :: _)) => Some addr
      | _ => None
      end
  | Throws _ => None
  end.

(** One tick dials every target of the list when none is connected. *)
Definition tick_dials_every_target {cap : Capability} (this : P2PNode) : Prop :=
  forall n, node this = Some n -> none_connected n (staticPeers this) ->
    length (dials (trace_of (monitoring_tick this))) = length (staticPeers this).

(** Preservation of a property of the session by a computation, whatever
    its outcome. *)
Definition preserves {A} (P : P2PNode -> Prop) (m : M A) : Prop :=
  forall this, P this -> P (state_of (m this)).

(** What every session handed out by [create] satisfies: the node is
    there, the message listener is attached, and the node is subscribed
    to the topics of the session's list, in order. *)
Definition session_inv (this : P2PNode) : Prop :=
  topics this = default_topics /\
  exists n, node this = Some n /\
            lp_subscriptions n = default_topics /\
            includes (lp_listeners n) "gossipsub:message" = true.

Definition is_ascii_unit (c : Z) : bool := (0 <=? c) && (c <? 128).

(** The test the monitoring timer applies to one static peer. *)
Definition is_candidate (connectedPeerIds : list string) (staticPeer : string)
  : bool :=
  match peerIdMatch staticPeer with
  | Some peerId => negb (includes connectedPeerIds peerId)
  | None => false
  end.

Definition pending_of {cap : Capability} (addr : string) : option string :=
  if parses addr then Some addr else None.

Definition settled_of (pending : option string) : list string :=
  match pending with Some a => [a] | None => [] end.

(** The log lines that conclude a static-peer connection attempt. *)
Definition is_conclusion (m : LogMsg) : bool :=
  match m with
  | ConnectedStatic _ | FailedStatic _ _ => true
  | _ => false
  end.

(** The line [m] tells how a dial of [t] ended: a success line when the
    dial returned, a failure line with the error when it threw.  The
    dial is the one issued on node [n], whatever peers were connected
    to it by then. *)
Definition dial_conclusion {cap : Capability} (n : Libp2p) (t : string)
    (m : LogMsg) : Prop :=
  (m = ConnectedStatic t /\ exists ps p, dial (set_peers ps n) t = Returns p) \/
  (exists e, m = FailedStatic t e /\
             exists ps, dial (set_peers ps n) t = Throws e).

(** The line [m] tells how the attempt for target [t] ended: a failure
    line with the error of [multiaddr] when the address does not parse,
    and otherwise the conclusion of its dial. *)
Definition conclusion_of {cap : Capability} (n : Libp2p) (t : string)
    (m : LogMsg) : Prop :=
  (exists e, m = FailedStatic t e /\ multiaddr t = Throws e) \/
  (parses t = true /\ dial_conclusion n t m).

(* ------------------------------------------------------------------ *)
(** ** Vocabulary for the life of a session *)

(** The static peer list [init] stores: the configured one when it is
    there and not empty. *)
Definition configured_static_peers (options : P2PNodeOptions) : list string :=
  match opt_staticPeers options with
  | Some l => l
  | None => []
  end.

(** The state after a sequence of inputs, first input first. *)
Fixpoint run_inputs {cap : Capability} (inputs : list Input) (this : P2PNode)
  : P2PNode :=
  match inputs with
  | [] => this
  | i :: rest => run_inputs rest (state_of (run_input i this))
  end.

(** The node is there, stopped, and no timer is set. *)
Definition stopped (this : P2PNode) : Prop :=
  reconnectionInterval this = None /\
  exists n, node this = Some n /\ lp_started n = false.





(** The fields of the session and of its node that no method changes
    once [create] has returned. *)
Definition fixed_parts (id : PeerId) (static : list string) (this : P2PNode)
  : Prop :=
  staticPeers this = static /\
  (reconnectionInterval this = None \/
   reconnectionInterval this = Some (Interval 30000) /\ static <> []) /\
  exists n, node this = Some n /\ lp_peerId n = id.

(** Every action of a computation passes the test [ok], from whatever
    state it is run. *)
Definition emits_only {A} (ok : Event -> bool) (m : M A) : Prop :=
  forall this, forallb ok (trace_of (m this)) = true.

(** The actions other than the start of a static-peer connection
    attempt. *)
Definition not_static_attempt (ev : Event) : bool :=
  match ev with
  | ELog (AttemptingStatic _) => false
  | _ => true
  end.

(** The inputs other than the firing of the monitoring timer. *)
Definition not_timer (i : Input) : bool :=
  match i with TimerFires => false | _ => true end.


(** The session with static peers A and B in which both are connected. *)
Definition session_all_connected : P2PNode :=
  state_of
    (@run_input example_network
       (NetworkChange [peerA; {| pid_string := "12D3KooWPeerB" |}])
       (session_of quiet_handler (options_with_static [addrA; addrB]))).

(* ================================================================== *)
(** * The subtree of transaction references

    A shallow embedding of [subtrees.ts]: the [SimpleTxMap] wrapper, the
    [Subtree] class with its node list, running totals, conflicting-node
    list, lazily built node index and cached root hash, and its byte
    serialization.  A JavaScript array of numbers is a [list Z], a
    [bigint] is a [Z]; the functions of the SDK that the file calls are
    either oracles ([Utils.toHex], [Hash.sha256]) or, for the byte writer
    and reader, the little-endian byte lists they stand for. *)

(** The functions the file takes from outside. *)
Class Sdk := {
  (** [Utils.toHex(bytes)] *)
  toHex : list Z -> string;
  (** [Utils.toArray(key, 'hex')] *)
  fromHex : string -> list Z;
  (** [Hash.sha256(bytes)] *)
  sha256 : list Z -> list Z;
  (** [Math.ceil(Math.log2(n))] for a positive [n], in floating point *)
  ceil_log2 : Z -> Z
}.

(** A JavaScript [Map] with string keys: the entries in insertion order;
    setting an existing key keeps its place. *)
Module JsMap.

Definition t (V : Type) : Type := list (string * V).

Definition empty {V} : t V := [].

Fixpoint set {V} (k : string) (v : V) (m : t V) : t V :=
  match m with
  | [] => [(k, v)]
  | (k', v') :: r =>
      if String.eqb k k' then (k, v) :: r else (k', v') :: set k v r
  end.

Fixpoint get {V} (k : string) (m : t V) : option V :=
  match m with
  | [] => None
  | (k', v') :: r => if String.eqb k k' then Some v' else get k r
  end.

Definition has {V} (k : string) (m : t V) : bool :=
  match get k m with Some _ => true | None => false end.

Fixpoint delete {V} (k : string) (m : t V) : t V :=
  match m with
  | [] => []
  | (k', v') :: r => if String.eqb k k' then r else (k', v') :: delete k r
  end.

Definition size {V} (m : t V) : Z := Z.of_nat (List.length m).

Definition keys {V} (m : t V) : list string := List.map fst m.

End JsMap.

Definition HASH_SIZE : Z := 32.

(** [new Array(32).fill(0)] *)
Definition COINBASE_PLACEHOLDER : list Z := repeat 0 32.

Module SubtreeNode.
Record t := { hash : list Z; fee : Z; sizeInBytes : Z }.
End SubtreeNode.

(** [SimpleTxMap]: a [Map] keyed by the hex form of the hash. *)
Module SimpleTxMap.

Record t := { map : JsMap.t Z }.

Definition new : t := {| map := JsMap.empty |}.

Section WithSdk.
Context {sdk : Sdk}.

Definition hashToKey (hash : list Z) : string := toHex hash.

Definition put (hash : list Z) (value : Z) (this : t) : t :=
  {| map := JsMap.set (hashToKey hash) value (map this) |}.

Definition get (hash : list Z) (this : t) : option Z :=
  JsMap.get (hashToKey hash) (map this).

Definition exists_ (hash : list Z) (this : t) : bool :=
  JsMap.has (hashToKey hash) (map this).

Definition keys (this : t) : list (list Z) :=
  List.map fromHex (JsMap.keys (map this)).

End WithSdk.

Definition length (this : t) : Z := JsMap.size (map this).

End SimpleTxMap.

(** [ToInt32] of an integer-valued number, as the bitwise operators
    apply it to their operands. *)
Definition ToInt32 (x : Z) : Z :=
  let m := x mod 2 ^ 32 in
  if m <? 2 ^ 31 then m else m - 2 ^ 32.

(** [x & y] *)
Definition bitand (x y : Z) : Z := Z.land (ToInt32 x) (ToInt32 y).

(** [n > 0 && (n & (n - 1)) === 0], on an integer [n]. *)
Definition isPowerOfTwo (n : Z) : bool :=
  (0 <? n) && (bitand n (n - 1) =? 0).

Fixpoint arraysEqual_loop (a b : list Z) : bool :=
  match a, b with
  | x :: a', y :: b' => if negb (x =? y) then false else arraysEqual_loop a' b'
  | _, _ => true
  end.

Definition arraysEqual (a b : list Z) : bool :=
  if negb (List.length a =? List.length b)%nat then false
  else arraysEqual_loop a b.

(** *** The byte writer and reader of the SDK *)

(** The [k] low bytes of [n], least significant first. *)
Fixpoint le_bytes (k : nat) (n : Z) : list Z :=
  match k with
  | O => []
  | S k' => n mod 256 :: le_bytes k' (n / 256)
  end.

(** [writer.writeUInt64LE(Number(n))], for [0 <= n < 2^53], where the
    conversion to a number is exact: eight bytes. *)
Definition writeUInt64LE (n : Z) : list Z := le_bytes 8 n.

Fixpoint le_value (bytes : list Z) : Z :=
  match bytes with
  | [] => 0
  | b :: r => b + 256 * le_value r
  end.

(** A reader is the list of the bytes not read yet.  [reader.read(k)]: *)
Definition read (k : nat) (reader : list Z) : list Z * list Z :=
  (firstn k reader, skipn k reader).

(** [reader.readUInt64LEBn()], as the integer it denotes. *)
Definition readUInt64LEBn (reader : list Z) : Z * list Z :=
  (le_value (firstn 8 reader), skipn 8 reader).

(** [uint8array.set(src, offset)]: out of bounds is a [RangeError];
    every element is stored modulo 256. *)
Definition Uint8Array_set (buffer src : list Z) (offset : nat)
  : Outcome (list Z) :=
  if (List.length buffer <? offset + List.length src)%nat
  then Throws {| message := "offset is out of bounds" |}
  else Returns (firstn offset buffer ++
                List.map (fun x => x mod 256) src ++
                skipn (offset + List.length src) buffer).

(** The value of [height]: an integer, or the [-Infinity] that
    [Math.log2(0)] yields. *)
Inductive Height :=
| Levels (h : Z)
| MinusInfinity.

Module Subtree.

Record t := {
  height : Height;
  fees : Z;
  sizeInBytes : Z;
  feeHash : list Z;
  nodes : list SubtreeNode.t;
  conflictingNodes : list (list Z);
  rootHash : option (list Z);
  treeSize : Z;
  nodeIndex : option (JsMap.t Z)
}.

(** [new Subtree(height)]; [Math.pow(2, height)] is the integer [2^height]
    for the heights [0 <= height <= 1023], and 0 for [-Infinity]. *)
Definition constructor (height : Height) : t :=
  {| height := height; fees := 0; sizeInBytes := 0;
     feeHash := repeat 0 32; nodes := []; conflictingNodes := [];
     rootHash := None;
     treeSize := match height with
                 | Levels h => 2 ^ h
                 | MinusInfinity => 0
                 end;
     nodeIndex := None |}.

Definition newTree (height : Z) : Outcome t :=
  if height <? 0 then Throws {| message := "height must be at least 0" |}
  else Returns (constructor (Levels height)).

Definition set_rootHash (r : option (list Z)) (this : t) : t :=
  {| height := height this; fees := fees this; sizeInBytes := sizeInBytes this;
     feeHash := feeHash this; nodes := nodes this;
     conflictingNodes := conflictingNodes this; rootHash := r;
     treeSize := treeSize this; nodeIndex := nodeIndex this |}.

Definition set_nodeIndex (m : option (JsMap.t Z)) (this : t) : t :=
  {| height := height this; fees := fees this; sizeInBytes := sizeInBytes this;
     feeHash := feeHash this; nodes := nodes this;
     conflictingNodes := conflictingNodes this; rootHash := rootHash this;
     treeSize := treeSize this; nodeIndex := m |}.

Definition set_conflictingNodes (c : list (list Z)) (this : t) : t :=
  {| height := height this; fees := fees this; sizeInBytes := sizeInBytes this;
     feeHash := feeHash this; nodes := nodes this;
     conflictingNodes := c; rootHash := rootHash this;
     treeSize := treeSize this; nodeIndex := nodeIndex this |}.

Definition duplicate (this : t) : t :=
  {| height := height this; fees := fees this; sizeInBytes := sizeInBytes this;
     feeHash := feeHash this; nodes := nodes this;
     conflictingNodes := conflictingNodes this; rootHash := rootHash this;
     treeSize := treeSize this; nodeIndex := None |}.

Definition size (this : t) : Z := treeSize this.

Definition isComplete (this : t) : bool :=
  Z.of_nat (List.length (nodes this)) =? treeSize this.

Section WithSdk.
Context {sdk : Sdk}.

Definition newTreeByLeafCount (maxNumberOfLeaves : Z) : Outcome t :=
  if negb (isPowerOfTwo maxNumberOfLeaves)
  then Throws {| message := "numberOfLeaves must be a power of two" |}
  else Returns (constructor (Levels (ceil_log2 maxNumberOfLeaves))).

(** The common part of [addNode] and [addSubtreeNode] after their
    checks: push, reset the root hash, add to the totals, and record the
    position in the index when there is one. *)
Definition push_node (node : SubtreeNode.t) (this : t) : t :=
  {| height := height this;
     fees := fees this + SubtreeNode.fee node;
     sizeInBytes := sizeInBytes this + SubtreeNode.sizeInBytes node;
     feeHash := feeHash this;
     nodes := nodes this ++ [node];
     conflictingNodes := conflictingNodes this;
     rootHash := None;
     treeSize := treeSize this;
     nodeIndex :=
       match nodeIndex this with
       | Some m =>
           Some (JsMap.set (toHex (SubtreeNode.hash node))
                   (Z.of_nat (List.length (nodes this ++ [node])) - 1) m)
       | None => None
       end |}.

Definition addNode (hash : list Z) (fee sizeInBytes : Z) (this : t)
  : Outcome t :=
  if Z.of_nat (List.length (nodes this)) + 1 >? treeSize this
  then Throws {| message := "subtree is full" |}
  else if arraysEqual hash COINBASE_PLACEHOLDER
  then Throws {| message :=
    "[AddNode] coinbase placeholder node should be added with AddCoinbaseNode" |}
  else Returns (push_node {| SubtreeNode.hash := hash; SubtreeNode.fee := fee;
                             SubtreeNode.sizeInBytes := sizeInBytes |} this).

Definition addSubtreeNode (node : SubtreeNode.t) (this : t) : Outcome t :=
  if Z.of_nat (List.length (nodes this)) + 1 >? treeSize this
  then Throws {| message := "subtree is full" |}
  else if arraysEqual (SubtreeNode.hash node) COINBASE_PLACEHOLDER
  then Throws {| message :=
    "[AddSubtreeNode] coinbase placeholder node should be added with AddCoinbaseNode" |}
  else Returns (push_node node this).

Definition addCoinbaseNode (this : t) : Outcome t :=
  if negb (List.length (nodes this) =? 0)%nat
  then Throws {| message :=
    "subtree should be empty before adding a coinbase node" |}
  else Returns
    {| height := height this; fees := 0; sizeInBytes := 0;
       feeHash := feeHash this;
       nodes := nodes this ++
                [{| SubtreeNode.hash := COINBASE_PLACEHOLDER;
                    SubtreeNode.fee := 0; SubtreeNode.sizeInBytes := 0 |}];
       conflictingNodes := conflictingNodes this;
       rootHash := None; treeSize := treeSize this;
       nodeIndex := nodeIndex this |}.

Definition addConflictingNode (newConflictingNode : list Z) (this : t)
  : Outcome t :=
  let found :=
    existsb (fun node => arraysEqual (SubtreeNode.hash node) newConflictingNode)
      (nodes this) in
  if negb found
  then Throws {| message := "conflicting node is not in the subtree" |}
  else if existsb (fun conflictingNode =>
                     arraysEqual conflictingNode newConflictingNode)
            (conflictingNodes this)
  then Returns this
  else Returns (set_conflictingNodes
                  (conflictingNodes this ++ [newConflictingNode]) this).

(** [nodes[index]] of a negative index is [undefined], and reading its
    [fee] throws. *)
Definition removeNodeAtIndex (index : Z) (this : t) : Outcome t :=
  if index >=? Z.of_nat (List.length (nodes this))
  then Throws {| message := "index out of range" |}
  else
    match (if index <? 0 then None
           else nth_error (nodes this) (Z.to_nat index)) with
    | None => Throws {| message := "Cannot read properties of undefined" |}
    | Some node =>
        Returns
          {| height := height this;
             fees := fees this - SubtreeNode.fee node;
             sizeInBytes := sizeInBytes this - SubtreeNode.sizeInBytes node;
             feeHash := feeHash this;
             nodes := firstn (Z.to_nat index) (nodes this) ++
                      skipn (Z.to_nat index + 1) (nodes this);
             conflictingNodes := conflictingNodes this;
             rootHash := None; treeSize := treeSize this;
             nodeIndex :=
               match nodeIndex this with
               | Some m => Some (JsMap.delete (toHex (SubtreeNode.hash node)) m)
               | None => None
               end |}
    end.

(** The loop that fills a fresh index: node [i] is recorded under the
    hex form of its hash. *)
Fixpoint index_nodes (i : Z) (ns : list SubtreeNode.t) (m : JsMap.t Z)
  : JsMap.t Z :=
  match ns with
  | [] => m
  | node :: rest =>
      index_nodes (i + 1) rest (JsMap.set (toHex (SubtreeNode.hash node)) i m)
  end.

(** The answer, and the subtree with its index built. *)
Definition nodeIndexLookup (hash : list Z) (this : t) : Z * t :=
  let index :=
    match nodeIndex this with
    | Some m => m
    | None => index_nodes 0 (nodes this) JsMap.empty
    end in
  (match JsMap.get (toHex hash) index with Some i => i | None => -1 end,
   set_nodeIndex (Some index) this).

Definition hasNode (hash : list Z) (this : t) : bool * t :=
  let (index, this') := nodeIndexLookup hash this in
  (negb (index =? -1), this').

(** [null] and [undefined] are [None]. *)
Definition getNode (hash : list Z) (this : t) : option SubtreeNode.t * t :=
  let (index, this') := nodeIndexLookup hash this in
  (if negb (index =? -1)
   then (if index <? 0 then None else nth_error (nodes this') (Z.to_nat index))
   else None,
   this').

(** The cached value, or the hash of the first node's hash, which is
    then cached. *)
Definition getRootHash (this : t) : option (list Z) * t :=
  match rootHash this with
  | Some r => (Some r, this)
  | None =>
      match nodes this with
      | [] => (None, this)
      | first :: _ =>
          let r := sha256 (SubtreeNode.hash first) in
          (Some r, set_rootHash (Some r) this)
      end
  end.

Definition serialize_node (node : SubtreeNode.t) : list Z :=
  SubtreeNode.hash node ++ writeUInt64LE (SubtreeNode.fee node) ++
  writeUInt64LE (SubtreeNode.sizeInBytes node).

(** The bytes, and the subtree with its root hash cached. *)
Definition serialize (this : t) : list Z * t :=
  let (rootHash, this') := getRootHash this in
  ((match rootHash with Some r => r | None => repeat 0 32 end) ++
   writeUInt64LE (fees this') ++
   writeUInt64LE (sizeInBytes this') ++
   writeUInt64LE (Z.of_nat (List.length (nodes this'))) ++
   flat_map serialize_node (nodes this') ++
   writeUInt64LE (Z.of_nat (List.length (conflictingNodes this'))) ++
   concat (conflictingNodes this'),
   this').

Fixpoint serializeNodes_loop (ns : list SubtreeNode.t) (buffer : list Z)
    (offset : nat) : Outcome (list Z) :=
  match ns with
  | [] => Returns buffer
  | node :: rest =>
      match Uint8Array_set buffer (SubtreeNode.hash node) offset with
      | Returns buffer' => serializeNodes_loop rest buffer' (offset + 32)
      | Throws e => Throws e
      end
  end.

Definition serializeNodes (this : t) : Outcome (list Z) :=
  serializeNodes_loop (nodes this)
    (repeat 0 (List.length (nodes this) * 32)) 0.

Fixpoint read_nodes (count : nat) (reader : list Z)
  : list SubtreeNode.t * list Z :=
  match count with
  | O => ([], reader)
  | S count' =>
      let (hash, r1) := read 32 reader in
      let (fee, r2) := readUInt64LEBn r1 in
      let (sizeInBytes, r3) := readUInt64LEBn r2 in
      let (rest, r4) := read_nodes count' r3 in
      ({| SubtreeNode.hash := hash; SubtreeNode.fee := fee;
          SubtreeNode.sizeInBytes := sizeInBytes |} :: rest, r4)
  end.

Fixpoint read_conflicting (count : nat) (reader : list Z)
  : list (list Z) * list Z :=
  match count with
  | O => ([], reader)
  | S count' =>
      let (conflictingNode, r1) := read 32 reader in
      let (rest, r2) := read_conflicting count' r1 in
      (conflictingNode :: rest, r2)
  end.

(** The fee hash and the node index are left as they are. *)
Definition deserialize (bytes : list Z) (this : t) : t :=
  let (rootHash, r1) := read 32 bytes in
  let (fees, r2) := readUInt64LEBn r1 in
  let (sizeInBytes, r3) := readUInt64LEBn r2 in
  let (numNodes, r4) := readUInt64LEBn r3 in
  let (nodes, r5) := read_nodes (Z.to_nat numNodes) r4 in
  let (numConflictingNodes, r6) := readUInt64LEBn r5 in
  let (conflictingNodes, _) :=
    read_conflicting (Z.to_nat numConflictingNodes) r6 in
  {| height := if numNodes =? 0 then MinusInfinity
               else Levels (ceil_log2 numNodes);
     fees := fees; sizeInBytes := sizeInBytes; feeHash := feeHash this;
     nodes := nodes; conflictingNodes := conflictingNodes;
     rootHash := Some rootHash; treeSize := numNodes;
     nodeIndex := nodeIndex this |}.

Definition fromBytes (bytes : list Z) : t :=
  deserialize bytes (constructor (Levels 0)).

Fixpoint getMap_loop (i : Z) (ns : list SubtreeNode.t) (map : SimpleTxMap.t)
  : SimpleTxMap.t :=
  match ns with
  | [] => map
  | node :: rest =>
      getMap_loop (i + 1) rest (SimpleTxMap.put (SubtreeNode.hash node) i map)
  end.

Definition getMap (this : t) : SimpleTxMap.t :=
  getMap_loop 0 (nodes this) SimpleTxMap.new.

Definition difference (ids : SimpleTxMap.t) (this : t) : list SubtreeNode.t :=
  filter (fun node => negb (SimpleTxMap.exists_ (SubtreeNode.hash node) ids))
    (nodes this).

(** *** Sequences of operations *)

(** The method calls that can change a subtree.  [hasNode] and [getNode]
    change it as [nodeIndexLookup] does; the other methods ([size],
    [length], [isComplete], [duplicate], [serializeNodes], [getMap],
    [difference]) leave it as it is. *)
Inductive Op :=
| AddNode (hash : list Z) (fee sizeInBytes : Z)
| AddSubtreeNode (node : SubtreeNode.t)
| AddCoinbaseNode
| AddConflictingNode (hash : list Z)
| RemoveNodeAtIndex (index : Z)
| NodeIndexLookup (hash : list Z)
| GetRootHash
| Serialize
| Deserialize (bytes : list Z).

(** The subtree after a call; a call that throws leaves it as it was. *)
Definition after (r : Outcome t) (this : t) : t :=
  match r with
  | Returns this' => this'
  | Throws _ => this
  end.

Definition apply_op (op : Op) (this : t) : t :=
  match op with
  | AddNode hash fee sizeInBytes => after (addNode hash fee sizeInBytes this) this
  | AddSubtreeNode node => after (addSubtreeNode node this) this
  | AddCoinbaseNode => after (addCoinbaseNode this) this
  | AddConflictingNode hash => after (addConflictingNode hash this) this
  | RemoveNodeAtIndex index => after (removeNodeAtIndex index this) this
  | NodeIndexLookup hash => snd (nodeIndexLookup hash this)
  | GetRootHash => snd (getRootHash this)
  | Serialize => snd (serialize this)
  | Deserialize bytes => deserialize bytes this
  end.

Fixpoint apply_ops (ops : list Op) (this : t) : t :=
  match ops with
  | [] => this
  | op :: rest => apply_ops rest (apply_op op this)
  end.

(** The operations that only add: neither a removal, nor the coinbase
    node, nor [deserialize]. *)
Definition grows (op : Op) : bool :=
  match op with
  | AddCoinbaseNode | RemoveNodeAtIndex _ | Deserialize _ => false
  | _ => true
  end.

(** The operations that work on the contents the subtree has: all but
    [deserialize], which replaces height, capacity, totals, nodes,
    conflicting nodes and cached root hash by what the bytes hold. *)
Definition incremental (op : Op) : bool :=
  match op with
  | Deserialize _ => false
  | _ => true
  end.

End WithSdk.

Definition length (this : t) : Z := Z.of_nat (List.length (nodes this)).

End Subtree.

(* ------------------------------------------------------------------ *)
(** ** A concrete SDK and subtree, for examples *)

Definition hex_digits : list ascii :=
  ["0"; "1"; "2"; "3"; "4"; "5"; "6"; "7";
   "8"; "9"; "a"; "b"; "c"; "d"; "e"; "f"]%char.

Definition hex_digit (d : Z) : ascii := nth (Z.to_nat d) hex_digits "0"%char.

Fixpoint hex_of_bytes (bytes : list Z) : string :=
  match bytes with
  | [] => EmptyString
  | b :: r =>
      String (hex_digit ((b / 16) mod 16))
        (String (hex_digit (b mod 16)) (hex_of_bytes r))
  end.

Fixpoint hex_value_in (digits : list ascii) (c : ascii) : Z :=
  match digits with
  | [] => 0
  | d :: r => if Ascii.eqb c d then 0 else 1 + hex_value_in r c
  end.

Fixpoint bytes_of_hex (s : string) : list Z :=
  match s with
  | String hi (String lo r) =>
      (16 * hex_value_in hex_digits hi + hex_value_in hex_digits lo)
      :: bytes_of_hex r
  | _ => []
  end.

(** Hex strings as the SDK writes them, a stand-in for the digest (32
    bytes computed from the input), and the exact rounded-up logarithm. *)
Definition example_sdk : Sdk :=
  {| toHex := hex_of_bytes;
     fromHex := bytes_of_hex;
     sha256 := fun bytes =>
       firstn 32 (List.map (fun x => (x + 1) mod 256) bytes ++ repeat 0 32);
     ceil_log2 := Z.log2_up |}.

Definition hash1 : list Z := repeat 1 32.
Definition hash2 : list Z := repeat 2 32.
Definition hash3 : list Z := repeat 3 32.

(** The subtree of height 3 with three nodes, the second of which is
    marked as conflicting. *)
Definition example_subtree : Subtree.t :=
  @Subtree.apply_ops example_sdk
    [Subtree.AddNode hash1 1000 250; Subtree.AddNode hash2 2000 500;
     Subtree.AddNode hash3 1500 300; Subtree.AddConflictingNode hash2]
    (Subtree.constructor (Levels 3)).

(** ** Vocabulary of the subtree properties *)

(** The sum of the fees, and of the sizes, of a node list. *)
Definition total_fee (ns : list SubtreeNode.t) : Z :=
  fold_right (fun n acc => SubtreeNode.fee n + acc) 0 ns.

Definition total_size (ns : list SubtreeNode.t) : Z :=
  fold_right (fun n acc => SubtreeNode.sizeInBytes n + acc) 0 ns.

(** A byte: an integer from 0 to 255. *)
Definition is_byte (b : Z) : Prop := 0 <= b < 256.

(** A hash of 32 bytes. *)
Definition is_hash (h : list Z) : Prop :=
  List.length h = 32%nat /\ Forall is_byte h.

(** A value the writer stores exactly in eight bytes: the conversion to a
    number is exact below [2^53]. *)
Definition is_uint53 (n : Z) : Prop := 0 <= n < 2 ^ 53.

(** What serialization needs of a subtree: 32-byte hashes everywhere and
    every amount and count within the exact range. *)
Definition serializable (this : Subtree.t) : Prop :=
  is_uint53 (Subtree.fees this) /\
  is_uint53 (Subtree.sizeInBytes this) /\
  is_uint53 (Z.of_nat (List.length (Subtree.nodes this))) /\
  is_uint53 (Z.of_nat (List.length (Subtree.conflictingNodes this))) /\
  Forall (fun n => is_hash (SubtreeNode.hash n) /\
                   is_uint53 (SubtreeNode.fee n) /\
                   is_uint53 (SubtreeNode.sizeInBytes n))
    (Subtree.nodes this) /\
  Forall is_hash (Subtree.conflictingNodes this) /\
  match Subtree.rootHash this with
  | Some r => List.length r = 32%nat
  | None => True
  end.

(** A node index agrees with a node list: a recorded position holds a
    node whose hash has the recorded hex form, and a hex form that is not
    recorded belongs to no node. *)
Definition index_ok {sdk : Sdk} (m : JsMap.t Z) (ns : list SubtreeNode.t)
  : Prop :=
  forall key,
    match JsMap.get key m with
    | Some i =>
        0 <= i /\
        exists n, nth_error ns (Z.to_nat i) = Some n /\
                  toHex (SubtreeNode.hash n) = key
    | None => forall n, In n ns -> toHex (SubtreeNode.hash n) <> key
    end.

(** The node index of a subtree, when it has been built, agrees with its
    nodes. *)
Definition index_inv {sdk : Sdk} (this : Subtree.t) : Prop :=
  match Subtree.nodeIndex this with
  | Some m => index_ok m (Subtree.nodes this)
  | None => True
  end.

(** Whether some node of a list has a hash with the hex form of [hash]. *)
Definition key_present {sdk : Sdk} (hash : list Z) (ns : list SubtreeNode.t)
  : bool :=
  existsb (fun n => String.eqb (toHex (SubtreeNode.hash n)) (toHex hash)) ns.

(** The cached root hash, when there is one, is the hash of the first
    node's hash. *)
Definition root_cache_ok {sdk : Sdk} (this : Subtree.t) : Prop :=
  match Subtree.rootHash this with
  | None => True
  | Some r =>
      exists first rest,
        Subtree.nodes this = first :: rest /\
        r = sha256 (SubtreeNode.hash first)
  end.

(** The root hash written by [serialize]: the one [getRootHash] answers,
    or 32 zero bytes when there is none. *)
Definition written_root {sdk : Sdk} (this : Subtree.t) : list Z :=
  match fst (Subtree.getRootHash this) with
  | Some r => r
  | None => repeat 0 32
  end.

(** Every operation, seen through what it does to the node list. *)
Inductive node_change (t t' : Subtree.t) : Prop :=
| nodes_kept :
    Subtree.nodes t' = Subtree.nodes t ->
    Subtree.fees t' = Subtree.fees t ->
    Subtree.sizeInBytes t' = Subtree.sizeInBytes t ->
    node_change t t'
| node_pushed node :
    Subtree.nodes t' = Subtree.nodes t ++ [node] ->
    Subtree.fees t' = Subtree.fees t + SubtreeNode.fee node ->
    Subtree.sizeInBytes t' = Subtree.sizeInBytes t + SubtreeNode.sizeInBytes node ->
    Z.of_nat (List.length (Subtree.nodes t)) + 1 <= Subtree.treeSize t ->
    SubtreeNode.hash node <> COINBASE_PLACEHOLDER ->
    node_change t t'
| coinbase_pushed :
    Subtree.nodes t = [] ->
    Subtree.nodes t' =
      [{| SubtreeNode.hash := COINBASE_PLACEHOLDER; SubtreeNode.fee := 0;
          SubtreeNode.sizeInBytes := 0 |}] ->
    Subtree.fees t' = 0 -> Subtree.sizeInBytes t' = 0 ->
    node_change t t'
| node_removed i node :
    nth_error (Subtree.nodes t) i = Some node ->
    Subtree.nodes t' = firstn i (Subtree.nodes t) ++ skipn (i + 1) (Subtree.nodes t) ->
    Subtree.fees t' = Subtree.fees t - SubtreeNode.fee node ->
    Subtree.sizeInBytes t' = Subtree.sizeInBytes t - SubtreeNode.sizeInBytes node ->
    node_change t t'.


(* ================================================================== *)
(** * Properties *)

(** ** The private-network token *)

Lemma hex_digit_is_ascii c : is_hex_digit c = true -> is_ascii_unit c = true.
Proof.
  unfold is_hex_digit, is_ascii_unit. intros H.
  apply orb_true_iff in H. destruct H as [H | H].
  - apply orb_true_iff in H.
    destruct H as [H | H]; apply andb_true_iff in H; destruct H as [H1 H2];
      apply Z.leb_le in H1; apply Z.leb_le in H2;
      apply andb_true_iff; split; [apply Z.leb_le | apply Z.ltb_lt | apply Z.leb_le | apply Z.ltb_lt]; lia.
  - apply andb_true_iff in H. destruct H as [H1 H2].
    apply Z.leb_le in H1. apply Z.leb_le in H2.
    apply andb_true_iff; split; [apply Z.leb_le | apply Z.ltb_lt]; lia.
Qed.

Lemma hex_is_ascii s : is_hex s = true -> forallb is_ascii_unit s = true.
Proof.
  unfold is_hex. induction s as [| c s IH]; simpl; intros H; [reflexivity |].
  apply andb_true_iff in H. destruct H as [Hc Hs].
  rewrite (hex_digit_is_ascii _ Hc), (IH Hs). reflexivity.
Qed.

Lemma encode_ascii_unit c rest :
  is_ascii_unit c = true ->
  TextEncoder_encode (c :: rest) = c :: TextEncoder_encode rest.
Proof.
  unfold is_ascii_unit. intros H. apply andb_true_iff in H.
  destruct H as [H0 H1]. apply Z.leb_le in H0. apply Z.ltb_lt in H1.
  cbn [TextEncoder_encode].
  assert (Hh : is_high_surrogate c = false).
  { unfold is_high_surrogate. apply andb_false_iff. left. apply Z.leb_gt. lia. }
  assert (Hl : is_low_surrogate c = false).
  { unfold is_low_surrogate. apply andb_false_iff. left. apply Z.leb_gt. lia. }
  rewrite Hh, Hl. unfold utf8_of_code_point.
  replace (c <? 128) with true by (symmetry; apply Z.ltb_lt; lia).
  reflexivity.
Qed.

(** On a prefix of ASCII code units the encoder copies unit for byte. *)
Lemma encode_ascii_app a b :
  forallb is_ascii_unit a = true ->
  TextEncoder_encode (a ++ b) = a ++ TextEncoder_encode b.
Proof.
  induction a as [| c a IH]; simpl; intros H; [reflexivity |].
  apply andb_true_iff in H. destruct H as [Hc Ha].
  change (TextEncoder_encode (c :: a ++ b) = c :: a ++ TextEncoder_encode b).
  rewrite (encode_ascii_unit _ _ Hc), (IH Ha). reflexivity.
Qed.

Lemma encode_ascii s :
  forallb is_ascii_unit s = true -> TextEncoder_encode s = s.
Proof.
  intros H. rewrite <- (app_nil_r s) at 1.
  rewrite (encode_ascii_app _ _ H). simpl. apply app_nil_r.
Qed.

Lemma encode_pskString key :
  is_hex key = true ->
  TextEncoder_encode (pskString key) = envelope_tags ++ key.
Proof.
  intros H.
  replace (pskString key) with (envelope_tags ++ key)
    by (unfold pskString, envelope_tags; rewrite <- !app_assoc; reflexivity).
  rewrite encode_ascii_app by reflexivity.
  rewrite (encode_ascii _ (hex_is_ascii _ H)). reflexivity.
Qed.

Lemma derived_token_hex options s :
  configured_with s options -> is_hex s = true ->
  derived_token options =
  match s with [] => None | _ :: _ => Some (envelope_tags ++ s) end.
Proof.
  intros [Hp Hk] Hh. unfold derived_token.
  cbn [libp2pOptions_of connectionProtector].
  unfold connectionProtector_psk. rewrite Hp, Hk.
  destruct s as [| c s]; [reflexivity |].
  cbn [truthy_bool truthy_js_string andb].
  rewrite (encode_pskString _ Hh). reflexivity.
Qed.

(** C3. For hex secrets [s1], [s2] of two sessions configured for private
    admission, the derived token is the byte encoding of the envelope
    (schema tag line, encoding tag line, then the secret); equal secrets
    give byte-identical tokens and different secrets give different
    tokens. *)
Theorem derived_token_envelope :
  forall (o1 o2 : P2PNodeOptions) (s1 s2 : js_string),
    configured_with s1 o1 -> configured_with s2 o2 ->
    is_hex s1 = true -> is_hex s2 = true ->
    (s1 <> [] ->
     derived_token o1 = Some (TextEncoder_encode (pskString s1)) /\
     derived_token o1 = Some (envelope_tags ++ s1)) /\
    (s1 = s2 -> derived_token o1 = derived_token o2) /\
    (s1 <> s2 -> derived_token o1 <> derived_token o2).
Proof.
  intros o1 o2 s1 s2 C1 C2 H1 H2.
  rewrite (derived_token_hex _ _ C1 H1), (derived_token_hex _ _ C2 H2).
  repeat split.
  - destruct s1; [congruence |]. now rewrite (encode_pskString _ H1).
  - destruct s1; congruence.
  - intros ->. reflexivity.
  - intros Hne Heq. apply Hne.
    destruct s1, s2; try congruence.
    assert (E : forall a b : Uint8Array, Some a = Some b -> a = b)
      by (intros a b Hab; congruence).
    apply E in Heq. now apply app_inv_head in Heq.
Qed.

Lemma derived_token_envelope_witness :
  derived_token (options_with_key "285b49e6") <>
  derived_token (options_with_key "285b49e7").
Proof.
  apply (derived_token_envelope
           (options_with_key "285b49e6") (options_with_key "285b49e7")
           (js_of_string "285b49e6") (js_of_string "285b49e7")).
  - split; reflexivity.
  - split; reflexivity.
  - reflexivity.
  - reflexivity.
  - intros H. discriminate H.
Defined.

(** The encoder on non-ASCII input: two-, three- and four-byte
    sequences, and lone surrogates, which all become U+FFFD (so the
    encoding is not injective outside well-formed strings). *)
Example encode_beyond_ascii :
  TextEncoder_encode [0xE9; 0x20AC; 0xD83D; 0xDE00]
  = [195; 169; 226; 130; 172; 240; 159; 152; 128] /\
  TextEncoder_encode [0xD800] = TextEncoder_encode [0xDC00].
Proof. split; reflexivity. Qed.

Example mainnet_key_token :
  derived_token (options_with_key "285b")
  = Some [47; 107; 101; 121; 47; 115; 119; 97; 114; 109; 47; 112; 115; 107;
          47; 49; 46; 48; 46; 48; 47; 10; 47; 98; 97; 115; 101; 49; 54; 47;
          10; 50; 56; 53; 98].
Proof. reflexivity. Qed.

(** ** The peer-identifier pattern *)

Example peerIdMatch_examples :
  map peerIdMatch
    [addrA; addr_without_id; "/p2p/"; "/p2p/a/"; "/p2p/p2p/ab"; "x/p2p/a"]
  = [Some "12D3KooWPeerA"; None; None; None; Some "ab"; Some "a"].
Proof. reflexivity. Qed.

Lemma strip_prefix_spec p : forall s r,
  strip_prefix p s = Some r <-> s = (p ++ r)%string.
Proof.
  induction p as [| a p IH]; intros s r; simpl.
  - split; congruence.
  - destruct s as [| b s]; [split; discriminate |].
    destruct (Ascii.eqb_spec a b) as [-> | Hab].
    + rewrite IH. split; congruence.
    + split; [discriminate | congruence].
Qed.

Lemma match_p2p_here_spec s id :
  match_p2p_here s = Some id <->
  s = ("/p2p/" ++ id)%string /\ id <> EmptyString /\ no_slash id = true.
Proof.
  unfold match_p2p_here.
  destruct (strip_prefix "/p2p/" s) as [r |] eqn:E.
  - apply strip_prefix_spec in E. subst s. split.
    + destruct r as [| c r]; [discriminate |].
      destruct (no_slash (String c r)) eqn:N; [| discriminate].
      intros H. injection H as <-. repeat split; congruence.
    + intros (H & Hne & Hns). injection H as ->.
      destruct id as [| c id]; [congruence |]. now rewrite Hns.
  - split; [discriminate |]. intros (H & _ & _).
    apply strip_prefix_spec in H. congruence.
Qed.

Lemma peerIdMatch_unfold s :
  peerIdMatch s =
  match match_p2p_here s with
  | Some id => Some id
  | None => match s with
            | EmptyString => None
            | String _ r => peerIdMatch r
            end
  end.
Proof. destruct s; reflexivity. Qed.

(** A match of the pattern ends the address with [/p2p/<id>]. *)
Lemma peerIdMatch_sound : forall s id,
  peerIdMatch s = Some id ->
  exists pre, s = (pre ++ "/p2p/" ++ id)%string /\
              id <> EmptyString /\ no_slash id = true.
Proof.
  induction s as [| a s IH]; intros id; rewrite peerIdMatch_unfold.
  - discriminate.
  - destruct (match_p2p_here (String a s)) as [id' |] eqn:E.
    + intros H. injection H as ->. apply match_p2p_here_spec in E.
      exists EmptyString. exact E.
    + intros H. destruct (IH _ H) as (pre & -> & Hne & Hns).
      exists (String a pre). repeat split; assumption.
Qed.

Lemma no_slash_app x y : no_slash (x ++ y) = no_slash x && no_slash y.
Proof.
  induction x as [| a x IH]; simpl; [reflexivity |].
  rewrite IH. apply andb_assoc.
Qed.

Lemma string_app_split x : forall x' y y',
  (x ++ y = x' ++ y')%string -> (String.length x <= String.length x')%nat ->
  exists u, x' = (x ++ u)%string /\ y = (u ++ y')%string.
Proof.
  induction x as [| a x IH]; intros x' y y' H L.
  - exists x'. split; [reflexivity | exact H].
  - destruct x' as [| b x']; [simpl in L; lia |].
    simpl in H. injection H as -> H. simpl in L.
    destruct (IH x' y y' H ltac:(lia)) as (u & -> & ->).
    exists u. split; reflexivity.
Qed.

Lemma string_app_assoc (x y z : string) :
  ((x ++ y) ++ z = x ++ (y ++ z))%string.
Proof. induction x as [| a x IH]; simpl; [reflexivity | now rewrite IH]. Qed.

Lemma string_app_length (x y : string) :
  String.length (x ++ y) = (String.length x + String.length y)%nat.
Proof. induction x as [| a x IH]; simpl; [reflexivity | now rewrite IH]. Qed.

(** An address that ends with [/p2p/<id>] is matched, and the captured
    group is that [id]. *)
Lemma peerIdMatch_complete id : id <> EmptyString -> no_slash id = true ->
  forall pre, peerIdMatch (pre ++ "/p2p/" ++ id) = Some id.
Proof.
  intros Hne Hns.
  assert (Hbase : match_p2p_here ("/p2p/" ++ id) = Some id)
    by (apply match_p2p_here_spec; repeat split; assumption).
  induction pre as [| a pre IH]; rewrite peerIdMatch_unfold.
  - cbn [String.append]. cbn [String.append] in Hbase. now rewrite Hbase.
  - destruct (match_p2p_here (String a pre ++ "/p2p/" ++ id)) as [id' |] eqn:E.
    + exfalso. apply match_p2p_here_spec in E. destruct E as (E & _ & Hns').
      assert (E' : (("/p2p/" ++ id')
                    = (String a pre ++ "/p2p") ++ ("/" ++ id))%string).
      { rewrite <- E. rewrite string_app_assoc. reflexivity. }
      apply string_app_split in E'.
      * destruct E' as (u & _ & ->).
        rewrite no_slash_app in Hns'. simpl in Hns'.
        rewrite andb_false_r in Hns'. discriminate.
      * rewrite string_app_length. simpl. lia.
    + exact IH.
Qed.

(** The pattern matches exactly the addresses that end with a
    [/p2p/<peerId>] component. *)
Lemma peerIdMatch_none_iff s :
  peerIdMatch s = None <-> ~ ends_with_p2p_component s.
Proof.
  split.
  - intros H (pre & id & -> & Hne & Hns).
    rewrite (peerIdMatch_complete id Hne Hns pre) in H. discriminate.
  - intros H. destruct (peerIdMatch s) as [id |] eqn:E; [| reflexivity].
    exfalso. apply H. destruct (peerIdMatch_sound _ _ E) as (pre & Hs & Hne & Hns).
    exists pre, id. repeat split; assumption.
Qed.

(** The loop of the timer is a filter that keeps the order of the list. *)
Lemma check_static_peers_filter connectedPeerIds : forall targets acc,
  check_static_peers connectedPeerIds targets acc =
  acc ++ filter (is_candidate connectedPeerIds) targets.
Proof.
  induction targets as [| sp l IH]; intros acc; simpl.
  - now rewrite app_nil_r.
  - rewrite IH. unfold is_candidate.
    destruct (peerIdMatch sp) as [id |]; [| reflexivity].
    destruct (includes connectedPeerIds id); simpl; [reflexivity |].
    now rewrite <- app_assoc.
Qed.

Lemma disconnectedStaticPeers_filter n targets :
  disconnectedStaticPeers n targets =
  filter (is_candidate (map pid_string (lp_peers n))) targets.
Proof. unfold disconnectedStaticPeers. now rewrite check_static_peers_filter. Qed.

(** ** Running the static-peer connection *)

Lemma set_node_same this n : node this = Some n -> set_node (Some n) this = this.
Proof. destruct this; simpl; intros ->; reflexivity. Qed.

Lemma set_peers_same n : set_peers (lp_peers n) n = n.
Proof. destruct n; reflexivity. Qed.

Lemma connected_set_peers p n : exists ps, connected p n = set_peers ps n.
Proof.
  unfold connected.
  destruct (includes (map pid_string (lp_peers n)) (pid_string p)).
  - exists (lp_peers n). symmetry. apply set_peers_same.
  - eexists. reflexivity.
Qed.

Ltac run_monad :=
  cbv beta iota zeta delta
    [bind ret get modify emit log await throw try_catch the_node update_node].

Section StaticPeerFacts.
Context {cap : Capability}.

Lemma static_dial_begin_run addr this :
  static_dial_begin addr this =
  (Returns (pending_of addr), this,
   ELog (AttemptingStatic addr) ::
   match multiaddr addr with
   | Returns _ => [EDial addr]
   | Throws e => [ELog (FailedStatic addr e)]
   end).
Proof.
  unfold static_dial_begin, pending_of, parses. run_monad.
  destruct (multiaddr addr); reflexivity.
Qed.

Lemma map_m_begin_run : forall l this,
  exists tr,
    map_m static_dial_begin l this = (Returns (map pending_of l), this, tr) /\
    attempts tr = l /\ dials tr = filter parses l /\
    concluded tr = filter (fun a => negb (parses a)) l /\
    handler_calls tr = [].
Proof.
  induction l as [| a l IH]; intros this.
  - exists []. repeat split.
  - destruct (IH this) as (tr & E & Ha & Hd & Hc & Hh).
    cbn [map_m]. unfold bind at 1. rewrite static_dial_begin_run.
    unfold bind at 1. rewrite E. unfold ret.
    eexists. split; [reflexivity |].
    unfold attempts, dials, concluded, handler_calls in *.
    rewrite !app_nil_r. cbn [app flat_map].
    rewrite !flat_map_app, Ha, Hd, Hc, Hh. cbn [filter].
    unfold parses. destruct (multiaddr a); repeat split.
Qed.

Lemma static_dial_settle_run pending this n :
  node this = Some n ->
  exists ps tr,
    static_dial_settle pending this =
      (Returns tt, set_node (Some (set_peers ps n)) this, tr) /\
    attempts tr = [] /\ dials tr = [] /\
    concluded tr = settled_of pending /\ handler_calls tr = [].
Proof.
  intros Hn. destruct pending as [addr |].
  - unfold static_dial_settle. run_monad. rewrite Hn.
    destruct (dial n addr) as [p | e].
    + cbn. rewrite Hn. destruct (connected_set_peers p n) as (ps & ->).
      exists ps. eexists. repeat split.
    + exists (lp_peers n). eexists. rewrite set_peers_same, (set_node_same _ _ Hn).
      repeat split.
  - exists (lp_peers n), []. rewrite set_peers_same, (set_node_same _ _ Hn).
    repeat split.
Qed.

Lemma for_of_settle_run : forall pending this n,
  node this = Some n ->
  exists ps tr,
    for_of pending static_dial_settle this =
      (Returns tt, set_node (Some (set_peers ps n)) this, tr) /\
    attempts tr = [] /\ dials tr = [] /\
    concluded tr = flat_map settled_of pending /\ handler_calls tr = [].
Proof.
  induction pending as [| p l IH]; intros this n Hn.
  - exists (lp_peers n), []. rewrite set_peers_same, (set_node_same _ _ Hn).
    repeat split.
  - destruct (static_dial_settle_run p this n Hn) as (ps & tr & E & Ha & Hd & Hc & Hh).
    destruct (IH (set_node (Some (set_peers ps n)) this) (set_peers ps n) eq_refl)
      as (ps' & tr' & E' & Ha' & Hd' & Hc' & Hh').
    cbn [for_of]. unfold bind. rewrite E, E'.
    exists ps', (tr ++ tr'). split; [reflexivity |].
    unfold attempts, dials, concluded, handler_calls in *.
    rewrite !flat_map_app, Ha, Hd, Hc, Hh, Ha', Hd', Hc', Hh'.
    repeat split.
Qed.

Lemma concluded_count : forall l,
  length (filter (fun a => negb (parses a)) l ++
          flat_map settled_of (map pending_of l)) = length l.
Proof.
  induction l as [| a l IH]; [reflexivity |].
  rewrite length_app in *. cbn [filter map flat_map].
  unfold pending_of at 1. destruct (parses a); cbn [negb settled_of];
    rewrite ?length_app; simpl; lia.
Qed.

Lemma connectToStaticPeers_run l this n :
  node this = Some n ->
  exists ps tr,
    connectToStaticPeers l this =
      (Returns tt, set_node (Some (set_peers ps n)) this, tr) /\
    attempts tr = l /\ dials tr = filter parses l /\
    length (concluded tr) = length l /\ handler_calls tr = [].
Proof.
  intros Hn. unfold connectToStaticPeers.
  unfold bind at 1. unfold get at 1. rewrite Hn.
  destruct (map_m_begin_run l this) as (tr & E & Ha & Hd & Hc & Hh).
  destruct (for_of_settle_run (map pending_of l) this n Hn)
    as (ps & tr' & E' & Ha' & Hd' & Hc' & Hh').
  unfold bind at 1. rewrite E. unfold bind at 1. rewrite E'.
  run_monad. cbn.
  exists ps. eexists. split; [reflexivity |].
  unfold attempts, dials, concluded, handler_calls in *.
  rewrite !flat_map_app, Ha, Hd, Hc, Hh, Ha', Hd', Hc', Hh'. cbn.
  rewrite !app_nil_r. repeat split. apply concluded_count.
Qed.

End StaticPeerFacts.

(** ** The monitoring timer *)

Section MonitoringFacts.
Context {cap : Capability}.

Lemma monitoring_tick_without_node this :
  node this = None -> monitoring_tick this = (Returns tt, this, []).
Proof. intros H. unfold monitoring_tick. run_monad. now rewrite H. Qed.

Lemma monitoring_tick_run this n :
  node this = Some n ->
  exists ps tr,
    monitoring_tick this =
      (Returns tt, set_node (Some (set_peers ps n)) this, tr) /\
    attempts tr = disconnectedStaticPeers n (staticPeers this) /\
    dials tr = filter parses (disconnectedStaticPeers n (staticPeers this)) /\
    length (concluded tr) =
      length (disconnectedStaticPeers n (staticPeers this)) /\
    handler_calls tr = [].
Proof.
  intros Hn. unfold monitoring_tick.
  unfold bind at 1. unfold get at 1. rewrite Hn.
  destruct (staticPeers this) as [| sp l] eqn:Hsp.
  - cbn. exists (lp_peers n), [].
    rewrite set_peers_same, (set_node_same _ _ Hn). repeat split.
  - cbn [length Nat.eqb].
    destruct (disconnectedStaticPeers n (sp :: l)) as [| d ds] eqn:Hd.
    + cbn. exists (lp_peers n), [].
      rewrite set_peers_same, (set_node_same _ _ Hn). repeat split.
    + cbn [length Nat.ltb Nat.leb].
      destruct (connectToStaticPeers_run (d :: ds) this n Hn)
        as (ps & tr & E & Ha & Hdl & Hc & Hh).
      unfold bind, log, emit. rewrite E.
      exists ps. eexists. split; [reflexivity |].
      unfold attempts, dials, concluded, handler_calls in *.
      cbn [flat_map app]. rewrite Ha, Hdl, Hc, Hh. repeat split.
Qed.

End MonitoringFacts.

(** ** How the attempts are concluded *)

Section StaticPeerLines.
Context {cap : Capability}.

Lemma dial_conclusion_set_peers ps n a m :
  dial_conclusion (set_peers ps n) a m -> dial_conclusion n a m.
Proof.
  intros [[-> (ps' & p & H)] | (e & -> & ps' & H)].
  - left. split; [reflexivity |]. exists ps', p. exact H.
  - right. exists e. split; [reflexivity |]. exists ps'. exact H.
Qed.

Lemma map_m_begin_lines : forall l this,
  exists tr,
    map_m static_dial_begin l this = (Returns (map pending_of l), this, tr) /\
    (forall t e, In t l -> multiaddr t = Throws e ->
                 In (FailedStatic t e) (logged tr)) /\
    (forall m, In m (logged tr) -> is_conclusion m = true ->
               exists t e,
                 In t l /\ m = FailedStatic t e /\ multiaddr t = Throws e).
Proof.
  induction l as [| a l IH]; intros this.
  - exists []. split; [reflexivity |]. split; [intros t e [] | intros m []].
  - destruct (IH this) as (tr & E & Hc & Hs).
    cbn [map_m]. unfold bind at 1. rewrite static_dial_begin_run.
    unfold bind at 1. rewrite E. unfold ret.
    eexists. split; [reflexivity |].
    unfold logged in *. rewrite !app_nil_r. cbn [app flat_map].
    rewrite flat_map_app. split.
    + intros t e [<- | Hin] Hm.
      * rewrite Hm. right. left. reflexivity.
      * right. apply in_or_app. right. exact (Hc t e Hin Hm).
    + intros m [<- | Hin] Hcon; [discriminate Hcon |].
      apply in_app_or in Hin. destruct Hin as [Hin | Hin].
      * destruct (multiaddr a) as [u | e] eqn:Hm; cbn in Hin;
          [destruct Hin |].
        destruct Hin as [<- | []]. exists a, e.
        split; [now left | split; [reflexivity | exact Hm]].
      * destruct (Hs m Hin Hcon) as (t & e & Ht & -> & Hm). exists t, e.
        split; [now right | split; [reflexivity | exact Hm]].
Qed.

Lemma static_dial_settle_lines pending this n :
  node this = Some n ->
  exists ps tr,
    static_dial_settle pending this =
      (Returns tt, set_node (Some (set_peers ps n)) this, tr) /\
    match pending with
    | None => logged tr = []
    | Some a => exists m, logged tr = [m] /\ dial_conclusion n a m
    end.
Proof.
  intros Hn. destruct pending as [addr |].
  - unfold static_dial_settle. run_monad. rewrite Hn.
    destruct (dial n addr) as [p | e] eqn:Hd.
    + cbn. rewrite Hn. destruct (connected_set_peers p n) as (ps & ->).
      exists ps. eexists. split; [reflexivity |].
      exists (ConnectedStatic addr). split; [reflexivity |].
      left. split; [reflexivity |]. exists (lp_peers n), p.
      now rewrite set_peers_same.
    + exists (lp_peers n). eexists.
      rewrite set_peers_same, (set_node_same _ _ Hn).
      split; [reflexivity |].
      exists (FailedStatic addr e). split; [reflexivity |].
      right. exists e. split; [reflexivity |]. exists (lp_peers n).
      now rewrite set_peers_same.
  - exists (lp_peers n), []. rewrite set_peers_same, (set_node_same _ _ Hn).
    split; reflexivity.
Qed.

Lemma for_of_settle_lines : forall pending this n,
  node this = Some n ->
  exists ps tr,
    for_of pending static_dial_settle this =
      (Returns tt, set_node (Some (set_peers ps n)) this, tr) /\
    (forall a, In (Some a) pending ->
               exists m, In m (logged tr) /\ dial_conclusion n a m) /\
    (forall m, In m (logged tr) ->
               exists a, In (Some a) pending /\ dial_conclusion n a m).
Proof.
  induction pending as [| p l IH]; intros this n Hn.
  - exists (lp_peers n), []. rewrite set_peers_same, (set_node_same _ _ Hn).
    split; [reflexivity |]. split; [intros a [] | intros m []].
  - destruct (static_dial_settle_lines p this n Hn) as (ps & tr & E & Hp).
    destruct (IH (set_node (Some (set_peers ps n)) this) (set_peers ps n) eq_refl)
      as (ps' & tr' & E' & Hc & Hs).
    cbn [for_of]. unfold bind. rewrite E, E'.
    exists ps', (tr ++ tr'). split; [reflexivity |].
    unfold logged in *. rewrite flat_map_app. split.
    + intros a [-> | Hin].
      * destruct Hp as (m & Hm & Hd). exists m. split; [| exact Hd].
        apply in_or_app. left. rewrite Hm. now left.
      * destruct (Hc a Hin) as (m & Hm & Hd). exists m.
        split; [apply in_or_app; now right |].
        exact (dial_conclusion_set_peers _ _ _ _ Hd).
    + intros m Hin. apply in_app_or in Hin. destruct Hin as [Hin | Hin].
      * destruct p as [a |].
        -- destruct Hp as (m' & Hm & Hd). rewrite Hm in Hin.
           destruct Hin as [<- | []]. exists a. split; [now left | exact Hd].
        -- rewrite Hp in Hin. destruct Hin.
      * destruct (Hs m Hin) as (a & Ha & Hd). exists a.
        split; [now right | exact (dial_conclusion_set_peers _ _ _ _ Hd)].
Qed.

Lemma connectToStaticPeers_lines l this n :
  node this = Some n ->
  (forall t, In t l ->
     exists m, In m (logged (trace_of (connectToStaticPeers l this))) /\
               conclusion_of n t m) /\
  (forall m, In m (logged (trace_of (connectToStaticPeers l this))) ->
     is_conclusion m = true -> exists t, In t l /\ conclusion_of n t m).
Proof.
  intros Hn.
  destruct (map_m_begin_lines l this) as (tr & E & Hc & Hs).
  destruct (for_of_settle_lines (map pending_of l) this n Hn)
    as (ps & tr' & E' & Hc' & Hs').
  assert (Hrun : exists s k,
            connectToStaticPeers l this =
            (Returns tt, s, tr ++ tr' ++ [ELog (StaticComplete k)])).
  { unfold connectToStaticPeers.
    unfold bind at 1. unfold get at 1. rewrite Hn.
    unfold bind at 1. rewrite E. unfold bind at 1. rewrite E'.
    run_monad. cbn [node set_node]. eexists. eexists. reflexivity. }
  destruct Hrun as (s & k & ->). cbn [trace_of snd].
  unfold logged in *. rewrite !flat_map_app. cbn [flat_map app].
  split.
  - intros t Ht. destruct (multiaddr t) as [u | e] eqn:Hm.
    + assert (Hp : parses t = true) by (unfold parses; now rewrite Hm).
      assert (Hin : In (Some t) (map pending_of l)).
      { apply in_map_iff. exists t. split; [| exact Ht].
        unfold pending_of. now rewrite Hp. }
      destruct (Hc' t Hin) as (m & Hmin & Hd). exists m. split.
      * apply in_or_app. right. apply in_or_app. now left.
      * right. split; assumption.
    + exists (FailedStatic t e). split.
      * apply in_or_app. left. exact (Hc t e Ht Hm).
      * left. exists e. split; [reflexivity | exact Hm].
  - intros m Hin Hcon. apply in_app_or in Hin. destruct Hin as [Hin | Hin].
    + destruct (Hs m Hin Hcon) as (t & e & Ht & -> & Hm). exists t.
      split; [exact Ht |]. left. exists e. split; [reflexivity | exact Hm].
    + apply in_app_or in Hin. destruct Hin as [Hin | Hin].
      * destruct (Hs' m Hin) as (a & Ha & Hd).
        apply in_map_iff in Ha. destruct Ha as (t & Hpend & Ht).
        unfold pending_of in Hpend.
        destruct (parses t) eqn:Hp; [| discriminate Hpend].
        injection Hpend as <-. exists t. split; [exact Ht |].
        right. split; assumption.
      * destruct Hin as [<- | []]. discriminate Hcon.
Qed.

Lemma monitoring_tick_lines this n :
  node this = Some n ->
  (forall t, In t (disconnectedStaticPeers n (staticPeers this)) ->
     exists m, In m (logged (trace_of (monitoring_tick this))) /\
               conclusion_of n t m) /\
  (forall m, In m (logged (trace_of (monitoring_tick this))) ->
     is_conclusion m = true ->
     exists t, In t (disconnectedStaticPeers n (staticPeers this)) /\
               conclusion_of n t m).
Proof.
  intros Hn.
  destruct (disconnectedStaticPeers n (staticPeers this)) as [| d ds] eqn:Hd.
  - assert (Hrun : monitoring_tick this = (Returns tt, this, [])).
    { unfold monitoring_tick. run_monad. rewrite Hn, Hd.
      destruct (length (staticPeers this) =? 0)%nat; reflexivity. }
    rewrite Hrun. split; [intros t [] | intros m []].
  - assert (Hrun : trace_of (monitoring_tick this) =
                   ELog (ReconnectingStatic (length (d :: ds))) ::
                   trace_of (connectToStaticPeers (d :: ds) this)).
    { unfold monitoring_tick. run_monad. rewrite Hn, Hd.
      destruct (staticPeers this) as [| sp l]; [discriminate Hd |].
      cbn [length Nat.eqb Nat.ltb Nat.leb].
      destruct (connectToStaticPeers (d :: ds) this) as [[r s] tr].
      reflexivity. }
    rewrite Hrun.
    destruct (connectToStaticPeers_lines (d :: ds) this n Hn) as (Hc & Hs).
    unfold logged in *. cbn [app flat_map]. split.
    + intros t Ht. destruct (Hc t Ht) as (m & Hm & Hcon). exists m.
      split; [now right | exact Hcon].
    + intros m [<- | Hin] Hcon; [discriminate Hcon |].
      exact (Hs m Hin Hcon).
Qed.

End StaticPeerLines.

Lemma filter_all {A} (f : A -> bool) : forall l,
  (forall x, In x l -> f x = true) -> filter f l = l.
Proof.
  induction l as [| a l IH]; intros H; [reflexivity |].
  simpl. rewrite (H a (or_introl eq_refl)).
  f_equal. apply IH. intros x Hx. apply H. now right.
Qed.

(** C4, counterexample. A static peer list of size 1 whose target has no
    peer identifier, nobody connected: the tick dials nothing. *)
Lemma tick_skips_target_without_id :
  ~ @tick_dials_every_target example_network session_without_id.
Proof.
  unfold tick_dials_every_target. intros H.
  specialize (H _ eq_refl).
  assert (Hnone : none_connected
            {| lp_options := libp2pOptions_of default_topics
                               (options_with_static [addr_without_id]);
               lp_started := true;
               lp_peerId := {| pid_string := "12D3KooWLocal" |};
               lp_peers := [];
               lp_subscriptions := default_topics;
               lp_listeners := ["peer:discovery"; "peer:connect";
                                "peer:disconnect"; "gossipsub:message"] |}
            (staticPeers session_without_id)).
  { intros t id _ _. reflexivity. }
  specialize (H Hnone). vm_compute in H. discriminate H.
Qed.

(** C4, amended. When every target of the static list ends with a
    [/p2p/<peerId>] component and none of these peers is connected, one
    tick starts exactly one connection attempt per target, in list
    order, and returns normally, whatever the outcome of each dial:
    [node.dial] is called for every target whose address parses, and
    every attempt is concluded by its own log line.  That line tells how
    the attempt ended: for every target there is a failure line with the
    error when its address does not parse or its dial fails, and a
    success line when its dial succeeds; no other conclusion is logged. *)
Theorem tick_attempts_every_target :
  forall (cap : Capability) (this : P2PNode) (n : Libp2p),
    node this = Some n ->
    (forall t, In t (staticPeers this) -> ends_with_p2p_component t) ->
    none_connected n (staticPeers this) ->
    outcome_of (monitoring_tick this) = Returns tt /\
    attempts (trace_of (monitoring_tick this)) = staticPeers this /\
    dials (trace_of (monitoring_tick this)) = filter parses (staticPeers this) /\
    length (concluded (trace_of (monitoring_tick this))) =
      length (staticPeers this) /\
    (forall t, In t (staticPeers this) ->
       exists m, In m (logged (trace_of (monitoring_tick this))) /\
                 conclusion_of n t m) /\
    (forall m, In m (logged (trace_of (monitoring_tick this))) ->
       is_conclusion m = true ->
       exists t, In t (staticPeers this) /\ conclusion_of n t m).
Proof.
  intros cap this n Hn Hsuffix Hnone.
  destruct (monitoring_tick_run this n Hn) as (ps & tr & E & Ha & Hd & Hc & _).
  destruct (monitoring_tick_lines this n Hn) as (Hcomplete & Hsound).
  assert (Hall : disconnectedStaticPeers n (staticPeers this) = staticPeers this).
  { rewrite disconnectedStaticPeers_filter. apply filter_all.
    intros t Ht. unfold is_candidate.
    destruct (Hsuffix t Ht) as (pre & id & -> & Hne & Hns).
    rewrite (peerIdMatch_complete id Hne Hns pre).
    rewrite (Hnone _ id Ht (peerIdMatch_complete id Hne Hns pre)).
    reflexivity. }
  rewrite E, Hall in *. cbn [outcome_of trace_of fst snd] in *.
  repeat split; assumption.
Qed.

Lemma tick_attempts_every_target_witness :
  attempts (trace_of (@monitoring_tick example_network session_all_dropped))
  = [addrA; addrB].
Proof.
  refine (proj1 (proj2 (tick_attempts_every_target example_network
                          session_all_dropped _ eq_refl _ _))).
  - intros t [<- | [<- | []]].
    + exists "/ip4/10.0.0.1/tcp/9905", "12D3KooWPeerA". repeat split. discriminate.
    + exists "/ip4/10.0.0.2/tcp/9905", "12D3KooWPeerB". repeat split. discriminate.
  - intros t id _ _. reflexivity.
Defined.

(** C10. A static peer whose address does not end with a [/p2p/<peerId>]
    component is never a reconnect candidate of the tick, no attempt is
    started for it and it is never dialled, whatever the connected peers
    are. *)
Theorem tick_never_dials_target_without_id :
  forall (cap : Capability) (this : P2PNode) (t : string),
    ~ ends_with_p2p_component t ->
    (forall n, ~ In t (disconnectedStaticPeers n (staticPeers this))) /\
    ~ In t (attempts (trace_of (monitoring_tick this))) /\
    ~ In t (dials (trace_of (monitoring_tick this))).
Proof.
  intros cap this t Ht. apply peerIdMatch_none_iff in Ht.
  assert (Hcand : forall n, ~ In t (disconnectedStaticPeers n (staticPeers this))).
  { intros n Hin. rewrite disconnectedStaticPeers_filter in Hin.
    apply filter_In in Hin. destruct Hin as [_ Hc].
    unfold is_candidate in Hc. rewrite Ht in Hc. discriminate. }
  split; [exact Hcand |].
  destruct (node this) as [n |] eqn:Hn.
  - destruct (monitoring_tick_run this n Hn) as (ps & tr & E & Ha & Hd & _).
    rewrite E. cbn [trace_of snd]. rewrite Ha, Hd. split.
    + apply Hcand.
    + intros Hin. apply filter_In in Hin. exact (Hcand n (proj1 Hin)).
  - rewrite (monitoring_tick_without_node _ Hn). split; intros [].
Qed.

Lemma tick_never_dials_target_without_id_witness :
  ~ In addr_without_id
      (dials (trace_of (@monitoring_tick example_network session_without_id))).
Proof.
  refine (proj2 (proj2 (tick_never_dials_target_without_id example_network
                          session_without_id addr_without_id _))).
  intros H. apply peerIdMatch_none_iff in H; [exact H | reflexivity].
Defined.

(** ** What the methods preserve *)

Lemma preserves_ret {A} P (a : A) : preserves P (ret a).
Proof. intros this H. exact H. Qed.

Lemma preserves_get P : preserves P get.
Proof. intros this H. exact H. Qed.

Lemma preserves_emit P ev : preserves P (emit ev).
Proof. intros this H. exact H. Qed.

Lemma preserves_log P m : preserves P (log m).
Proof. intros this H. exact H. Qed.

Lemma preserves_await {A} P (r : Outcome A) : preserves P (await r).
Proof. intros this H. exact H. Qed.

Lemma preserves_throw {A} P e : preserves P (@throw A e).
Proof. intros this H. exact H. Qed.

Lemma preserves_modify (P : P2PNode -> Prop) f :
  (forall this, P this -> P (f this)) -> preserves P (modify f).
Proof. intros Hf this H. apply Hf, H. Qed.

Lemma preserves_bind {A B} P (m : M A) (f : A -> M B) :
  preserves P m -> (forall a, preserves P (f a)) -> preserves P (bind m f).
Proof.
  intros Hm Hf this H. specialize (Hm this H).
  unfold bind, state_of in *.
  destruct (m this) as [[[a | e] this'] tr]; simpl in *; [| exact Hm].
  specialize (Hf a this' Hm). unfold state_of in Hf.
  destruct (f a this') as [[r this''] tr']. exact Hf.
Qed.

Lemma preserves_try_catch {A} P (m : M A) h :
  preserves P m -> (forall e, preserves P (h e)) -> preserves P (try_catch m h).
Proof.
  intros Hm Hh this H. specialize (Hm this H).
  unfold try_catch, state_of in *.
  destruct (m this) as [[[a | e] this'] tr]; simpl in *; [exact Hm |].
  specialize (Hh e this' Hm). unfold state_of in Hh.
  destruct (h e this') as [[r this''] tr']. exact Hh.
Qed.

Lemma preserves_for_of {A} P (body : A -> M unit) :
  (forall x, preserves P (body x)) -> forall l, preserves P (for_of l body).
Proof.
  intros Hb. induction l as [| x l IH]; cbn [for_of].
  - apply preserves_ret.
  - apply preserves_bind; [apply Hb | intros _; exact IH].
Qed.

Lemma preserves_map_m {A B} P (f : A -> M B) :
  (forall x, preserves P (f x)) -> forall l, preserves P (map_m f l).
Proof.
  intros Hf. induction l as [| x l IH]; cbn [map_m].
  - apply preserves_ret.
  - apply preserves_bind; [apply Hf | intros y].
    apply preserves_bind; [exact IH | intros ys; apply preserves_ret].
Qed.

Lemma preserves_the_node P : preserves P the_node.
Proof.
  intros this H. unfold the_node. run_monad.
  destruct (node this); exact H.
Qed.

Lemma preserves_update_node (P : P2PNode -> Prop) f :
  (forall this n, P this -> node this = Some n -> P (set_node (Some (f n)) this)) ->
  preserves P (update_node f).
Proof.
  intros Hf this H. unfold update_node. run_monad.
  destruct (node this) as [n |] eqn:Hn; [| exact H].
  apply Hf; assumption.
Qed.

(** The invariant does not look at the peers, the started flag, the timer
    or the static peer list. *)
Lemma session_inv_set_peers this n ps :
  session_inv this -> node this = Some n ->
  session_inv (set_node (Some (set_peers ps n)) this).
Proof.
  intros (Ht & n' & Hn' & Hs & Hl) Hn. rewrite Hn in Hn'. injection Hn' as <-.
  split; [exact Ht |]. exists (set_peers ps n). repeat split; assumption.
Qed.

Lemma session_inv_connected this n p :
  session_inv this -> node this = Some n ->
  session_inv (set_node (Some (connected p n)) this).
Proof.
  intros H Hn. destruct (connected_set_peers p n) as (ps & ->).
  now apply session_inv_set_peers.
Qed.

Lemma session_inv_set_started this n b :
  session_inv this -> node this = Some n ->
  session_inv (set_node (Some (set_started b n)) this).
Proof.
  intros (Ht & n' & Hn' & Hs & Hl) Hn. rewrite Hn in Hn'. injection Hn' as <-.
  split; [exact Ht |]. exists (set_started b n). repeat split; assumption.
Qed.

Lemma session_inv_set_reconnectionInterval this t :
  session_inv this -> session_inv (set_reconnectionInterval t this).
Proof. intros H. exact H. Qed.

Lemma session_inv_set_staticPeers this l :
  session_inv this -> session_inv (set_staticPeers l this).
Proof. intros H. exact H. Qed.

Ltac preserve_step :=
  lazymatch goal with
  | |- preserves _ (ret _) => apply preserves_ret
  | |- preserves _ get => apply preserves_get
  | |- preserves _ (emit _) => apply preserves_emit
  | |- preserves _ (log _) => apply preserves_log
  | |- preserves _ (await _) => apply preserves_await
  | |- preserves _ (throw _) => apply preserves_throw
  | |- preserves _ the_node => apply preserves_the_node
  | |- preserves _ (bind _ _) => apply preserves_bind; [| intros ?]
  | |- preserves _ (try_catch _ _) => apply preserves_try_catch; [| intros ?]
  | |- preserves _ (for_of _ _) => apply preserves_for_of; intros ?
  | |- preserves _ (map_m _ _) => apply preserves_map_m; intros ?
  | |- preserves _ (update_node _) => apply preserves_update_node; intros ? ? ? ?
  | |- preserves _ (modify _) => apply preserves_modify; intros ? ?
  | |- preserves _ (match ?x with _ => _ end) => destruct x eqn:?
  | |- session_inv (set_node (Some (connected _ _)) _) =>
      apply session_inv_connected; assumption
  | |- session_inv (set_node (Some (set_started _ _)) _) =>
      apply session_inv_set_started; assumption
  | |- session_inv (set_node (Some (set_peers _ _)) _) =>
      apply session_inv_set_peers; assumption
  | |- session_inv (set_reconnectionInterval _ _) =>
      apply session_inv_set_reconnectionInterval; assumption
  | |- session_inv (set_staticPeers _ _) =>
      apply session_inv_set_staticPeers; assumption
  | |- messageHandler _ = _ => assumption
  end.

Ltac preserve := repeat preserve_step.

Section SessionFacts.
Context {cap : Capability}.

Lemma connectToStaticPeers_inv l : preserves session_inv (connectToStaticPeers l).
Proof. unfold connectToStaticPeers, static_dial_begin, static_dial_settle. preserve. Qed.

Lemma monitoring_tick_inv : preserves session_inv monitoring_tick.
Proof.
  unfold monitoring_tick. preserve. apply connectToStaticPeers_inv.
Qed.

Lemma run_input_inv i : preserves session_inv (run_input i).
Proof.
  destruct i; unfold run_input, stop, publish, discard, connectToPeerById,
    discoverPeerById, getConnectedPeers, getNodeId, getTopicPeers,
    dispatch_message, on_gossipsub_message, on_peer_discovery,
    on_peer_connect, on_peer_disconnect; preserve;
    try apply monitoring_tick_inv.
Qed.

(** No method replaces the message handler. *)
Lemma run_input_handler h i :
  preserves (fun this => messageHandler this = h) (run_input i).
Proof.
  destruct i; unfold run_input, stop, publish, discard, connectToPeerById,
    discoverPeerById, getConnectedPeers, getNodeId, getTopicPeers,
    dispatch_message, on_gossipsub_message, on_peer_discovery,
    on_peer_connect, on_peer_disconnect, monitoring_tick,
    connectToStaticPeers, static_dial_begin, static_dial_settle; preserve.
Qed.

End SessionFacts.

(** ** What [init] establishes *)

Lemma bind_inv {A B} (m : M A) (f : A -> M B) this b this'' tr :
  bind m f this = (Returns b, this'', tr) ->
  exists a this' t1 t2,
    m this = (Returns a, this', t1) /\ f a this' = (Returns b, this'', t2) /\
    tr = t1 ++ t2.
Proof.
  unfold bind. destruct (m this) as [[[a | e] this'] t1]; [| discriminate].
  destruct (f a this') as [[r s] t2] eqn:E. intros H.
  injection H as H1 H2 H3. subst r s tr.
  exists a, this', t1, t2. repeat split. exact E.
Qed.

Section InitFacts.
Context {cap : Capability}.

Lemma subscribe_and_advertise_run topic this n :
  node this = Some n ->
  exists tr,
    subscribe_and_advertise topic this =
      (Returns tt, set_node (Some (subscribe topic n)) this, tr).
Proof.
  intros Hn. unfold subscribe_and_advertise. run_monad. rewrite Hn. cbn.
  destruct (dht_provide _ _); eexists; reflexivity.
Qed.

Lemma for_of_subscribe_run : forall l this n,
  node this = Some n ->
  exists tr,
    for_of l subscribe_and_advertise this =
      (Returns tt,
       set_node (Some (fold_left (fun n t => subscribe t n) l n)) this, tr).
Proof.
  induction l as [| t l IH]; intros this n Hn.
  - exists []. cbn. now rewrite (set_node_same _ _ Hn).
  - destruct (subscribe_and_advertise_run t this n Hn) as (tr & E).
    destruct (IH (set_node (Some (subscribe t n)) this) (subscribe t n) eq_refl)
      as (tr' & E').
    cbn [for_of fold_left]. unfold bind. rewrite E, E'.
    eexists. reflexivity.
Qed.

Ltac invert_bind H :=
  let a := fresh "a" in
  let s := fresh "s" in
  let Hm := fresh "Hm" in
  apply bind_inv in H; destruct H as (a & s & ? & ? & Hm & H & _);
  cbv beta iota zeta delta
    [bind ret get modify emit log await throw the_node update_node] in Hm;
  cbn [node set_node constructor] in Hm.

Ltac established :=
  split;
  [ split;
    [ reflexivity
    | eexists; split; [reflexivity | split; vm_compute; reflexivity] ]
  | reflexivity ].

Lemma init_returns h options this tr :
  init options (constructor h) = (Returns tt, this, tr) ->
  session_inv this /\ messageHandler this = h.
Proof.
  unfold init. intros H.
  invert_bind H. injection Hm as <- <- _.
  invert_bind H.
  assert (Hs : s = constructor h).
  { destruct (truthy_bool (usePrivateDHT options) &&
              truthy_js_string (sharedKey options));
      [destruct (sharedKey options) |]; injection Hm as _ <- _; reflexivity. }
  subst s. clear Hm.
  invert_bind H. injection Hm as _ <- _.
  invert_bind H. injection Hm as _ <- _.
  invert_bind H. injection Hm as _ <- _.
  invert_bind H. injection Hm as _ <- _.
  invert_bind H. injection Hm as _ <- _.
  invert_bind H. injection Hm as _ <- _.
  invert_bind H. injection Hm as _ <- _.
  invert_bind H. injection Hm as _ <- _.
  invert_bind H. injection Hm as _ <- _.
  invert_bind H. injection Hm as _ <- _.
  invert_bind H. injection Hm as _ <- _.
  apply bind_inv in H. destruct H as (? & s & ? & ? & Hm & H & _).
  match type of Hm with
  | for_of _ _ ?st = _ =>
      destruct (for_of_subscribe_run (topics (constructor h)) st _ eq_refl)
        as (tr' & E)
  end.
  rewrite E in Hm. injection Hm as _ <- _. clear E.
  invert_bind H. injection Hm as _ <- _.
  destruct (opt_staticPeers options) as [[| p ps] |].
  - injection H as <- _. established.
  - invert_bind H. injection Hm as _ <- _.
    invert_bind H. injection Hm as _ <- _.
    apply bind_inv in H. destruct H as (? & s & ? & ? & Hm & H & _).
    match type of Hm with
    | connectToStaticPeers _ ?st = _ =>
        destruct (connectToStaticPeers_run (p :: ps) st _ eq_refl)
          as (ps' & tr'' & E & _)
    end.
    rewrite E in Hm. injection Hm as _ <- _. clear E.
    injection H as <- _. established.
  - injection H as <- _. established.
Qed.

Lemma reachable_inv h options this :
  reachable h options this -> session_inv this.
Proof.
  induction 1 as [this tr Hc | this i _ IH].
  - unfold create in Hc.
    destruct (init options (constructor h)) as [[[[] | e] s] t] eqn:E;
      [| discriminate].
    injection Hc as <- _. exact (proj1 (init_returns _ _ _ _ E)).
  - exact (run_input_inv i this IH).
Qed.

Lemma reachable_handler h options this :
  reachable h options this -> messageHandler this = h.
Proof.
  induction 1 as [this tr Hc | this i _ IH].
  - unfold create in Hc.
    destruct (init options (constructor h)) as [[[[] | e] s] t] eqn:E;
      [| discriminate].
    injection Hc as <- _. exact (proj2 (init_returns _ _ _ _ E)).
  - exact (run_input_handler h i this IH).
Qed.

End InitFacts.

(** ** Dispatch of inbound messages *)

Lemma dispatch_message_run this msg :
  session_inv this ->
  dispatch_message msg this =
  (messageHandler this (msg_data msg), this,
   [ELog (ReceivedMessage (msg_topic msg)); ECallHandler [ABytes (msg_data msg)]]).
Proof.
  intros (_ & n & Hn & _ & Hl). unfold dispatch_message, on_gossipsub_message.
  run_monad. rewrite Hn, Hl.
  destruct (messageHandler this (msg_data msg)); reflexivity.
Qed.

Lemma example_session_reachable :
  @reachable example_network quiet_handler no_options example_session.
Proof.
  apply reachable_create
    with (tr := trace_of (@init example_network no_options
                            (constructor quiet_handler))).
  vm_compute. reflexivity.
Qed.

Lemma failing_session_reachable :
  @reachable example_network failing_handler no_options failing_session.
Proof.
  apply reachable_create
    with (tr := trace_of (@init example_network no_options
                            (constructor failing_handler))).
  vm_compute. reflexivity.
Qed.

Lemma example_session_callback_topics :
  callback_topics example_session = default_topics.
Proof. vm_compute. reflexivity. Qed.

(** C1, counterexample. On the example session a message of the
    subscribed topic [bitcoin/mainnet-block] invokes the handler with the
    payload alone; topic and origin are not among the arguments. *)
Lemma handler_gets_no_topic_nor_origin :
  ~ dispatched_with_topic_and_origin example_session block_message.
Proof.
  unfold dispatched_with_topic_and_origin. intros H.
  assert (Hin : In (msg_topic block_message) (callback_topics example_session))
    by (rewrite example_session_callback_topics; right; left; reflexivity).
  specialize (H Hin). vm_compute in H. discriminate H.
Qed.

(** C1, amended. For every topic of the session's list, a message event
    with that topic results in exactly one invocation of the session's
    message handler, whose only argument is the payload, unchanged. *)
Theorem dispatch_invokes_handler_with_payload :
  forall (cap : Capability) (h : Uint8Array -> Outcome unit)
         (options : P2PNodeOptions) (this : P2PNode) (msg : GossipsubMessage),
    reachable h options this ->
    In (msg_topic msg) (callback_topics this) ->
    handler_calls (trace_of (dispatch_message msg this)) = [[ABytes (msg_data msg)]] /\
    outcome_of (dispatch_message msg this) = h (msg_data msg).
Proof.
  intros cap h options this msg Hr _.
  rewrite (dispatch_message_run _ _ (reachable_inv _ _ _ Hr)).
  rewrite (reachable_handler _ _ _ Hr). split; reflexivity.
Qed.

Lemma dispatch_invokes_handler_with_payload_witness :
  handler_calls (trace_of (dispatch_message block_message example_session))
  = [[ABytes [1; 2; 3]]].
Proof.
  refine (proj1 (dispatch_invokes_handler_with_payload example_network
                   quiet_handler no_options example_session block_message
                   example_session_reachable _)).
  rewrite example_session_callback_topics. right. left. reflexivity.
Defined.




(** C5, counterexample. With a handler that throws, the dispatch of a
    message ends with that error: it leaves the listener. *)
Lemma handler_error_leaves_dispatch :
  ~ handler_error_contained failing_session block_message.
Proof.
  unfold handler_error_contained. intros H.
  specialize (H {| message := "handler failed" |} eq_refl).
  vm_compute in H. discriminate H.
Qed.

(** C5, amended. When the handler raises an error, the listener neither
    catches nor logs it: the dispatch ends with that error, handed to the
    event source.  The session is left as it was, and a later message, of
    any topic, is again handed to the handler. *)
Theorem handler_error_propagates :
  forall (cap : Capability) (h : Uint8Array -> Outcome unit)
         (options : P2PNodeOptions) (this : P2PNode)
         (msg : GossipsubMessage) (e : JsError),
    reachable h options this ->
    h (msg_data msg) = Throws e ->
    dispatch_message msg this =
      (Throws e, this,
       [ELog (ReceivedMessage (msg_topic msg));
        ECallHandler [ABytes (msg_data msg)]]) /\
    forall later,
      handler_calls
        (trace_of (dispatch_message later (state_of (dispatch_message msg this))))
      = [[ABytes (msg_data later)]].
Proof.
  intros cap h options this msg e Hr He.
  pose proof (reachable_inv _ _ _ Hr) as Hinv.
  rewrite (dispatch_message_run _ _ Hinv), (reachable_handler _ _ _ Hr), He.
  split; [reflexivity |]. intros later. cbn [state_of fst snd].
  now rewrite (dispatch_message_run _ _ Hinv).
Qed.

Lemma handler_error_propagates_witness :
  outcome_of (dispatch_message block_message failing_session)
  = Throws {| message := "handler failed" |}.
Proof.
  rewrite (proj1 (handler_error_propagates example_network failing_handler
                    no_options failing_session block_message
                    {| message := "handler failed" |}
                    failing_session_reachable eq_refl)).
  reflexivity.
Defined.

(** C7, counterexample. A message of a topic outside the session's list
    still invokes the handler. *)
Lemma stray_message_reaches_handler :
  ~ dropped_silently example_session stray_message.
Proof.
  unfold dropped_silently. intros H.
  assert (Hout : ~ In (msg_topic stray_message) (callback_topics example_session)).
  { rewrite example_session_callback_topics. cbn.
    intros [H' | [H' | [H' | [H' | [H' | [H' | []]]]]]]; discriminate H'. }
  destruct (H Hout) as [Hcalls _]. vm_compute in Hcalls. discriminate Hcalls.
Qed.

(** C7, amended. The listener does not look the topic up: a message of a
    topic outside the session's list invokes the handler once with the
    payload, like any other message, and the dispatch ends the way the
    handler ends, the listener raising no error of its own. *)
Theorem unlisted_topic_still_dispatched :
  forall (cap : Capability) (h : Uint8Array -> Outcome unit)
         (options : P2PNodeOptions) (this : P2PNode) (msg : GossipsubMessage),
    reachable h options this ->
    ~ In (msg_topic msg) (callback_topics this) ->
    handler_calls (trace_of (dispatch_message msg this)) = [[ABytes (msg_data msg)]] /\
    outcome_of (dispatch_message msg this) = h (msg_data msg) /\
    state_of (dispatch_message msg this) = this.
Proof.
  intros cap h options this msg Hr _.
  rewrite (dispatch_message_run _ _ (reachable_inv _ _ _ Hr)).
  rewrite (reachable_handler _ _ _ Hr). repeat split.
Qed.

Lemma unlisted_topic_still_dispatched_witness :
  handler_calls (trace_of (dispatch_message stray_message example_session))
  = [[ABytes [7]]].
Proof.
  refine (proj1 (unlisted_topic_still_dispatched example_network quiet_handler
                   no_options example_session stray_message
                   example_session_reachable _)).
  rewrite example_session_callback_topics. cbn.
  intros [H' | [H' | [H' | [H' | [H' | [H' | []]]]]]]; discriminate H'.
Defined.

(** ** Queries and publishing without a node *)

(** C6, counterexample. Before the node exists [publish] raises an error,
    and after [stop()] the node is still there, so [getNodeId] answers
    the identifier rather than [null]. *)
Lemma publish_throws_and_stopped_node_answers :
  ~ noop_returning tt
      (@publish example_network "bitcoin/mainnet-block" [1]) unstarted_session /\
  ~ noop_returning None getNodeId stopped_session.
Proof.
  split; unfold noop_returning; intros H; vm_compute in H; discriminate H.
Qed.

(** C6, amended. While the session holds no node, [getConnectedPeers]
    answers the empty list, [getNodeId] answers [null] and
    [getTopicPeers] answers the empty list, each without effect or
    error; [publish] in that state raises [Node not initialized]. *)
Theorem queries_without_node :
  forall (cap : Capability) (this : P2PNode) (topic : string) (msg : Uint8Array),
    node this = None ->
    noop_returning [] getConnectedPeers this /\
    noop_returning None getNodeId this /\
    noop_returning [] (getTopicPeers topic) this /\
    publish topic msg this =
      (Throws {| message := "Node not initialized" |}, this, []).
Proof.
  intros cap this topic msg Hn.
  unfold noop_returning, getConnectedPeers, getNodeId, getTopicPeers, publish.
  run_monad. rewrite Hn. repeat split.
Qed.

Lemma queries_without_node_witness :
  noop_returning [] getConnectedPeers unstarted_session.
Proof.
  exact (proj1 (queries_without_node example_network unstarted_session
                  "bitcoin/mainnet-block" [1] eq_refl)).
Defined.

(** ** Shutdown *)





(** ** Peer lookup by identifier *)

Lemma bind_run {A B} (m : M A) (f : A -> M B) this a this' t1 :
  m this = (Returns a, this', t1) ->
  bind m f this =
  (outcome_of (f a this'), state_of (f a this'), t1 ++ trace_of (f a this')).
Proof.
  intros E. unfold bind. rewrite E.
  destruct (f a this') as [[r s] t2]. reflexivity.
Qed.

Section LookupFacts.
Context {cap : Capability}.

Lemma discoverPeerById_run this n peerId :
  node this = Some n ->
  exists tr,
    discoverPeerById peerId this =
      (Returns (first_known_address n peerId), this, tr) /\
    dials tr = [].
Proof.
  intros Hn. unfold discoverPeerById, first_known_address. run_monad.
  rewrite Hn. destruct (peerIdFromString peerId) as [p | e].
  - destruct (peerStore_get n p) as [[[| a l] |] | e];
      eexists; split; reflexivity.
  - eexists; split; reflexivity.
Qed.

End LookupFacts.

Lemma connectToPeerById_trace {cap : Capability} this n peerId :
  node this = Some n ->
  outcome_of (connectToPeerById peerId this) = Returns tt /\
  trace_of (connectToPeerById peerId this) =
    trace_of (discoverPeerById peerId this) ++
    match first_known_address n peerId with
    | Some (String c a) =>
        match multiaddr (String c a) with
        | Returns _ =>
            EDial (String c a) ::
            match dial n (String c a) with
            | Returns _ => [ELog (ConnectedById peerId)]
            | Throws e => [ELog (FailedConnectById peerId e)]
            end
        | Throws e => [ELog (FailedConnectById peerId e)]
        end
    | _ => [ELog (CouldNotDiscover peerId)]
    end.
Proof.
  intros Hn.
  destruct (discoverPeerById_run this n peerId Hn) as (tr & E & _).
  unfold connectToPeerById. rewrite (bind_run _ _ _ _ _ _ E), E.
  cbn [outcome_of state_of trace_of fst snd].
  destruct (first_known_address n peerId) as [[| c a] |].
  - run_monad. cbn. split; reflexivity.
  - run_monad. rewrite Hn.
    destruct (multiaddr (String c a)) as [[] | e1].
    + destruct (dial n (String c a)) as [p | e2]; cbn; rewrite ?Hn; cbn;
        split; reflexivity.
    + cbn. split; reflexivity.
  - run_monad. cbn. split; reflexivity.
Qed.

(** C9. [connectToPeerById] first looks the peer up in the peer store and
    then dials the first known address.  Without an address it logs a
    warning and dials nothing; when the dial fails it logs a warning
    after that single dial; it returns normally in every case and never
    dials a second time. *)
Theorem connectToPeerById_resolves_then_dials :
  forall (cap : Capability) (this : P2PNode) (n : Libp2p) (peerId : string),
    node this = Some n ->
    let tr := trace_of (connectToPeerById peerId this) in
    outcome_of (discoverPeerById peerId this)
      = Returns (first_known_address n peerId) /\
    dials (trace_of (discoverPeerById peerId this)) = [] /\
    outcome_of (connectToPeerById peerId this) = Returns tt /\
    (first_known_address n peerId = None ->
     dials tr = [] /\
     In (CouldNotDiscover peerId) (logged tr) /\
     level (CouldNotDiscover peerId) = LevelWarn) /\
    (forall c a,
       first_known_address n peerId = Some (String c a) ->
       multiaddr (String c a) = Returns tt ->
       dials tr = [String c a] /\
       match dial n (String c a) with
       | Returns _ => In (ConnectedById peerId) (logged tr)
       | Throws e =>
           In (FailedConnectById peerId e) (logged tr) /\
           level (FailedConnectById peerId e) = LevelWarn
       end) /\
    (length (dials tr) <= 1)%nat.
Proof.
  intros cap this n peerId Hn tr.
  destruct (discoverPeerById_run this n peerId Hn) as (tr0 & E & Hd).
  destruct (connectToPeerById_trace this n peerId Hn) as (Hout & Htr).
  fold tr in Htr. rewrite E in *. cbn [outcome_of trace_of fst snd] in *.
  assert (Hdials : forall l, dials (tr0 ++ l) = dials l).
  { intros l. unfold dials in *. now rewrite flat_map_app, Hd. }
  assert (Hlog : forall m l, In m (logged l) -> In m (logged (tr0 ++ l))).
  { intros m l Hm. unfold logged in *. rewrite flat_map_app.
    apply in_or_app. now right. }
  split; [reflexivity |]. split; [exact Hd |]. split; [exact Hout |].
  rewrite Htr. clear Htr. split; [| split].
  - intros Hnone. rewrite Hnone, Hdials. split; [reflexivity |].
    split; [| reflexivity]. apply Hlog. left. reflexivity.
  - intros c a Ha Hp. rewrite Ha, Hp, Hdials.
    destruct (dial n (String c a)) as [p | e]; (split; [reflexivity |]);
      [| split; [| reflexivity]]; apply Hlog; cbn; left; reflexivity.
  - rewrite Hdials.
    destruct (first_known_address n peerId) as [[| c a] |]; cbn; try lia.
    destruct (multiaddr (String c a)); [destruct (dial n (String c a)) |];
      cbn; lia.
Qed.

Lemma connectToPeerById_resolves_then_dials_witness :
  outcome_of (@connectToPeerById example_network "12D3KooWPeerB" example_session)
  = Returns tt.
Proof.
  exact (proj1 (proj2 (proj2
           (connectToPeerById_resolves_then_dials example_network
              example_session _ "12D3KooWPeerB" eq_refl)))).
Defined.

(* ================================================================== *)
(** * Further properties of the session *)

(** ** Start-up *)

Lemma bind_returns_eq {A B} (m : M A) (f : A -> M B) this a s t1 r s' t2 :
  m this = (Returns a, s, t1) -> f a s = (r, s', t2) ->
  bind m f this = (r, s', t1 ++ t2).
Proof. intros E1 E2. unfold bind. now rewrite E1, E2. Qed.

Lemma bind_throws_eq {A B} (m : M A) (f : A -> M B) this e s t1 :
  m this = (Throws e, s, t1) -> bind m f this = (Throws e, s, t1).
Proof. intros E1. unfold bind. now rewrite E1. Qed.

Lemma bind_get_eq {B} (f : P2PNode -> M B) this :
  bind get f this = f this this.
Proof.
  unfold bind, get. destruct (f this this) as [[r s] t]. reflexivity.
Qed.

Lemma update_node_eq f this n :
  node this = Some n ->
  update_node f this = (Returns tt, set_node (Some (f n)) this, []).
Proof. intros Hn. unfold update_node. run_monad. now rewrite Hn. Qed.

Ltac read_trace :=
  unfold attempts, dials, handler_calls in *;
  repeat rewrite flat_map_app;
  repeat match goal with
         | H : flat_map _ ?t = _ |- context [flat_map _ ?t] => rewrite H
         end;
  try reflexivity.

Ltac step_returns := eapply bind_returns_eq; [reflexivity | cbv beta].
Ltac step_update :=
  eapply bind_returns_eq; [apply update_node_eq; reflexivity | cbv beta].

Section StartupFacts.
Context {cap : Capability}.

Lemma subscribe_and_advertise_trace topic this n :
  node this = Some n ->
  exists tr,
    subscribe_and_advertise topic this =
      (Returns tt, set_node (Some (subscribe topic n)) this, tr) /\
    attempts tr = [] /\ dials tr = [] /\ handler_calls tr = [].
Proof.
  intros Hn. unfold subscribe_and_advertise. run_monad. rewrite Hn. cbn.
  destruct (dht_provide _ _); eexists; repeat split.
Qed.

Lemma for_of_subscribe_trace : forall l this n,
  node this = Some n ->
  exists tr,
    for_of l subscribe_and_advertise this =
      (Returns tt,
       set_node (Some (fold_left (fun n t => subscribe t n) l n)) this, tr) /\
    attempts tr = [] /\ dials tr = [] /\ handler_calls tr = [].
Proof.
  induction l as [| t l IH]; intros this n Hn.
  - exists []. cbn. rewrite (set_node_same _ _ Hn). repeat split.
  - destruct (subscribe_and_advertise_trace t this n Hn) as (tr & E & Ha & Hd & Hh).
    destruct (IH (set_node (Some (subscribe t n)) this) (subscribe t n) eq_refl)
      as (tr' & E' & Ha' & Hd' & Hh').
    cbn [for_of fold_left]. unfold bind. rewrite E, E'.
    eexists. split; [reflexivity |].
    unfold attempts, dials, handler_calls in *.
    rewrite !flat_map_app, Ha, Hd, Hh, Ha', Hd', Hh'. repeat split.
Qed.

Lemma init_run h options :
  match createLibp2p (libp2pOptions_of default_topics options) with
  | Throws e =>
      exists this tr,
        init options (constructor h) = (Throws e, this, tr) /\
        node this = None /\ dials tr = []
  | Returns id =>
      match node_start (libp2pOptions_of default_topics options) with
      | Throws e =>
          exists this tr,
            init options (constructor h) = (Throws e, this, tr) /\ dials tr = []
      | Returns _ =>
          exists n tr,
            init options (constructor h) =
              (Returns tt,
               {| node := Some n; topics := default_topics;
                  messageHandler := h;
                  staticPeers := configured_static_peers options;
                  reconnectionInterval :=
                    match configured_static_peers options with
                    | [] => None
                    | _ :: _ => Some (Interval 30000)
                    end |}, tr) /\
            lp_peerId n = id /\ lp_started n = true /\
            attempts tr = configured_static_peers options /\
            dials tr = filter parses (configured_static_peers options) /\
            handler_calls tr = []
      end
  end.
Proof.
  unfold init. rewrite bind_get_eq. cbn [topics constructor].
  set (o := libp2pOptions_of default_topics options).
  assert (Hpre : exists trp,
            (if truthy_bool (usePrivateDHT options) &&
                truthy_js_string (sharedKey options)
             then match sharedKey options with
                  | Some key =>
                      log (UsingPrivateDHT key) ;;
                      log (PskFormattedString (pskString key))
                  | None => ret tt
                  end
             else ret tt) (constructor h) = (Returns tt, constructor h, trp) /\
            attempts trp = [] /\ dials trp = [] /\ handler_calls trp = []).
  { destruct (truthy_bool (usePrivateDHT options) &&
              truthy_js_string (sharedKey options));
      [destruct (sharedKey options) |]; eexists; repeat split. }
  destruct Hpre as (trp & Ep & Hpa & Hpd & Hph).
  destruct (createLibp2p o) as [id | e] eqn:Ec.
  - destruct (node_start o) as [[] | e] eqn:Es.
    + pose (n0 := addEventListener "peer:disconnect"
                    (addEventListener "peer:connect"
                       (addEventListener "peer:discovery"
                          (set_started true (new_libp2p o id))))).
      pose (n1 := addEventListener "gossipsub:message"
                    (fold_left (fun n t => subscribe t n) default_topics n0)).
      destruct (for_of_subscribe_trace default_topics
                  (set_node (Some n0) (constructor h)) n0 eq_refl)
        as (trf & Ef & Hfa & Hfd & Hfh).
      assert (Hrest : forall (tail : M unit) s' trt,
                tail (set_node (Some n1) (constructor h)) = (Returns tt, s', trt) ->
                exists tr,
                  ((if truthy_bool (usePrivateDHT options) &&
                       truthy_js_string (sharedKey options)
                    then match sharedKey options with
                         | Some key =>
                             log (UsingPrivateDHT key) ;;
                             log (PskFormattedString (pskString key))
                         | None => ret tt
                         end
                    else ret tt) ;;
                   log CreatingNode ;;
                   id <- await (Returns id) ;;
                   modify (set_node (Some (new_libp2p o id))) ;;
                   log StartingNode ;;
                   emit ENodeStart ;;
                   await (Returns tt) ;;
                   update_node (set_started true) ;;
                   log NodeStarted ;;
                   update_node (addEventListener "peer:discovery") ;;
                   update_node (addEventListener "peer:connect") ;;
                   update_node (addEventListener "peer:disconnect") ;;
                   for_of default_topics subscribe_and_advertise ;;
                   update_node (addEventListener "gossipsub:message") ;;
                   tail) (constructor h) = (Returns tt, s', tr) /\
                  attempts tr = attempts trt /\ dials tr = dials trt /\
                  handler_calls tr = handler_calls trt).
      { intros tail s' trt Et. eexists. split.
        { eapply bind_returns_eq; [exact Ep | cbv beta].
          step_returns.
          step_returns.
          step_returns. step_returns. step_returns.
          step_returns.
          step_update. step_returns. step_update. step_update. step_update.
          eapply bind_returns_eq; [exact Ef | cbv beta].
          eapply bind_returns_eq;
            [apply update_node_eq; reflexivity | cbv beta; exact Et]. }
        repeat split; read_trace. }
      assert (Hid : lp_peerId n1 = id /\ lp_started n1 = true)
        by (split; vm_compute; reflexivity).
      unfold configured_static_peers.
      destruct (opt_staticPeers options) as [[| p ps] |] eqn:Eo.
      * destruct (Hrest (ret tt) _ _ eq_refl) as (tr & E & Ha & Hd & Hh).
        exists n1, tr. split; [exact E |]. cbn in Ha, Hd, Hh. tauto.
      * destruct (connectToStaticPeers_run (p :: ps)
                    (set_staticPeers (p :: ps) (set_node (Some n1) (constructor h)))
                    n1 eq_refl) as (ps' & trs & Es' & Has & Hds & _ & Hhs).
        destruct (Hrest
                    (modify (set_staticPeers (p :: ps)) ;;
                     log (ConnectingToStatic (length (p :: ps))) ;;
                     connectToStaticPeers (p :: ps) ;;
                     startStaticPeerMonitoring)
                    (set_reconnectionInterval (Some (Interval 30000))
                       (set_node (Some (set_peers ps' n1))
                          (set_staticPeers (p :: ps)
                             (set_node (Some n1) (constructor h)))))
                    ([] ++ [ELog (ConnectingToStatic (length (p :: ps)))] ++
                     trs ++ [ESetInterval 30000] ++ []))
          as (tr & E & Ha & Hd & Hh).
        { step_returns. step_returns.
          eapply bind_returns_eq; [exact Es' | cbv beta]. reflexivity. }
        exists (set_peers ps' n1), tr. split; [exact E |].
        rewrite Ha, Hd, Hh. split; [apply Hid |]. split; [apply Hid |].
        repeat split; read_trace; cbn; rewrite ?app_nil_r; reflexivity.
      * destruct (Hrest (ret tt) _ _ eq_refl) as (tr & E & Ha & Hd & Hh).
        exists n1, tr. split; [exact E |]. cbn in Ha, Hd, Hh. tauto.
    + eexists. eexists. split.
      { eapply bind_returns_eq; [exact Ep | cbv beta].
        step_returns.
        step_returns.
        step_returns. step_returns. step_returns.
        eapply bind_throws_eq. reflexivity. }
      read_trace.
  - exists (constructor h). eexists. split; [| split; [reflexivity |]].
    { eapply bind_returns_eq; [exact Ep | cbv beta].
      step_returns.
      eapply bind_throws_eq. reflexivity. }
    read_trace.
Qed.

End StartupFacts.

Section CreateFacts.
Context {cap : Capability}.

Lemma create_returns_inv h options this tr :
  create h options = (Returns this, tr) ->
  exists n id,
    createLibp2p (libp2pOptions_of default_topics options) = Returns id /\
    this = {| node := Some n; topics := default_topics; messageHandler := h;
              staticPeers := configured_static_peers options;
              reconnectionInterval :=
                match configured_static_peers options with
                | [] => None
                | _ :: _ => Some (Interval 30000)
                end |} /\
    lp_peerId n = id /\ lp_started n = true /\
    attempts tr = configured_static_peers options /\
    dials tr = filter parses (configured_static_peers options) /\
    handler_calls tr = [].
Proof.
  unfold create. intros H. pose proof (init_run h options) as R.
  destruct (createLibp2p (libp2pOptions_of default_topics options)) as [id | e].
  - destruct (node_start (libp2pOptions_of default_topics options)) as [[] | e].
    + destruct R as (n & tr' & E & Hid & Hst & Ha & Hd & Hh).
      rewrite E in H. injection H as <- <-.
      exists n, id. repeat split; assumption.
    + destruct R as (s & tr' & E & _). rewrite E in H. discriminate H.
  - destruct R as (s & tr' & E & _). rewrite E in H. discriminate H.
Qed.

End CreateFacts.

(** X1. [create] hands out a session exactly when [createLibp2p] and
    [node.start()] succeed.  A failure of either reaches the caller
    before any dial is issued; no other step of the start-up (topic
    advertisement, static peer dials) can make [create] fail. *)
Theorem create_fails_only_at_bootstrap :
  forall (cap : Capability) (h : Uint8Array -> Outcome unit)
         (options : P2PNodeOptions),
    match createLibp2p (libp2pOptions_of default_topics options),
          node_start (libp2pOptions_of default_topics options) with
    | Returns _, Returns _ =>
        exists this tr, create h options = (Returns this, tr)
    | Returns _, Throws e =>
        exists tr, create h options = (Throws e, tr) /\ dials tr = []
    | Throws e, _ =>
        exists tr, create h options = (Throws e, tr) /\ dials tr = []
    end.
Proof.
  intros cap h options. unfold create. pose proof (init_run h options) as R.
  destruct (createLibp2p (libp2pOptions_of default_topics options)) as [id | e].
  - destruct (node_start (libp2pOptions_of default_topics options)) as [[] | e].
    + destruct R as (n & tr & E & _). rewrite E. eexists. eexists. reflexivity.
    + destruct R as (s & tr & E & Hd). rewrite E. exists tr. split; [reflexivity | exact Hd].
  - destruct R as (s & tr & E & _ & Hd). rewrite E. exists tr.
    split; [reflexivity | exact Hd].
Qed.

(** X2. The session [create] hands out stores the configured static peer
    list and has its monitoring timer set, with a period of 30 seconds,
    exactly when that list is not empty. *)
Theorem create_arms_timer_iff_static_peers :
  forall (cap : Capability) (h : Uint8Array -> Outcome unit)
         (options : P2PNodeOptions) (this : P2PNode) (tr : list Event),
    create h options = (Returns this, tr) ->
    staticPeers this = configured_static_peers options /\
    (reconnectionInterval this = Some (Interval 30000) <->
     configured_static_peers options <> []) /\
    (reconnectionInterval this = None <-> configured_static_peers options = []).
Proof.
  intros cap h options this tr H.
  destruct (create_returns_inv _ _ _ _ H) as (n & id & _ & -> & _).
  cbn [staticPeers reconnectionInterval].
  destruct (configured_static_peers options); repeat split; congruence.
Qed.

Lemma create_arms_timer_iff_static_peers_witness :
  staticPeers (session_of quiet_handler (options_with_static [addrA; addrB]))
  = [addrA; addrB].
Proof.
  refine (proj1 (create_arms_timer_iff_static_peers example_network
                   quiet_handler (options_with_static [addrA; addrB]) _
                   (trace_of (@init example_network
                                (options_with_static [addrA; addrB])
                                (constructor quiet_handler))) _)).
  vm_compute. reflexivity.
Defined.



(** ** The life of a session *)

Lemma connected_keeps p n :
  lp_peerId (connected p n) = lp_peerId n /\
  lp_started (connected p n) = lp_started n.
Proof.
  unfold connected.
  destruct (includes (map pid_string (lp_peers n)) (pid_string p)); split;
    reflexivity.
Qed.

Lemma fixed_parts_set_node id static this n n' :
  fixed_parts id static this -> node this = Some n ->
  lp_peerId n' = lp_peerId n ->
  fixed_parts id static (set_node (Some n') this).
Proof.
  intros (Hs & Ht & n0 & Hn0 & Hid) Hn Hid'.
  rewrite Hn in Hn0. injection Hn0 as <-.
  repeat split; try assumption. exists n'. split; [reflexivity | congruence].
Qed.

Lemma fixed_parts_clear_timer id static this :
  fixed_parts id static this ->
  fixed_parts id static (set_reconnectionInterval None this).
Proof.
  intros (Hs & Ht & Hn). repeat split; try assumption. now left.
Qed.

Lemma stopped_set_node this n n' :
  stopped this -> node this = Some n -> lp_started n' = lp_started n ->
  stopped (set_node (Some n') this).
Proof.
  intros (Ht & n0 & Hn0 & Hst) Hn Hst'.
  rewrite Hn in Hn0. injection Hn0 as <-.
  split; [exact Ht |]. exists n'. split; [reflexivity | congruence].
Qed.

Lemma stopped_set_started_false this n :
  stopped this -> node this = Some n ->
  stopped (set_node (Some (set_started false n)) this).
Proof.
  intros (Ht & _) _. split; [exact Ht |]. eexists. split; reflexivity.
Qed.

Lemma stopped_clear_timer this :
  stopped this -> stopped (set_reconnectionInterval None this).
Proof. intros (Ht & Hn). split; [reflexivity | exact Hn]. Qed.

Ltac keep_parts :=
  lazymatch goal with
  | |- fixed_parts _ _ (set_node (Some (connected _ _)) _) =>
      eapply fixed_parts_set_node; [eassumption | eassumption | apply connected_keeps]
  | |- fixed_parts _ _ (set_node (Some _) _) =>
      eapply fixed_parts_set_node; [eassumption | eassumption | reflexivity]
  | |- fixed_parts _ _ (set_reconnectionInterval None _) =>
      apply fixed_parts_clear_timer; assumption
  | |- stopped (set_node (Some (connected _ _)) _) =>
      eapply stopped_set_node; [eassumption | eassumption | apply connected_keeps]
  | |- stopped (set_node (Some (set_started false _)) _) =>
      eapply stopped_set_started_false; eassumption
  | |- stopped (set_node (Some _) _) =>
      eapply stopped_set_node; [eassumption | eassumption | reflexivity]
  | |- stopped (set_reconnectionInterval None _) =>
      apply stopped_clear_timer; assumption
  end.

Ltac unfold_methods :=
  unfold run_input, stop, publish, discard, connectToPeerById,
    discoverPeerById, getConnectedPeers, getNodeId, getTopicPeers,
    dispatch_message, on_gossipsub_message, on_peer_discovery,
    on_peer_connect, on_peer_disconnect, monitoring_tick,
    connectToStaticPeers, static_dial_begin, static_dial_settle.

Section LifeFacts.
Context {cap : Capability}.

Lemma run_input_fixed_parts id static i :
  preserves (fixed_parts id static) (run_input i).
Proof. destruct i; unfold_methods; preserve; keep_parts. Qed.

Lemma run_input_stopped i : preserves stopped (run_input i).
Proof. destruct i; unfold_methods; preserve; keep_parts. Qed.

Lemma run_inputs_stopped : forall inputs this,
  stopped this -> stopped (run_inputs inputs this).
Proof.
  induction inputs as [| i rest IH]; intros this H; [exact H |].
  cbn [run_inputs]. apply IH. now apply run_input_stopped.
Qed.

Lemma reachable_fixed_parts h options this id :
  reachable h options this ->
  createLibp2p (libp2pOptions_of default_topics options) = Returns id ->
  fixed_parts id (configured_static_peers options) this.
Proof.
  intros Hr Hid. induction Hr as [this tr Hc | this i _ IH].
  - destruct (create_returns_inv _ _ _ _ Hc) as (n & id' & Hid' & -> & Hpid & _).
    rewrite Hid in Hid'. injection Hid' as <-.
    split; [reflexivity |]. split.
    + cbn [reconnectionInterval].
      destruct (configured_static_peers options); [now left | right].
      split; [reflexivity | discriminate].
    + exists n. split; [reflexivity | exact Hpid].
  - now apply run_input_fixed_parts.
Qed.

End LifeFacts.

(** X4. During the whole life of a session, also after [stop()],
    [getNodeId] answers the identity the node was created with, and the
    static peer list, the topic list and the message handler stay the
    ones set at creation. *)
Theorem session_identity_is_fixed :
  forall (cap : Capability) (h : Uint8Array -> Outcome unit)
         (options : P2PNodeOptions) (this : P2PNode) (id : PeerId),
    reachable h options this ->
    createLibp2p (libp2pOptions_of default_topics options) = Returns id ->
    getNodeId this = (Returns (Some (pid_string id)), this, []) /\
    staticPeers this = configured_static_peers options /\
    topics this = default_topics /\
    messageHandler this = h.
Proof.
  intros cap h options this id Hr Hid.
  destruct (reachable_fixed_parts _ _ _ _ Hr Hid) as (Hs & _ & n & Hn & Hpid).
  split; [| split; [exact Hs | split]].
  - unfold getNodeId. run_monad. rewrite Hn, Hpid. reflexivity.
  - exact (proj1 (reachable_inv _ _ _ Hr)).
  - exact (reachable_handler _ _ _ Hr).
Qed.

Lemma session_identity_is_fixed_witness :
  getNodeId stopped_session
  = (Returns (Some "12D3KooWLocal"), stopped_session, []).
Proof.
  refine (proj1 (session_identity_is_fixed example_network quiet_handler
                   no_options stopped_session {| pid_string := "12D3KooWLocal" |}
                   _ eq_refl)).
  exact (reachable_step quiet_handler no_options example_session CallStop
           example_session_reachable).
Defined.

(** *** What a computation emits *)

Lemma emits_only_ret {A} ok (a : A) : emits_only ok (ret a).
Proof. intros this. reflexivity. Qed.

Lemma emits_only_get ok : emits_only ok get.
Proof. intros this. reflexivity. Qed.

Lemma emits_only_modify ok f : emits_only ok (modify f).
Proof. intros this. reflexivity. Qed.

Lemma emits_only_await {A} ok (r : Outcome A) : emits_only ok (await r).
Proof. intros this. reflexivity. Qed.

Lemma emits_only_throw {A} ok e : emits_only ok (@throw A e).
Proof. intros this. reflexivity. Qed.

Lemma emits_only_emit (ok : Event -> bool) ev :
  ok ev = true -> emits_only ok (emit ev).
Proof. intros H this. cbn. now rewrite H. Qed.

Lemma emits_only_bind {A B} ok (m : M A) (f : A -> M B) :
  emits_only ok m -> (forall a, emits_only ok (f a)) -> emits_only ok (bind m f).
Proof.
  intros Hm Hf this. specialize (Hm this). unfold bind, trace_of in *.
  destruct (m this) as [[[a | e] s] t1]; cbn in *; [| exact Hm].
  specialize (Hf a s). unfold trace_of in Hf.
  destruct (f a s) as [[r s'] t2]. cbn in *.
  rewrite forallb_app, Hm, Hf. reflexivity.
Qed.

Lemma emits_only_try_catch {A} ok (m : M A) h :
  emits_only ok m -> (forall e, emits_only ok (h e)) ->
  emits_only ok (try_catch m h).
Proof.
  intros Hm Hh this. specialize (Hm this). unfold try_catch, trace_of in *.
  destruct (m this) as [[[a | e] s] t1]; cbn in *; [exact Hm |].
  specialize (Hh e s). unfold trace_of in Hh.
  destruct (h e s) as [[r s'] t2]. cbn in *.
  rewrite forallb_app, Hm, Hh. reflexivity.
Qed.

Lemma emits_only_the_node ok : emits_only ok the_node.
Proof. intros this. unfold the_node. run_monad. destruct (node this); reflexivity. Qed.

Lemma emits_only_update_node ok f : emits_only ok (update_node f).
Proof.
  intros this. unfold update_node. run_monad. destruct (node this); reflexivity.
Qed.

Ltac emits_step :=
  lazymatch goal with
  | |- emits_only _ (ret _) => apply emits_only_ret
  | |- emits_only _ get => apply emits_only_get
  | |- emits_only _ (modify _) => apply emits_only_modify
  | |- emits_only _ (await _) => apply emits_only_await
  | |- emits_only _ (throw _) => apply emits_only_throw
  | |- emits_only _ (emit _) => apply emits_only_emit; reflexivity
  | |- emits_only _ (log _) => apply emits_only_emit; reflexivity
  | |- emits_only _ the_node => apply emits_only_the_node
  | |- emits_only _ (update_node _) => apply emits_only_update_node
  | |- emits_only _ (bind _ _) => apply emits_only_bind; [| intros ?]
  | |- emits_only _ (try_catch _ _) => apply emits_only_try_catch; [| intros ?]
  | |- emits_only _ (match ?x with _ => _ end) => destruct x
  end.

Lemma no_static_attempt tr :
  forallb not_static_attempt tr = true -> attempts tr = [].
Proof.
  induction tr as [| ev tr IH]; [reflexivity |]. cbn [forallb].
  intros H. apply andb_true_iff in H. destruct H as [Hev Htr].
  unfold attempts in *. cbn [flat_map]. rewrite (IH Htr).
  destruct ev as [[] | | | | | | | | | |]; try reflexivity. discriminate Hev.
Qed.

Section FinalFacts.
Context {cap : Capability}.

(** Only the monitoring timer starts static-peer connection attempts. *)
Lemma only_timer_attempts i :
  not_timer i = true -> emits_only not_static_attempt (run_input i).
Proof.
  destruct i; intros H; try discriminate H;
    unfold run_input, stop, publish, discard, connectToPeerById,
      discoverPeerById, getConnectedPeers, getNodeId, getTopicPeers,
      dispatch_message, on_gossipsub_message, on_peer_discovery,
      on_peer_connect, on_peer_disconnect;
    repeat emits_step.
Qed.

Lemma stop_stops this n :
  node this = Some n -> node_stop n = Returns tt ->
  stopped (state_of (stop this)).
Proof.
  intros Hn Hstop. destruct this as [nd tp h sp t]. cbn [node] in Hn. subst nd.
  unfold stop, stopped. run_monad.
  destruct t as [t |];
    cbn [node reconnectionInterval set_reconnectionInterval set_node];
    rewrite Hstop;
    (split; [reflexivity | eexists; split; reflexivity]).
Qed.

Lemma stop_clears_timer this :
  reconnectionInterval (state_of (stop this)) = None.
Proof.
  destruct this as [[n |] tp h sp t]; unfold stop; run_monad;
    destruct t as [t |];
    cbn [node reconnectionInterval set_reconnectionInterval set_node];
    try destruct (node_stop n) as [[] | e]; reflexivity.
Qed.

Lemma run_input_timer_off i :
  preserves (fun this => reconnectionInterval this = None) (run_input i).
Proof.
  destruct i; unfold_methods; preserve; try reflexivity; assumption.
Qed.

Lemma run_inputs_timer_off : forall inputs this,
  reconnectionInterval this = None ->
  reconnectionInterval (run_inputs inputs this) = None.
Proof.
  induction inputs as [| i rest IH]; intros this H; [exact H |].
  cbn [run_inputs]. apply IH. exact (run_input_timer_off i this H).
Qed.

End FinalFacts.

(** X5. [stop()] is final.  Whatever [node.stop()] answers, and whatever
    is called or happens afterwards, no timer is set again and no
    static-peer connection attempt is started any more; and when
    [node.stop()] resolved, the node stays stopped. *)
Theorem stop_is_final :
  forall (cap : Capability) (this : P2PNode) (n : Libp2p)
         (inputs : list Input) (i : Input),
    node this = Some n ->
    reconnectionInterval (run_inputs inputs (state_of (stop this))) = None /\
    attempts
      (trace_of (run_input i (run_inputs inputs (state_of (stop this))))) = [] /\
    (node_stop n = Returns tt ->
     stopped (run_inputs inputs (state_of (stop this)))).
Proof.
  intros cap this n inputs i Hn.
  assert (Ht : reconnectionInterval
                 (run_inputs inputs (state_of (stop this))) = None)
    by (apply run_inputs_timer_off, stop_clears_timer).
  split; [exact Ht | split].
  - destruct (not_timer i) eqn:Hi.
    + apply no_static_attempt. exact (only_timer_attempts i Hi _).
    + destruct i; try discriminate Hi.
      unfold run_input. run_monad. rewrite Ht. reflexivity.
  - intros Hstop. apply run_inputs_stopped. exact (stop_stops _ _ Hn Hstop).
Qed.

Lemma stop_is_final_witness :
  attempts
    (trace_of
       (@run_input example_network TimerFires
          (@run_inputs example_network
             [NetworkChange []; CallConnectToPeerById "12D3KooWPeerB"]
             (state_of
                (@stop example_network
                   (session_of quiet_handler
                      (options_with_static [addrA; addrB]))))))) = [].
Proof.
  exact (proj1 (proj2 (stop_is_final example_network
                  (session_of quiet_handler (options_with_static [addrA; addrB]))
                  _ [NetworkChange []; CallConnectToPeerById "12D3KooWPeerB"]
                  TimerFires eq_refl))).
Defined.

(** ** More on the monitoring timer *)

(** X6. One tick starts connection attempts for exactly the static peers
    whose peer identifier is not among the connected peers, in list
    order: a static peer that is connected is never dialled, and when
    every identified static peer is connected the tick does nothing at
    all. *)
Theorem tick_reconnects_only_disconnected :
  forall (cap : Capability) (this : P2PNode) (n : Libp2p),
    node this = Some n ->
    attempts (trace_of (monitoring_tick this)) =
      filter (is_candidate (map pid_string (lp_peers n))) (staticPeers this) /\
    (forall t id,
       In t (attempts (trace_of (monitoring_tick this))) ->
       peerIdMatch t = Some id ->
       includes (map pid_string (lp_peers n)) id = false) /\
    ((forall t id,
        In t (staticPeers this) -> peerIdMatch t = Some id ->
        includes (map pid_string (lp_peers n)) id = true) ->
     monitoring_tick this = (Returns tt, this, [])).
Proof.
  intros cap this n Hn.
  destruct (monitoring_tick_run this n Hn) as (ps & tr & E & Ha & _).
  rewrite disconnectedStaticPeers_filter in Ha.
  split; [| split].
  - rewrite E. exact Ha.
  - rewrite E. cbn [trace_of snd]. rewrite Ha. intros t id Hin Hm.
    apply filter_In in Hin. destruct Hin as [_ Hc].
    unfold is_candidate in Hc. rewrite Hm in Hc.
    now destruct (includes (map pid_string (lp_peers n)) id).
  - intros Hall. clear E Ha.
    assert (Hnone : disconnectedStaticPeers n (staticPeers this) = []).
    { rewrite disconnectedStaticPeers_filter.
      induction (staticPeers this) as [| sp l IH]; [reflexivity |].
      cbn [filter]. unfold is_candidate at 1.
      destruct (peerIdMatch sp) as [id |] eqn:Hm.
      - rewrite (Hall sp id (or_introl eq_refl) Hm). cbn.
        apply IH. intros t id' Ht. apply Hall. now right.
      - apply IH. intros t id' Ht. apply Hall. now right. }
    unfold monitoring_tick. run_monad. rewrite Hn, Hnone.
    destruct (length (staticPeers this) =? 0)%nat; reflexivity.
Qed.

Lemma tick_reconnects_only_disconnected_witness :
  @monitoring_tick example_network session_all_connected
  = (Returns tt, session_all_connected, []).
Proof.
  refine (proj2 (proj2 (tick_reconnects_only_disconnected example_network
                          session_all_connected _ eq_refl)) _).
  intros t id [<- | [<- | []]] Hm; vm_compute in Hm; injection Hm as <-;
    reflexivity.
Defined.

(** ** Discovery and publishing *)

(** X7. The [peer:discovery] listener never throws: with a node it dials
    the discovered peer exactly once and, when that dial fails, logs the
    failure at error level and returns; without a node it dials
    nothing. *)
Theorem discovery_listener_contains_dial_errors :
  forall (cap : Capability) (this : P2PNode) (id : PeerId)
         (multiaddrs : list string),
    outcome_of (on_peer_discovery id multiaddrs this) = Returns tt /\
    match node this with
    | Some n =>
        match dial_peer n id with
        | Returns _ =>
            trace_of (on_peer_discovery id multiaddrs this) =
              [ELog (PeerDiscovered (pid_string id));
               ELog (PeerMultiaddrs multiaddrs); ELog AttemptingDiscovered;
               EDialPeer id; ELog DialedDiscovered] /\
            node (state_of (on_peer_discovery id multiaddrs this))
              = Some (connected id n)
        | Throws e =>
            trace_of (on_peer_discovery id multiaddrs this) =
              [ELog (PeerDiscovered (pid_string id));
               ELog (PeerMultiaddrs multiaddrs); ELog AttemptingDiscovered;
               EDialPeer id; ELog (FailedDialDiscovered e)] /\
            level (FailedDialDiscovered e) = LevelError /\
            state_of (on_peer_discovery id multiaddrs this) = this
        end
    | None =>
        on_peer_discovery id multiaddrs this =
          (Returns tt, this,
           [ELog (PeerDiscovered (pid_string id));
            ELog (PeerMultiaddrs multiaddrs)])
    end.
Proof.
  intros cap this id multiaddrs. unfold on_peer_discovery. run_monad.
  destruct (node this) as [n |] eqn:Hn; [| split; reflexivity].
  destruct (dial_peer n id) as [[] | e]; cbn; rewrite ?Hn; cbn;
    repeat split.
Qed.

(** X8. On every session handed out by [create], also a stopped one, the
    guard of [publish] never fires: [publish] hands topic and message
    unchanged to the pubsub service exactly once; when that call fails
    its error reaches the caller and nothing is logged as published; the
    session is left unchanged either way. *)
Theorem publish_forwards_once :
  forall (cap : Capability) (h : Uint8Array -> Outcome unit)
         (options : P2PNodeOptions) (this : P2PNode)
         (topic : string) (msg : Uint8Array),
    reachable h options this ->
    exists n,
      node this = Some n /\
      publish topic msg this =
        match pubsub_publish n topic msg with
        | Returns _ =>
            (Returns tt, this, [EPublish topic msg; ELog (Published topic)])
        | Throws e => (Throws e, this, [EPublish topic msg])
        end.
Proof.
  intros cap h options this topic msg Hr.
  destruct (reachable_inv _ _ _ Hr) as (_ & n & Hn & _).
  exists n. split; [exact Hn |]. unfold publish. run_monad. rewrite Hn.
  destruct (pubsub_publish n topic msg) as [[] | e]; reflexivity.
Qed.

Lemma publish_forwards_once_witness :
  exists n,
    node stopped_session = Some n /\
    @publish example_network "bitcoin/mainnet-block" [1; 2] stopped_session
    = match @pubsub_publish example_network n "bitcoin/mainnet-block" [1; 2] with
      | Returns _ =>
          (Returns tt, stopped_session,
           [EPublish "bitcoin/mainnet-block" [1; 2];
            ELog (Published "bitcoin/mainnet-block")])
      | Throws e => (Throws e, stopped_session,
                     [EPublish "bitcoin/mainnet-block" [1; 2]])
      end.
Proof.
  exact (publish_forwards_once example_network quiet_handler no_options
           stopped_session "bitcoin/mainnet-block" [1; 2]
           (reachable_step quiet_handler no_options example_session CallStop
              example_session_reachable)).
Defined.

(* ================================================================== *)
(** * Properties of the subtree *)

(** ** Powers of two and array equality *)

Lemma land_pred_zero_iff n :
  0 < n -> (Z.land n (n - 1) = 0 <-> exists k, 0 <= k /\ n = 2 ^ k).
Proof.
  intros Hn. split.
  - intros H. exists (Z.log2 n). split; [apply Z.log2_nonneg |].
    destruct (Z.log2_spec n Hn) as [Hlo Hhi].
    destruct (Z.eq_dec n (2 ^ Z.log2 n)) as [E | E]; [exact E | exfalso].
    assert (P : 0 < 2 ^ Z.log2 n)
      by (apply Z.pow_pos_nonneg; [lia | apply Z.log2_nonneg]).
    assert (B1 : Z.testbit n (Z.log2 n) = true) by (apply Z.bit_log2; lia).
    assert (L : Z.log2 (n - 1) = Z.log2 n).
    { apply Z.log2_unique; [apply Z.log2_nonneg | lia]. }
    assert (B2 : Z.testbit (n - 1) (Z.log2 n) = true).
    { rewrite <- L. apply Z.bit_log2. lia. }
    assert (B : Z.testbit (Z.land n (n - 1)) (Z.log2 n) = true)
      by (rewrite Z.land_spec, B1, B2; reflexivity).
    rewrite H, Z.bits_0 in B. discriminate B.
  - intros (k & Hk & ->).
    replace (2 ^ k - 1) with (Z.ones k) by (rewrite Z.ones_equiv; lia).
    rewrite Z.land_ones by lia. apply Z.mod_same.
    apply Z.pow_nonzero; lia.
Qed.

Lemma ToInt32_small x : 0 <= x < 2 ^ 31 -> ToInt32 x = x.
Proof.
  intros H. unfold ToInt32. rewrite Z.mod_small by lia.
  destruct (x <? 2 ^ 31) eqn:E; [reflexivity |].
  apply Z.ltb_ge in E. lia.
Qed.

Lemma ToInt32_large x : 2 ^ 31 <= x < 2 ^ 32 -> ToInt32 x = x - 2 ^ 32.
Proof.
  intros H. unfold ToInt32. rewrite Z.mod_small by lia.
  destruct (x <? 2 ^ 31) eqn:E; [| reflexivity].
  apply Z.ltb_lt in E. lia.
Qed.

Lemma isPowerOfTwo_spec n :
  0 < n < 2 ^ 32 -> (isPowerOfTwo n = true <-> exists k, 0 <= k /\ n = 2 ^ k).
Proof.
  intros Hn. unfold isPowerOfTwo, bitand.
  replace (0 <? n) with true by (symmetry; apply Z.ltb_lt; lia).
  cbn [andb]. rewrite Z.eqb_eq.
  destruct (Z_lt_le_dec n (2 ^ 31)) as [Hs | Hl].
  - rewrite !ToInt32_small by lia. apply land_pred_zero_iff. lia.
  - destruct (Z.eq_dec n (2 ^ 31)) as [-> | Hne].
    + split; [intros _; exists 31; split; [lia | reflexivity] | reflexivity].
    + rewrite !ToInt32_large by lia. split.
      * intros H. exfalso.
        assert (N : Z.land (n - 2 ^ 32) (n - 1 - 2 ^ 32) < 0)
          by (apply Z.land_neg; lia).
        lia.
      * intros (k & Hk & E). exfalso.
        destruct (Z_le_gt_dec k 31) as [Hk31 | Hk32].
        -- assert (2 ^ k <= 2 ^ 31) by (apply Z.pow_le_mono_r; lia). lia.
        -- assert (2 ^ 32 <= 2 ^ k) by (apply Z.pow_le_mono_r; lia). lia.
Qed.

Lemma isPowerOfTwo_nonpositive n : n <= 0 -> isPowerOfTwo n = false.
Proof.
  intros H. unfold isPowerOfTwo.
  replace (0 <? n) with false by (symmetry; apply Z.ltb_ge; lia). reflexivity.
Qed.

Lemma isPowerOfTwo_multiple m : 0 < m -> isPowerOfTwo (m * 2 ^ 32) = true.
Proof.
  intros H. unfold isPowerOfTwo, bitand.
  replace (0 <? m * 2 ^ 32) with true by (symmetry; apply Z.ltb_lt; lia).
  assert (E : ToInt32 (m * 2 ^ 32) = 0).
  { unfold ToInt32. rewrite Z.mod_mul by lia. reflexivity. }
  rewrite E, Z.land_0_l. reflexivity.
Qed.

(** X9. For a leaf count [n] below [2^32], [newTreeByLeafCount] returns a
    subtree exactly when [n] is a power of two, and throws otherwise;
    zero and negative counts are always refused. *)
Theorem newTreeByLeafCount_accepts_powers_of_two :
  forall (sdk : Sdk) (n : Z),
    n < 2 ^ 32 ->
    ((exists t, Subtree.newTreeByLeafCount n = Returns t) <->
     (exists k, 0 <= k /\ n = 2 ^ k)) /\
    (~ (exists k, 0 <= k /\ n = 2 ^ k) ->
     Subtree.newTreeByLeafCount n =
       Throws {| message := "numberOfLeaves must be a power of two" |}).
Proof.
  intros sdk n Hn. unfold Subtree.newTreeByLeafCount.
  destruct (Z_lt_le_dec 0 n) as [Hpos | Hneg].
  - pose proof (isPowerOfTwo_spec n (conj Hpos Hn)) as S.
    destruct (isPowerOfTwo n); cbn [negb].
    + split; [| intros H; exfalso; apply H; now apply S].
      split; [intros _; now apply S | intros _; eexists; reflexivity].
    + split; [| reflexivity].
      split; [intros (t & H); discriminate H |].
      intros H. apply S in H. discriminate H.
  - rewrite (isPowerOfTwo_nonpositive n Hneg). cbn [negb].
    split; [| reflexivity].
    split; [intros (t & H); discriminate H |].
    intros (k & Hk & E). exfalso.
    assert (0 < 2 ^ k) by (apply Z.pow_pos_nonneg; lia). lia.
Qed.

Lemma newTreeByLeafCount_accepts_powers_of_two_witness :
  exists t, @Subtree.newTreeByLeafCount example_sdk 16 = Returns t.
Proof.
  apply (proj1 (newTreeByLeafCount_accepts_powers_of_two example_sdk 16 eq_refl)).
  exists 4. split; [lia | reflexivity].
Defined.

(** X10. The power-of-two test works on 32 bits: every positive multiple
    of [2^32] passes it, so [newTreeByLeafCount] accepts such a leaf
    count whether or not it is a power of two. *)
Theorem newTreeByLeafCount_accepts_multiples_of_2_32 :
  forall (sdk : Sdk) (m : Z),
    0 < m ->
    Subtree.newTreeByLeafCount (m * 2 ^ 32) =
      Returns (Subtree.constructor (Levels (ceil_log2 (m * 2 ^ 32)))).
Proof.
  intros sdk m Hm. unfold Subtree.newTreeByLeafCount.
  now rewrite (isPowerOfTwo_multiple m Hm).
Qed.

Lemma newTreeByLeafCount_accepts_multiples_of_2_32_witness :
  exists t, @Subtree.newTreeByLeafCount example_sdk (3 * 2 ^ 32) = Returns t.
Proof.
  eexists.
  exact (newTreeByLeafCount_accepts_multiples_of_2_32 example_sdk 3 eq_refl).
Defined.

Lemma arraysEqual_loop_eq : forall a b,
  List.length a = List.length b -> (arraysEqual_loop a b = true <-> a = b).
Proof.
  induction a as [| x a IH]; intros [| y b] L; try discriminate L.
  - split; reflexivity.
  - cbn [arraysEqual_loop]. destruct (Z.eqb_spec x y) as [-> | Hne]; cbn [negb].
    + injection L as L. rewrite (IH b L). split; congruence.
    + split; [discriminate | congruence].
Qed.

Lemma arraysEqual_spec (a b : list Z) : arraysEqual a b = true <-> a = b.
Proof.
  unfold arraysEqual.
  destruct (Nat.eqb_spec (List.length a) (List.length b)) as [L | L]; cbn [negb].
  - now apply arraysEqual_loop_eq.
  - split; [discriminate | intros ->; congruence].
Qed.

(** X11. [arraysEqual] decides equality of number arrays: it answers
    true exactly for two arrays of the same length with the same
    elements, and false exactly for two arrays that differ in length or
    in some element. *)
Theorem arraysEqual_iff :
  forall a b : list Z,
    (arraysEqual a b = true <-> a = b) /\
    (arraysEqual a b = false <-> a <> b).
Proof.
  intros a b. split; [apply arraysEqual_spec |].
  destruct (arraysEqual a b) eqn:E.
  - apply arraysEqual_spec in E. split; [discriminate | congruence].
  - split; [| reflexivity]. intros _ H. apply arraysEqual_spec in H. congruence.
Qed.

(** ** Invariants of a subtree built by its operations *)

Lemma apply_ops_invariant {sdk : Sdk} (ok : Subtree.Op -> bool)
    (P : Subtree.t -> Prop) :
  (forall op t, ok op = true -> P t -> P (Subtree.apply_op op t)) ->
  forall ops t, forallb ok ops = true -> P t -> P (Subtree.apply_ops ops t).
Proof.
  intros Hop. induction ops as [| op ops IH]; intros t Hok H; [exact H |].
  cbn [forallb] in Hok. apply andb_prop in Hok. destruct Hok as [Hok Hrest].
  cbn [Subtree.apply_ops]. apply IH; [exact Hrest |]. now apply Hop.
Qed.

Lemma serialize_state {sdk : Sdk} t :
  snd (Subtree.serialize t) = snd (Subtree.getRootHash t).
Proof.
  unfold Subtree.serialize. destruct (Subtree.getRootHash t). reflexivity.
Qed.

Lemma getRootHash_state {sdk : Sdk} t :
  exists r, snd (Subtree.getRootHash t) = Subtree.set_rootHash r t /\
            (r = Subtree.rootHash t \/
             exists first rest,
               Subtree.nodes t = first :: rest /\
               r = Some (sha256 (SubtreeNode.hash first))).
Proof.
  unfold Subtree.getRootHash. destruct t as [h f s fh ns c [r |] ts idx]; cbn.
  - exists (Some r). split; [reflexivity | now left].
  - destruct ns as [| first rest]; cbn.
    + exists None. split; [reflexivity | now left].
    + eexists. split; [reflexivity |]. right. eauto.
Qed.

Lemma arraysEqual_false a b : arraysEqual a b = false -> a <> b.
Proof.
  intros H E. apply arraysEqual_spec in E. congruence.
Qed.

Lemma apply_op_node_change {sdk : Sdk} op t :
  Subtree.incremental op = true ->
  node_change t (Subtree.apply_op op t) /\
  Subtree.treeSize (Subtree.apply_op op t) = Subtree.treeSize t /\
  Subtree.height (Subtree.apply_op op t) = Subtree.height t.
Proof.
  intros Hop.
  destruct op as [hash fee size | node | | hash | index | hash | | | bytes];
    cbn [Subtree.apply_op]; try discriminate Hop.
  - unfold Subtree.addNode.
    destruct (Z.of_nat (List.length (Subtree.nodes t)) + 1 >? Subtree.treeSize t)
      eqn:Hfull; [split; [now apply nodes_kept | split; reflexivity] |].
    destruct (arraysEqual hash COINBASE_PLACEHOLDER) eqn:Hcb;
      [split; [now apply nodes_kept | split; reflexivity] |].
    split; [| split; reflexivity].
    eapply node_pushed; try reflexivity.
    + rewrite Z.gtb_ltb in Hfull. apply Z.ltb_ge in Hfull. lia.
    + exact (arraysEqual_false _ _ Hcb).
  - unfold Subtree.addSubtreeNode.
    destruct (Z.of_nat (List.length (Subtree.nodes t)) + 1 >? Subtree.treeSize t)
      eqn:Hfull; [split; [now apply nodes_kept | split; reflexivity] |].
    destruct (arraysEqual (SubtreeNode.hash node) COINBASE_PLACEHOLDER) eqn:Hcb;
      [split; [now apply nodes_kept | split; reflexivity] |].
    split; [| split; reflexivity].
    eapply node_pushed; try reflexivity.
    + rewrite Z.gtb_ltb in Hfull. apply Z.ltb_ge in Hfull. lia.
    + exact (arraysEqual_false _ _ Hcb).
  - unfold Subtree.addCoinbaseNode.
    destruct (Subtree.nodes t) as [| n ns] eqn:Hn; cbn.
    + split; [| split; reflexivity].
      apply coinbase_pushed; cbn; try reflexivity; try assumption;
        now rewrite Hn.
    + split; [now apply nodes_kept | split; reflexivity].
  - unfold Subtree.addConflictingNode.
    destruct (negb _); [split; [now apply nodes_kept | split; reflexivity] |].
    destruct (existsb _ (Subtree.conflictingNodes t));
      (split; [now apply nodes_kept | split; reflexivity]).
  - unfold Subtree.removeNodeAtIndex.
    destruct (index >=? Z.of_nat (List.length (Subtree.nodes t)));
      [split; [now apply nodes_kept | split; reflexivity] |].
    destruct (index <? 0);
      [split; [now apply nodes_kept | split; reflexivity] |].
    destruct (nth_error (Subtree.nodes t) (Z.to_nat index)) as [node |] eqn:Hnth;
      [| split; [now apply nodes_kept | split; reflexivity]].
    split; [| split; reflexivity].
    eapply node_removed; try reflexivity. exact Hnth.
  - split; [now apply nodes_kept | split; reflexivity].
  - destruct (getRootHash_state t) as (r & -> & _).
    split; [now apply nodes_kept | split; reflexivity].
  - rewrite serialize_state. destruct (getRootHash_state t) as (r & -> & _).
    split; [now apply nodes_kept | split; reflexivity].
Qed.

Lemma length_remove_at {A} (l : list A) i x :
  nth_error l i = Some x ->
  List.length (firstn i l ++ skipn (i + 1) l) = (List.length l - 1)%nat.
Proof.
  intros H. assert (i < List.length l)%nat by (apply nth_error_Some; congruence).
  rewrite length_app, length_firstn, length_skipn. lia.
Qed.

(** X12. A subtree made by [newTree(h)] and any sequence of the
    operations that work on its contents (every call that can change it
    other than [deserialize]) keeps its height and its capacity [2^h],
    never holds more nodes than that, and refuses [addNode] as full
    exactly when [isComplete] answers true. *)
Theorem subtree_never_exceeds_capacity :
  forall (sdk : Sdk) (h : Z) (ops : list Subtree.Op)
         (hash : list Z) (fee size : Z),
    0 <= h <= 1023 ->
    forallb Subtree.incremental ops = true ->
    let t := Subtree.apply_ops ops (Subtree.constructor (Levels h)) in
    Subtree.height t = Levels h /\
    Subtree.size t = 2 ^ h /\
    Subtree.length t <= Subtree.size t /\
    (Subtree.isComplete t = true <->
     Subtree.addNode hash fee size t = Throws {| message := "subtree is full" |}).
Proof.
  intros sdk h ops hash fee size Hh Hops t.
  assert (Hinv : Subtree.height t = Levels h /\ Subtree.treeSize t = 2 ^ h /\
                 Z.of_nat (List.length (Subtree.nodes t)) <= Subtree.treeSize t).
  { subst t. apply (apply_ops_invariant Subtree.incremental); [| exact Hops |].
    - intros op t Hop (H1 & H2 & H3).
      destruct (apply_op_node_change op t Hop) as (Hc & Hts & Hht).
      rewrite Hts, Hht. repeat split; try assumption.
      destruct Hc as [Hn _ _ | node Hn _ _ Hroom _ | _ Hn _ _ | i node Hnth Hn _ _];
        rewrite Hn.
      + exact H3.
      + rewrite length_app. cbn [List.length]. lia.
      + cbn [List.length].
        assert (0 < 2 ^ h) by (apply Z.pow_pos_nonneg; lia). lia.
      + rewrite (length_remove_at _ _ _ Hnth). lia.
    - cbn. repeat split.
      assert (0 < 2 ^ h) by (apply Z.pow_pos_nonneg; lia). lia. }
  destruct Hinv as (H1 & H2 & H3).
  unfold Subtree.size, Subtree.length, Subtree.isComplete, Subtree.addNode.
  repeat split; try assumption.
  - intros Hc. apply Z.eqb_eq in Hc.
    replace (Z.of_nat (List.length (Subtree.nodes t)) + 1 >? Subtree.treeSize t)
      with true by (symmetry; rewrite Z.gtb_ltb; apply Z.ltb_lt; lia).
    reflexivity.
  - intros Hfull. apply Z.eqb_eq.
    destruct (Z.of_nat (List.length (Subtree.nodes t)) + 1 >? Subtree.treeSize t)
      eqn:E.
    + rewrite Z.gtb_ltb in E. apply Z.ltb_lt in E. lia.
    + destruct (arraysEqual hash COINBASE_PLACEHOLDER); discriminate Hfull.
Qed.

Lemma subtree_never_exceeds_capacity_witness :
  Subtree.length example_subtree <= Subtree.size example_subtree.
Proof.
  exact (proj1 (proj2 (proj2
           (subtree_never_exceeds_capacity example_sdk 3
              [Subtree.AddNode hash1 1000 250; Subtree.AddNode hash2 2000 500;
               Subtree.AddNode hash3 1500 300; Subtree.AddConflictingNode hash2]
              hash1 0 0 ltac:(lia) eq_refl)))).
Defined.

Lemma total_fee_app a b : total_fee (a ++ b) = total_fee a + total_fee b.
Proof.
  unfold total_fee. induction a as [| x a IH]; cbn; [reflexivity | rewrite IH; lia].
Qed.

Lemma total_size_app a b : total_size (a ++ b) = total_size a + total_size b.
Proof.
  unfold total_size. induction a as [| x a IH]; cbn; [reflexivity | rewrite IH; lia].
Qed.

Lemma split_at {A} (l : list A) i x :
  nth_error l i = Some x -> l = firstn i l ++ x :: skipn (i + 1) l.
Proof.
  revert i. induction l as [| y l IH]; intros [| i] H; try discriminate H.
  - cbn in *. congruence.
  - cbn in *. f_equal. now apply IH.
Qed.

Lemma totals_remove_at l i x :
  nth_error l i = Some x ->
  total_fee l = total_fee (firstn i l ++ skipn (i + 1) l) + SubtreeNode.fee x /\
  total_size l =
    total_size (firstn i l ++ skipn (i + 1) l) + SubtreeNode.sizeInBytes x.
Proof.
  intros H. pose proof (split_at _ _ _ H) as E.
  split.
  - rewrite E at 1. rewrite !total_fee_app.
    change (total_fee (x :: skipn (i + 1) l))
      with (SubtreeNode.fee x + total_fee (skipn (i + 1) l)). lia.
  - rewrite E at 1. rewrite !total_size_app.
    change (total_size (x :: skipn (i + 1) l))
      with (SubtreeNode.sizeInBytes x + total_size (skipn (i + 1) l)). lia.
Qed.

(** X13. In a subtree made by [newTree(h)] and any sequence of the
    operations that work on its contents (every call that can change it
    other than [deserialize]), [fees] is the sum of the fees of its nodes
    and [sizeInBytes] the sum of their sizes. *)
Theorem subtree_totals_match_nodes :
  forall (sdk : Sdk) (h : Z) (ops : list Subtree.Op),
    0 <= h ->
    forallb Subtree.incremental ops = true ->
    let t := Subtree.apply_ops ops (Subtree.constructor (Levels h)) in
    Subtree.fees t = total_fee (Subtree.nodes t) /\
    Subtree.sizeInBytes t = total_size (Subtree.nodes t).
Proof.
  intros sdk h ops _ Hops t. subst t.
  apply (apply_ops_invariant Subtree.incremental); [| exact Hops |].
  - intros op t Hop (Hf & Hs).
    destruct (apply_op_node_change op t Hop) as (Hc & _).
    destruct Hc as [Hn Hf' Hs' | node Hn Hf' Hs' _ _ | _ Hn' Hf' Hs'
                   | i node Hnth Hn Hf' Hs']; rewrite Hf', Hs'.
    + rewrite Hn. now split.
    + rewrite Hn, total_fee_app, total_size_app, Hf, Hs. cbn. split; lia.
    + rewrite Hn'. cbn. split; reflexivity.
    + rewrite Hn, Hf, Hs.
      destruct (totals_remove_at _ _ _ Hnth) as [Ef Es]. split; lia.
  - split; reflexivity.
Qed.

Lemma subtree_totals_match_nodes_witness :
  Subtree.fees example_subtree = total_fee (Subtree.nodes example_subtree).
Proof.
  exact (proj1 (subtree_totals_match_nodes example_sdk 3
                  [Subtree.AddNode hash1 1000 250; Subtree.AddNode hash2 2000 500;
                   Subtree.AddNode hash3 1500 300;
                   Subtree.AddConflictingNode hash2] ltac:(lia) eq_refl)).
Defined.

Lemma incl_remove_at {A} : forall (l : list A) i,
  incl (firstn i l ++ skipn (i + 1) l) l.
Proof.
  induction l as [| x l IH]; intros [| i]; cbn.
  - apply incl_refl.
  - apply incl_refl.
  - apply incl_tl, incl_refl.
  - apply incl_cons; [now left |]. apply incl_tl, IH.
Qed.

Lemma tl_remove_at {A} : forall (l : list A) i,
  incl (tl (firstn i l ++ skipn (i + 1) l)) (tl l).
Proof.
  intros [| x l] [| i]; cbn; try apply incl_refl.
  - destruct l; cbn; [apply incl_refl | apply incl_tl, incl_refl].
  - apply incl_remove_at.
Qed.

(** X14. In a subtree made by [newTree(h)] and any sequence of the
    operations that work on its contents (every call that can change it
    other than [deserialize]), the coinbase placeholder hash occurs at
    the first position only: no node after the first carries it. *)
Theorem placeholder_only_first :
  forall (sdk : Sdk) (h : Z) (ops : list Subtree.Op) (i : nat)
         (node : SubtreeNode.t),
    0 <= h ->
    forallb Subtree.incremental ops = true ->
    nth_error
      (Subtree.nodes (Subtree.apply_ops ops (Subtree.constructor (Levels h))))
      (S i) = Some node ->
    SubtreeNode.hash node <> COINBASE_PLACEHOLDER.
Proof.
  intros sdk h ops i node _ Hops Hnth.
  assert (Hinv : Forall (fun n => SubtreeNode.hash n <> COINBASE_PLACEHOLDER)
                   (tl (Subtree.nodes
                          (Subtree.apply_ops ops (Subtree.constructor (Levels h)))))).
  { apply (apply_ops_invariant Subtree.incremental) with
      (P := fun t => Forall (fun n => SubtreeNode.hash n <> COINBASE_PLACEHOLDER)
                       (tl (Subtree.nodes t))); [| exact Hops |].
    - intros op t Hop H. destruct (apply_op_node_change op t Hop) as (Hc & _).
      destruct Hc as [Hn _ _ | n Hn _ _ _ Hne | _ Hn _ _ | j n Hj Hn _ _];
        rewrite Hn.
      + exact H.
      + destruct (Subtree.nodes t) as [| x ns]; cbn in *; [constructor |].
        apply Forall_app. split; [exact H | now constructor].
      + constructor.
      + apply Forall_forall. intros x Hx.
        apply (proj1 (Forall_forall _ _) H). now apply (tl_remove_at _ j).
    - constructor. }
  destruct (Subtree.nodes (Subtree.apply_ops ops (Subtree.constructor (Levels h))))
    as [| x ns]; [discriminate Hnth |].
  cbn in Hnth, Hinv. apply (proj1 (Forall_forall _ _) Hinv).
  eapply nth_error_In. exact Hnth.
Qed.

Lemma placeholder_only_first_witness :
  SubtreeNode.hash
    {| SubtreeNode.hash := hash2; SubtreeNode.fee := 2000;
       SubtreeNode.sizeInBytes := 500 |} <> COINBASE_PLACEHOLDER.
Proof.
  refine (placeholder_only_first example_sdk 3
            [Subtree.AddNode hash1 1000 250; Subtree.AddNode hash2 2000 500;
             Subtree.AddNode hash3 1500 300; Subtree.AddConflictingNode hash2]
            0 _ ltac:(lia) eq_refl _).
  reflexivity.
Defined.

(** *** Conflicting nodes *)

Lemma existsb_arraysEqual_In (h : list Z) (l : list (list Z)) :
  existsb (fun x => arraysEqual x h) l = true <-> In h l.
Proof.
  rewrite existsb_exists. split.
  - intros (x & Hx & E). apply arraysEqual_spec in E. now subst.
  - intros H. exists h. split; [exact H | now apply arraysEqual_spec].
Qed.

Lemma existsb_node_hash (h : list Z) (ns : list SubtreeNode.t) :
  existsb (fun node => arraysEqual (SubtreeNode.hash node) h) ns = true <->
  exists node, In node ns /\ SubtreeNode.hash node = h.
Proof.
  rewrite existsb_exists. split.
  - intros (x & Hx & E). apply arraysEqual_spec in E. eauto.
  - intros (x & Hx & E). exists x. split; [exact Hx | now apply arraysEqual_spec].
Qed.

(** X15. [addConflictingNode] throws exactly when no node of the subtree
    carries the hash.  Otherwise the hash is afterwards in the
    conflicting list, nothing else of the subtree changes, and adding
    the same hash again changes nothing at all. *)
Theorem addConflictingNode_is_idempotent :
  forall (t : Subtree.t) (h : list Z),
    ((exists node, In node (Subtree.nodes t) /\ SubtreeNode.hash node = h) ->
     exists t',
       Subtree.addConflictingNode h t = Returns t' /\
       In h (Subtree.conflictingNodes t') /\
       Subtree.nodes t' = Subtree.nodes t /\
       Subtree.fees t' = Subtree.fees t /\
       Subtree.addConflictingNode h t' = Returns t') /\
    (~ (exists node, In node (Subtree.nodes t) /\ SubtreeNode.hash node = h) ->
     Subtree.addConflictingNode h t =
       Throws {| message := "conflicting node is not in the subtree" |}).
Proof.
  intros t h. unfold Subtree.addConflictingNode.
  pose proof (existsb_node_hash h (Subtree.nodes t)) as Hn.
  destruct (existsb (fun node => arraysEqual (SubtreeNode.hash node) h)
              (Subtree.nodes t)) eqn:En; cbn [negb].
  - split; [intros _ | intros H; exfalso; apply H; now apply Hn].
    pose proof (existsb_arraysEqual_In h (Subtree.conflictingNodes t)) as Hc.
    destruct (existsb (fun x => arraysEqual x h) (Subtree.conflictingNodes t))
      eqn:Ec.
    + exists t. rewrite En, Ec. cbn [negb].
      repeat split. now apply Hc.
    + eexists. split; [reflexivity |].
      cbn [Subtree.set_conflictingNodes Subtree.conflictingNodes Subtree.nodes
           Subtree.fees].
      rewrite En. cbn [negb].
      assert (Hin : In h (Subtree.conflictingNodes t ++ [h]))
        by (apply in_or_app; right; now left).
      rewrite (proj2 (existsb_arraysEqual_In h _) Hin).
      repeat split. exact Hin.
  - split; [| reflexivity].
    intros H. apply Hn in H. discriminate H.
Qed.

Lemma addConflictingNode_is_idempotent_witness :
  exists t',
    Subtree.addConflictingNode hash3 example_subtree = Returns t' /\
    In hash3 (Subtree.conflictingNodes t').
Proof.
  destruct (proj1 (addConflictingNode_is_idempotent example_subtree hash3))
    as (t' & E & Hin & _).
  - eexists. split; [right; right; left; reflexivity | reflexivity].
  - exists t'. split; assumption.
Defined.

Lemma apply_op_conflicting {sdk : Sdk} op t :
  Subtree.incremental op = true ->
  Subtree.conflictingNodes (Subtree.apply_op op t) = Subtree.conflictingNodes t \/
  exists h,
    Subtree.conflictingNodes (Subtree.apply_op op t)
      = Subtree.conflictingNodes t ++ [h] /\
    ~ In h (Subtree.conflictingNodes t).
Proof.
  intros Hop.
  destruct op as [hash fee size | node | | hash | index | hash | | | bytes];
    cbn [Subtree.apply_op]; try discriminate Hop.
  - unfold Subtree.addNode.
    destruct (_ >? _); [now left |]. destruct (arraysEqual _ _); now left.
  - unfold Subtree.addSubtreeNode.
    destruct (_ >? _); [now left |]. destruct (arraysEqual _ _); now left.
  - unfold Subtree.addCoinbaseNode. destruct (negb _); now left.
  - unfold Subtree.addConflictingNode. destruct (negb _); [now left |].
    destruct (existsb (fun x => arraysEqual x hash) (Subtree.conflictingNodes t))
      eqn:Ec; [now left | right].
    exists hash. split; [reflexivity |]. intros Hin.
    apply existsb_arraysEqual_In in Hin. congruence.
  - unfold Subtree.removeNodeAtIndex.
    destruct (_ >=? _); [now left |]. destruct (index <? 0); [now left |].
    destruct (nth_error _ _); now left.
  - now left.
  - destruct (getRootHash_state t) as (r & -> & _). now left.
  - rewrite serialize_state. destruct (getRootHash_state t) as (r & -> & _).
    now left.
Qed.

(** X16. In a subtree made by the constructor and any sequence of the
    operations that work on its contents (every call that can change it
    other than [deserialize]), no hash occurs twice in the conflicting
    list. *)
Theorem conflictingNodes_has_no_duplicates :
  forall (sdk : Sdk) (height : Height) (ops : list Subtree.Op),
    forallb Subtree.incremental ops = true ->
    NoDup (Subtree.conflictingNodes
             (Subtree.apply_ops ops (Subtree.constructor height))).
Proof.
  intros sdk height ops Hops.
  apply (apply_ops_invariant Subtree.incremental) with
    (P := fun t => NoDup (Subtree.conflictingNodes t)); [| exact Hops |].
  - intros op t Hop H.
    destruct (apply_op_conflicting op t Hop) as [-> | (x & -> & Hx)];
      [exact H |].
    apply NoDup_app; [exact H | repeat constructor; intros [] | ].
    intros y Hy [<- | []]. contradiction.
  - constructor.
Qed.

Lemma conflictingNodes_has_no_duplicates_witness :
  NoDup (Subtree.conflictingNodes
           (@Subtree.apply_ops example_sdk
              [Subtree.AddNode hash1 1000 250;
               Subtree.AddConflictingNode hash1;
               Subtree.AddConflictingNode hash1]
              (Subtree.constructor (Levels 3)))).
Proof.
  exact (conflictingNodes_has_no_duplicates example_sdk (Levels 3)
           [Subtree.AddNode hash1 1000 250; Subtree.AddConflictingNode hash1;
            Subtree.AddConflictingNode hash1] eq_refl).
Defined.

(** *** The root hash *)

Lemma apply_op_root_cache {sdk : Sdk} op t :
  Subtree.incremental op = true ->
  root_cache_ok t -> root_cache_ok (Subtree.apply_op op t).
Proof.
  unfold root_cache_ok. intros Hop H.
  destruct op as [hash fee size | node | | hash | index | hash | | | bytes];
    cbn [Subtree.apply_op]; try discriminate Hop.
  - unfold Subtree.addNode.
    destruct (_ >? _); [exact H |]. destruct (arraysEqual _ _); [exact H | exact I].
  - unfold Subtree.addSubtreeNode.
    destruct (_ >? _); [exact H |]. destruct (arraysEqual _ _); [exact H | exact I].
  - unfold Subtree.addCoinbaseNode. destruct (negb _); [exact H | exact I].
  - unfold Subtree.addConflictingNode. destruct (negb _); [exact H |].
    destruct (existsb _ (Subtree.conflictingNodes t)); exact H.
  - unfold Subtree.removeNodeAtIndex.
    destruct (_ >=? _); [exact H |]. destruct (index <? 0); [exact H |].
    destruct (nth_error _ _); [exact I | exact H].
  - exact H.
  - destruct (getRootHash_state t) as (r & -> & [-> | (first & rest & Hn & ->)]);
      cbn; [exact H | eauto].
  - rewrite serialize_state.
    destruct (getRootHash_state t) as (r & -> & [-> | (first & rest & Hn & ->)]);
      cbn; [exact H | eauto].
Qed.

(** X17. In a subtree made by the constructor and any sequence of the
    operations that work on its contents (every call that can change it
    other than [deserialize]), [getRootHash] answers [null] when there
    is no node and otherwise the SHA-256 of the first node's hash: the
    other nodes have no influence on it. *)
Theorem rootHash_is_hash_of_first_node :
  forall (sdk : Sdk) (height : Height) (ops : list Subtree.Op),
    forallb Subtree.incremental ops = true ->
    fst (Subtree.getRootHash
           (Subtree.apply_ops ops (Subtree.constructor height))) =
    match Subtree.nodes (Subtree.apply_ops ops (Subtree.constructor height)) with
    | [] => None
    | first :: _ => Some (sha256 (SubtreeNode.hash first))
    end.
Proof.
  intros sdk height ops Hops.
  assert (H : root_cache_ok (Subtree.apply_ops ops (Subtree.constructor height))).
  { apply (apply_ops_invariant Subtree.incremental);
      [apply apply_op_root_cache | exact Hops | exact I]. }
  unfold root_cache_ok in H. unfold Subtree.getRootHash.
  destruct (Subtree.rootHash _) as [r |].
  - destruct H as (first & rest & -> & ->). reflexivity.
  - destruct (Subtree.nodes _); reflexivity.
Qed.

Lemma rootHash_is_hash_of_first_node_witness :
  fst (@Subtree.getRootHash example_sdk example_subtree) =
  Some (@sha256 example_sdk hash1).
Proof.
  exact (rootHash_is_hash_of_first_node example_sdk (Levels 3)
           [Subtree.AddNode hash1 1000 250; Subtree.AddNode hash2 2000 500;
            Subtree.AddNode hash3 1500 300; Subtree.AddConflictingNode hash2]
           eq_refl).
Defined.

(** ** Serialization *)

Lemma le_bytes_length k : forall n, List.length (le_bytes k n) = k.
Proof. induction k as [| k IH]; intros n; cbn; [reflexivity | now rewrite IH]. Qed.

Lemma le_value_le_bytes k : forall n,
  le_value (le_bytes k n) = n mod 256 ^ Z.of_nat k.
Proof.
  induction k as [| k IH]; intros n.
  - cbn. now rewrite Z.mod_1_r.
  - cbn [le_bytes le_value]. rewrite IH.
    rewrite Nat2Z.inj_succ, Z.pow_succ_r by lia.
    rewrite Z.rem_mul_r; [reflexivity | lia | apply Z.pow_pos_nonneg; lia].
Qed.

Lemma firstn_exact {A} (a b : list A) n :
  List.length a = n -> firstn n (a ++ b) = a.
Proof.
  intros <-. rewrite firstn_app, Nat.sub_diag, firstn_all. cbn.
  apply app_nil_r.
Qed.

Lemma skipn_exact {A} (a b : list A) n :
  List.length a = n -> skipn n (a ++ b) = b.
Proof.
  intros <-. rewrite skipn_app, Nat.sub_diag, skipn_all. reflexivity.
Qed.

Lemma read_written_uint64 n rest :
  is_uint53 n -> readUInt64LEBn (writeUInt64LE n ++ rest) = (n, rest).
Proof.
  intros [H0 H1]. unfold readUInt64LEBn, writeUInt64LE.
  rewrite firstn_exact, skipn_exact by apply le_bytes_length.
  rewrite le_value_le_bytes. rewrite Z.mod_small; [reflexivity |].
  split; [exact H0 |]. eapply Z.lt_trans; [exact H1 | reflexivity].
Qed.

Lemma read_written_hash hash rest :
  List.length hash = 32%nat -> read 32 (hash ++ rest) = (hash, rest).
Proof.
  intros H. unfold read. now rewrite firstn_exact, skipn_exact.
Qed.

Lemma read_written_nodes {sdk : Sdk} : forall ns rest,
  Forall (fun n => is_hash (SubtreeNode.hash n) /\
                   is_uint53 (SubtreeNode.fee n) /\
                   is_uint53 (SubtreeNode.sizeInBytes n)) ns ->
  Subtree.read_nodes (List.length ns)
    (flat_map Subtree.serialize_node ns ++ rest) = (ns, rest).
Proof.
  induction ns as [| n ns IH]; intros rest H; [reflexivity |].
  inversion H as [| ? ? ((Hlen & _) & Hfee & Hsize) Hrest]; subst.
  cbn [List.length flat_map Subtree.read_nodes].
  unfold Subtree.serialize_node at 1. rewrite <- !app_assoc.
  rewrite (read_written_hash _ _ Hlen).
  rewrite (read_written_uint64 _ _ Hfee), (read_written_uint64 _ _ Hsize).
  rewrite (IH rest Hrest). destruct n; reflexivity.
Qed.

Lemma read_written_conflicting : forall (c : list (list Z)) rest,
  Forall is_hash c ->
  Subtree.read_conflicting (List.length c) (concat c ++ rest) = (c, rest).
Proof.
  induction c as [| h c IH]; intros rest H; [reflexivity |].
  inversion H as [| ? ? (Hlen & _) Hrest]; subst.
  cbn [List.length concat Subtree.read_conflicting]. rewrite <- app_assoc.
  rewrite (read_written_hash _ _ Hlen), (IH rest Hrest). reflexivity.
Qed.

Lemma written_root_length {sdk : Sdk} t :
  (forall x, List.length (sha256 x) = 32%nat) ->
  match Subtree.rootHash t with
  | Some r => List.length r = 32%nat
  | None => True
  end ->
  List.length (written_root t) = 32%nat.
Proof.
  intros Hsha Hr. unfold written_root, Subtree.getRootHash.
  destruct (Subtree.rootHash t) as [r |]; [exact Hr |].
  destruct (Subtree.nodes t); cbn; [reflexivity | apply Hsha].
Qed.

Lemma serialize_bytes {sdk : Sdk} t :
  fst (Subtree.serialize t) =
  written_root t ++
  writeUInt64LE (Subtree.fees t) ++
  writeUInt64LE (Subtree.sizeInBytes t) ++
  writeUInt64LE (Z.of_nat (List.length (Subtree.nodes t))) ++
  flat_map Subtree.serialize_node (Subtree.nodes t) ++
  writeUInt64LE (Z.of_nat (List.length (Subtree.conflictingNodes t))) ++
  concat (Subtree.conflictingNodes t).
Proof.
  unfold Subtree.serialize, written_root.
  destruct (getRootHash_state t) as (r & Hs & _).
  destruct (Subtree.getRootHash t) as [root t']. cbn [fst snd] in *. subst t'.
  reflexivity.
Qed.

Lemma fromBytes_serialize {sdk : Sdk} t :
  (forall x, List.length (sha256 x) = 32%nat) ->
  serializable t ->
  Subtree.fromBytes (fst (Subtree.serialize t)) =
  {| Subtree.height :=
       if Z.of_nat (List.length (Subtree.nodes t)) =? 0 then MinusInfinity
       else Levels (ceil_log2 (Z.of_nat (List.length (Subtree.nodes t))));
     Subtree.fees := Subtree.fees t;
     Subtree.sizeInBytes := Subtree.sizeInBytes t;
     Subtree.feeHash := repeat 0 32;
     Subtree.nodes := Subtree.nodes t;
     Subtree.conflictingNodes := Subtree.conflictingNodes t;
     Subtree.rootHash := Some (written_root t);
     Subtree.treeSize := Z.of_nat (List.length (Subtree.nodes t));
     Subtree.nodeIndex := None |}.
Proof.
  intros Hsha (Hf & Hs & Hn & Hc & Hnodes & Hconf & Hroot).
  rewrite serialize_bytes. unfold Subtree.fromBytes, Subtree.deserialize.
  rewrite (read_written_hash _ _ (written_root_length t Hsha Hroot)).
  rewrite (read_written_uint64 _ _ Hf), (read_written_uint64 _ _ Hs).
  rewrite (read_written_uint64 _ _ Hn), Nat2Z.id.
  rewrite (read_written_nodes _ _ Hnodes).
  rewrite <- (app_nil_r (concat (Subtree.conflictingNodes t))).
  rewrite (read_written_uint64 _ _ Hc), Nat2Z.id.
  rewrite (read_written_conflicting _ _ Hconf). reflexivity.
Qed.

Lemma example_sha256_length :
  forall x, List.length (@sha256 example_sdk x) = 32%nat.
Proof.
  intros x. cbv [sha256 example_sdk].
  rewrite length_firstn, length_app, repeat_length. lia.
Qed.

Lemma repeat_is_hash b : is_byte b -> is_hash (repeat b 32).
Proof.
  intros H. split; [apply repeat_length |].
  apply Forall_forall. intros x Hx. apply repeat_spec in Hx. now subst.
Qed.

Lemma small_is_uint53 n : 0 <= n < 1000000 -> is_uint53 n.
Proof.
  intros H. unfold is_uint53.
  change (2 ^ 53) with 9007199254740992. lia.
Qed.

Lemma example_subtree_serializable : serializable example_subtree.
Proof.
  assert (E : example_subtree =
    {| Subtree.height := Levels 3; Subtree.fees := 4500;
       Subtree.sizeInBytes := 1050; Subtree.feeHash := repeat 0 32;
       Subtree.nodes :=
         [{| SubtreeNode.hash := hash1; SubtreeNode.fee := 1000;
             SubtreeNode.sizeInBytes := 250 |};
          {| SubtreeNode.hash := hash2; SubtreeNode.fee := 2000;
             SubtreeNode.sizeInBytes := 500 |};
          {| SubtreeNode.hash := hash3; SubtreeNode.fee := 1500;
             SubtreeNode.sizeInBytes := 300 |}];
       Subtree.conflictingNodes := [hash2];
       Subtree.rootHash := None; Subtree.treeSize := 8;
       Subtree.nodeIndex := None |}) by (vm_compute; reflexivity).
  rewrite E. unfold serializable.
  cbn [Subtree.fees Subtree.sizeInBytes Subtree.nodes Subtree.conflictingNodes
       Subtree.rootHash List.length SubtreeNode.hash SubtreeNode.fee
       SubtreeNode.sizeInBytes].
  assert (H1 : is_hash hash1) by (apply repeat_is_hash; unfold is_byte; lia).
  assert (H2 : is_hash hash2) by (apply repeat_is_hash; unfold is_byte; lia).
  assert (H3 : is_hash hash3) by (apply repeat_is_hash; unfold is_byte; lia).
  split; [apply small_is_uint53; lia |].
  split; [apply small_is_uint53; lia |].
  split; [apply small_is_uint53; cbn; lia |].
  split; [apply small_is_uint53; cbn; lia |].
  split.
  { constructor; [split; [exact H1 | split; apply small_is_uint53; cbn; lia] |].
    constructor; [split; [exact H2 | split; apply small_is_uint53; cbn; lia] |].
    constructor; [split; [exact H3 | split; apply small_is_uint53; cbn; lia] |].
    constructor. }
  split; [| exact I].
  constructor; [exact H2 | constructor].
Qed.

(** X18. Reading back what [serialize] wrote restores the subtree's
    nodes, conflicting nodes, fee total and size total, and the root
    hash that was written, provided every hash has 32 bytes and every
    amount and count is below [2^53]. *)
Theorem serialize_then_fromBytes_restores :
  forall (sdk : Sdk) (t : Subtree.t),
    (forall x, List.length (sha256 x) = 32%nat) ->
    serializable t ->
    let t' := Subtree.fromBytes (fst (Subtree.serialize t)) in
    Subtree.nodes t' = Subtree.nodes t /\
    Subtree.conflictingNodes t' = Subtree.conflictingNodes t /\
    Subtree.fees t' = Subtree.fees t /\
    Subtree.sizeInBytes t' = Subtree.sizeInBytes t /\
    Subtree.rootHash t' = Some (written_root t) /\
    Subtree.length t' = Subtree.length t.
Proof.
  intros sdk t Hsha Hser t'. subst t'.
  rewrite (fromBytes_serialize t Hsha Hser). repeat split.
Qed.

Lemma serialize_then_fromBytes_restores_witness :
  Subtree.nodes
    (@Subtree.fromBytes example_sdk
       (fst (@Subtree.serialize example_sdk example_subtree)))
  = Subtree.nodes example_subtree.
Proof.
  exact (proj1 (serialize_then_fromBytes_restores example_sdk example_subtree
                  example_sha256_length example_subtree_serializable)).
Defined.

(** X19. A subtree read back from its serialization has no room left: its
    capacity is the number of its nodes, whatever the capacity of the
    original was, so it is complete and [addNode] on it always throws
    [subtree is full]. *)
Theorem deserialized_subtree_is_full :
  forall (sdk : Sdk) (t : Subtree.t) (hash : list Z) (fee size : Z),
    (forall x, List.length (sha256 x) = 32%nat) ->
    serializable t ->
    let t' := Subtree.fromBytes (fst (Subtree.serialize t)) in
    Subtree.size t' = Subtree.length t /\
    Subtree.isComplete t' = true /\
    Subtree.addNode hash fee size t' = Throws {| message := "subtree is full" |}.
Proof.
  intros sdk t hash fee size Hsha Hser t'. subst t'.
  rewrite (fromBytes_serialize t Hsha Hser).
  unfold Subtree.size, Subtree.length, Subtree.isComplete, Subtree.addNode.
  cbn [Subtree.treeSize Subtree.nodes].
  split; [reflexivity |]. split; [apply Z.eqb_refl |].
  replace (_ >? _) with true; [reflexivity |].
  symmetry. rewrite Z.gtb_ltb. apply Z.ltb_lt. lia.
Qed.

Lemma deserialized_subtree_is_full_witness :
  Subtree.isComplete example_subtree = false /\
  Subtree.isComplete
    (@Subtree.fromBytes example_sdk
       (fst (@Subtree.serialize example_sdk example_subtree))) = true.
Proof.
  split; [reflexivity |].
  exact (proj1 (proj2 (deserialized_subtree_is_full example_sdk example_subtree
                         hash1 0 0 example_sha256_length
                         example_subtree_serializable))).
Defined.

Lemma flat_map_serialize_node_length {sdk : Sdk} : forall ns,
  Forall (fun n => List.length (SubtreeNode.hash n) = 32%nat) ns ->
  List.length (flat_map Subtree.serialize_node ns) = (48 * List.length ns)%nat.
Proof.
  induction ns as [| n ns IH]; intros H; [reflexivity |].
  inversion H as [| ? ? Hlen Hrest]; subst.
  cbn [flat_map List.length]. rewrite length_app, (IH Hrest).
  unfold Subtree.serialize_node, writeUInt64LE.
  rewrite !length_app, !le_bytes_length, Hlen. lia.
Qed.

Lemma concat_hashes_length : forall c : list (list Z),
  Forall (fun h => List.length h = 32%nat) c ->
  List.length (concat c) = (32 * List.length c)%nat.
Proof.
  induction c as [| h c IH]; intros H; [reflexivity |].
  inversion H as [| ? ? Hlen Hrest]; subst.
  cbn [concat List.length]. rewrite length_app, (IH Hrest), Hlen. lia.
Qed.

(** X20. The serialization of a serializable subtree with [n] nodes and
    [c] conflicting nodes has [64 + 48 n + 32 c] bytes. *)
Theorem serialized_length :
  forall (sdk : Sdk) (t : Subtree.t),
    (forall x, List.length (sha256 x) = 32%nat) ->
    serializable t ->
    List.length (fst (Subtree.serialize t)) =
      (64 + 48 * List.length (Subtree.nodes t)
       + 32 * List.length (Subtree.conflictingNodes t))%nat.
Proof.
  intros sdk t Hsha (_ & _ & _ & _ & Hn & Hc & Hr). rewrite serialize_bytes.
  rewrite !length_app, (written_root_length t Hsha Hr).
  unfold writeUInt64LE. rewrite !le_bytes_length.
  rewrite flat_map_serialize_node_length, concat_hashes_length; [lia | |].
  - eapply Forall_impl; [| exact Hc]. intros h [Hlen _]. exact Hlen.
  - eapply Forall_impl; [| exact Hn]. intros n [[Hlen _] _]. exact Hlen.
Qed.

Lemma serialized_length_witness :
  List.length (fst (@Subtree.serialize example_sdk example_subtree)) = 240%nat.
Proof.
  exact (serialized_length example_sdk example_subtree
           example_sha256_length example_subtree_serializable).
Defined.

(** ** The node index *)

Lemma JsMap_get_set {V} (k k' : string) (v : V) (m : JsMap.t V) :
  JsMap.get k' (JsMap.set k v m) =
  if String.eqb k' k then Some v else JsMap.get k' m.
Proof.
  induction m as [| [k0 v0] r IH]; cbn [JsMap.set JsMap.get].
  - reflexivity.
  - destruct (String.eqb k k0) eqn:E; cbn [JsMap.get].
    + apply String.eqb_eq in E. subst k0.
      destruct (String.eqb k' k); reflexivity.
    + destruct (String.eqb k' k0) eqn:E2.
      * apply String.eqb_eq in E2. subst k0.
        rewrite String.eqb_sym, E. reflexivity.
      * exact IH.
Qed.

Lemma index_ok_empty {sdk : Sdk} : index_ok JsMap.empty [].
Proof. intros key. cbn. intros n []. Qed.

Lemma index_ok_push {sdk : Sdk} m ns node :
  index_ok m ns ->
  index_ok (JsMap.set (toHex (SubtreeNode.hash node))
              (Z.of_nat (List.length (ns ++ [node])) - 1) m) (ns ++ [node]).
Proof.
  intros H key. rewrite JsMap_get_set.
  destruct (String.eqb key (toHex (SubtreeNode.hash node))) eqn:E.
  - apply String.eqb_eq in E. split; [rewrite length_app; cbn; lia |].
    exists node. split; [| now symmetry].
    replace (Z.to_nat _) with (List.length ns)
      by (rewrite length_app; cbn; lia).
    rewrite nth_error_app2 by lia. now rewrite Nat.sub_diag.
  - specialize (H key). destruct (JsMap.get key m) as [i |].
    + destruct H as [Hi [n [Hn Hk]]]. split; [exact Hi |].
      exists n. split; [| exact Hk].
      rewrite nth_error_app1; [exact Hn |]. apply nth_error_Some. congruence.
    + intros n Hin. apply in_app_or in Hin. destruct Hin as [Hin | [<- | []]].
      * now apply H.
      * intros Heq. apply String.eqb_neq in E. congruence.
Qed.

Lemma index_nodes_ok {sdk : Sdk} : forall ns pre m,
  index_ok m pre ->
  index_ok (Subtree.index_nodes (Z.of_nat (List.length pre)) ns m) (pre ++ ns).
Proof.
  induction ns as [| node rest IH]; intros pre m H; cbn [Subtree.index_nodes].
  - now rewrite app_nil_r.
  - replace (pre ++ node :: rest) with ((pre ++ [node]) ++ rest)
      by (now rewrite <- app_assoc).
    replace (Z.of_nat (List.length pre) + 1)
      with (Z.of_nat (List.length (pre ++ [node])))
      by (rewrite length_app; cbn; lia).
    apply IH.
    replace (Z.of_nat (List.length pre))
      with (Z.of_nat (List.length (pre ++ [node])) - 1)
      by (rewrite length_app; cbn; lia).
    now apply index_ok_push.
Qed.

Lemma nodeIndexLookup_index {sdk : Sdk} hash t :
  index_inv t ->
  exists index,
    Subtree.nodeIndex (snd (Subtree.nodeIndexLookup hash t)) = Some index /\
    index_ok index (Subtree.nodes t) /\
    Subtree.nodes (snd (Subtree.nodeIndexLookup hash t)) = Subtree.nodes t /\
    fst (Subtree.nodeIndexLookup hash t) =
      match JsMap.get (toHex hash) index with Some i => i | None => -1 end.
Proof.
  unfold index_inv, Subtree.nodeIndexLookup. intros H.
  destruct (Subtree.nodeIndex t) as [m |]; cbn [fst snd Subtree.set_nodeIndex
    Subtree.nodeIndex Subtree.nodes].
  - exists m. repeat split. exact H.
  - eexists. split; [reflexivity |]. split; [| split; reflexivity].
    exact (index_nodes_ok (Subtree.nodes t) [] JsMap.empty index_ok_empty).
Qed.

Lemma apply_op_index {sdk : Sdk} op t :
  Subtree.grows op = true -> index_inv t -> index_inv (Subtree.apply_op op t).
Proof.
  intros Hg H.
  destruct op as [hash fee size | node | | hash | index | hash | | | bytes];
    cbn [Subtree.apply_op]; try discriminate Hg.
  - unfold Subtree.addNode.
    destruct (_ >? _); [exact H |].
    destruct (arraysEqual _ _); [exact H |].
    unfold index_inv in *. cbn [Subtree.after Subtree.push_node
      Subtree.nodeIndex Subtree.nodes].
    destruct (Subtree.nodeIndex t); [| exact I].
    exact (index_ok_push _ _ _ H).
  - unfold Subtree.addSubtreeNode.
    destruct (_ >? _); [exact H |].
    destruct (arraysEqual _ _); [exact H |].
    unfold index_inv in *. cbn [Subtree.after Subtree.push_node
      Subtree.nodeIndex Subtree.nodes].
    destruct (Subtree.nodeIndex t); [| exact I].
    exact (index_ok_push _ _ _ H).
  - unfold Subtree.addConflictingNode.
    destruct (negb _); [exact H |].
    destruct (existsb _ (Subtree.conflictingNodes t)); exact H.
  - destruct (nodeIndexLookup_index hash t H) as [m [Hm [Hok [Hn _]]]].
    unfold index_inv. now rewrite Hm, Hn.
  - destruct (getRootHash_state t) as [r [-> _]]. exact H.
  - rewrite serialize_state.
    destruct (getRootHash_state t) as [r [-> _]]. exact H.
Qed.

Lemma apply_ops_index {sdk : Sdk} : forall ops t,
  forallb Subtree.grows ops = true ->
  index_inv t -> index_inv (Subtree.apply_ops ops t).
Proof.
  induction ops as [| op ops IH]; intros t Hg H; [exact H |].
  cbn [forallb] in Hg. apply andb_prop in Hg as [Hop Hrest].
  cbn [Subtree.apply_ops]. apply IH; [exact Hrest |].
  now apply apply_op_index.
Qed.

(** X21. As long as a subtree made by the constructor has only grown
    (no node was removed, no coinbase node was added and nothing was
    read in by [deserialize]), [hasNode]
    answers whether some node's hash has the hex form of the given hash,
    and [getNode] returns such a node when there is one and nothing
    otherwise, whether the index was built before or after the nodes
    were added. *)
Theorem node_lookup_is_exact_while_growing :
  forall (sdk : Sdk) (height : Height) (ops : list Subtree.Op) (hash : list Z),
    forallb Subtree.grows ops = true ->
    let t := Subtree.apply_ops ops (Subtree.constructor height) in
    fst (Subtree.hasNode hash t) = key_present hash (Subtree.nodes t) /\
    match fst (Subtree.getNode hash t) with
    | Some n =>
        In n (Subtree.nodes t) /\
        toHex (SubtreeNode.hash n) = toHex hash
    | None => key_present hash (Subtree.nodes t) = false
    end.
Proof.
  intros sdk height ops hash Hg t.
  assert (Hinv : index_inv t) by (apply apply_ops_index; [exact Hg | exact I]).
  destruct (nodeIndexLookup_index hash t Hinv) as [index [_ [Hok [Hn Hfst]]]].
  unfold Subtree.hasNode, Subtree.getNode.
  destruct (Subtree.nodeIndexLookup hash t) as [i t'].
  cbn [fst snd] in *. subst i. specialize (Hok (toHex hash)).
  destruct (JsMap.get (toHex hash) index) as [j |].
  - destruct Hok as [Hj [n [Hnth Hk]]].
    assert (E1 : (j =? -1) = false) by (apply Z.eqb_neq; lia).
    assert (E2 : (j <? 0) = false) by (apply Z.ltb_ge; lia).
    rewrite E1, E2, Hn, Hnth. cbn [negb].
    assert (Hin : In n (Subtree.nodes t)) by (eapply nth_error_In; eauto).
    split; [| split; assumption].
    symmetry. apply existsb_exists. exists n.
    split; [exact Hin | now apply String.eqb_eq].
  - assert (K : key_present hash (Subtree.nodes t) = false).
    { destruct (key_present hash (Subtree.nodes t)) eqn:K; [| reflexivity].
      apply existsb_exists in K. destruct K as [n [Hin He]].
      apply String.eqb_eq in He. exfalso. exact (Hok n Hin He). }
    cbn. split; [now symmetry | exact K].
Qed.

Lemma node_lookup_is_exact_while_growing_witness :
  fst (@Subtree.hasNode example_sdk hash2 example_subtree) =
  @key_present example_sdk hash2 (Subtree.nodes example_subtree).
Proof.
  exact (proj1 (node_lookup_is_exact_while_growing example_sdk (Levels 3)
    [Subtree.AddNode hash1 1000 250; Subtree.AddNode hash2 2000 500;
     Subtree.AddNode hash3 1500 300; Subtree.AddConflictingNode hash2]
    hash2 eq_refl)).
Defined.

Lemma addNode_room {sdk : Sdk} hash fee size t :
  Z.of_nat (List.length (Subtree.nodes t)) + 1 <= Subtree.treeSize t ->
  arraysEqual hash COINBASE_PLACEHOLDER = false ->
  Subtree.addNode hash fee size t =
  Returns (Subtree.push_node
             {| SubtreeNode.hash := hash; SubtreeNode.fee := fee;
                SubtreeNode.sizeInBytes := size |} t).
Proof.
  intros Hroom Hcb. unfold Subtree.addNode. rewrite Hcb.
  replace (_ >? _) with false; [reflexivity |].
  symmetry. rewrite Z.gtb_ltb. apply Z.ltb_ge. lia.
Qed.

(** X22. Removal does not renumber the index.  With two nodes of
    different hex forms in a subtree whose index has been built, removing
    the first leaves the second recorded at position 1 although it is
    now at position 0: [hasNode] still answers [true] for it, and
    [getNode] reads past the end of the node list and returns nothing. *)
Theorem removal_leaves_index_stale :
  forall (sdk : Sdk) (h : Z) (a b x : list Z) (fa sa fb sb : Z),
    1 <= h ->
    arraysEqual a COINBASE_PLACEHOLDER = false ->
    arraysEqual b COINBASE_PLACEHOLDER = false ->
    toHex a <> toHex b ->
    let t := Subtree.apply_ops
               [Subtree.AddNode a fa sa; Subtree.AddNode b fb sb;
                Subtree.NodeIndexLookup x; Subtree.RemoveNodeAtIndex 0]
               (Subtree.constructor (Levels h)) in
    Subtree.nodes t =
      [{| SubtreeNode.hash := b; SubtreeNode.fee := fb;
          SubtreeNode.sizeInBytes := sb |}] /\
    fst (Subtree.hasNode b t) = true /\
    fst (Subtree.getNode b t) = None.
Proof.
  intros sdk h a b x fa sa fb sb Hh Ha Hb Hab t.
  assert (H2 : 2 <= 2 ^ h).
  { change 2 with (2 ^ 1) at 1. apply Z.pow_le_mono_r; lia. }
  assert (Eab : String.eqb (toHex b) (toHex a) = false)
    by (apply String.eqb_neq; congruence).
  subst t. cbn [Subtree.apply_ops Subtree.apply_op].
  rewrite (addNode_room a fa sa (Subtree.constructor (Levels h)));
    [| cbn -[Z.pow]; lia | exact Ha].
  cbn [Subtree.after].
  rewrite (addNode_room b fb sb _); [| cbn -[Z.pow]; lia | exact Hb].
  cbn [Subtree.after].
  unfold Subtree.hasNode, Subtree.getNode, Subtree.nodeIndexLookup,
    Subtree.removeNodeAtIndex, Subtree.push_node, Subtree.constructor.
  cbn -[Z.pow String.eqb].
  rewrite Eab.
  cbn -[Z.pow String.eqb].
  rewrite String.eqb_refl.
  cbn -[Z.pow String.eqb].
  rewrite String.eqb_refl.
  cbn -[Z.pow String.eqb].
  repeat split.
Qed.

Lemma removal_leaves_index_stale_witness :
  fst (@Subtree.hasNode example_sdk hash2
         (@Subtree.apply_ops example_sdk
            [Subtree.AddNode hash1 1000 250; Subtree.AddNode hash2 2000 500;
             Subtree.NodeIndexLookup hash3; Subtree.RemoveNodeAtIndex 0]
            (Subtree.constructor (Levels 3)))) = true.
Proof.
  refine (proj1 (proj2 (removal_leaves_index_stale example_sdk 3 hash1 hash2
    hash3 1000 250 2000 500 ltac:(lia) eq_refl eq_refl _))).
  vm_compute. discriminate.
Defined.

(** ** The hash map and the hash list of a subtree *)

Lemma exists_put {sdk : Sdk} hash hash' value m :
  SimpleTxMap.exists_ hash' (SimpleTxMap.put hash value m) =
  String.eqb (toHex hash') (toHex hash) || SimpleTxMap.exists_ hash' m.
Proof.
  unfold SimpleTxMap.exists_, SimpleTxMap.put, SimpleTxMap.hashToKey, JsMap.has.
  cbn [SimpleTxMap.map]. rewrite JsMap_get_set.
  destruct (String.eqb _ _); reflexivity.
Qed.

Lemma exists_getMap_loop {sdk : Sdk} hash : forall ns i m,
  SimpleTxMap.exists_ hash (Subtree.getMap_loop i ns m) =
  key_present hash ns || SimpleTxMap.exists_ hash m.
Proof.
  induction ns as [| node rest IH]; intros i m;
    cbn [Subtree.getMap_loop key_present existsb].
  - reflexivity.
  - fold (key_present hash rest). rewrite IH, exists_put.
    rewrite (String.eqb_sym (toHex hash)).
    destruct (String.eqb _ _), (key_present hash rest),
      (SimpleTxMap.exists_ hash m); reflexivity.
Qed.

(** X23. The map that [getMap] builds knows exactly the hashes of the
    subtree's nodes, up to their hex form, so the difference of a subtree
    with its own map is empty. *)
Theorem getMap_knows_exactly_the_nodes :
  forall (sdk : Sdk) (t : Subtree.t),
    (forall hash,
       SimpleTxMap.exists_ hash (Subtree.getMap t) =
       key_present hash (Subtree.nodes t)) /\
    Subtree.difference (Subtree.getMap t) t = [].
Proof.
  intros sdk t.
  assert (E : forall hash,
             SimpleTxMap.exists_ hash (Subtree.getMap t) =
             key_present hash (Subtree.nodes t)).
  { intros hash. unfold Subtree.getMap. rewrite exists_getMap_loop.
    apply orb_false_r. }
  split; [exact E |].
  unfold Subtree.difference.
  assert (P : forall l, incl l (Subtree.nodes t) ->
            filter (fun node =>
                      negb (SimpleTxMap.exists_ (SubtreeNode.hash node)
                              (Subtree.getMap t))) l = []).
  { induction l as [| n l IH]; intros Hl; [reflexivity |].
    cbn [filter]. rewrite E.
    replace (key_present _ _) with true.
    - cbn [negb]. apply IH. intros x Hx. apply Hl. now right.
    - symmetry. apply existsb_exists. exists n.
      split; [apply Hl; now left | apply String.eqb_refl]. }
  apply P, incl_refl.
Qed.

Lemma map_mod_bytes h :
  Forall is_byte h -> List.map (fun x => x mod 256) h = h.
Proof.
  induction 1 as [| x h Hx _ IH]; cbn [List.map]; [reflexivity |].
  rewrite IH. f_equal. apply Z.mod_small. exact Hx.
Qed.

Lemma serializeNodes_loop_run : forall ns done,
  Forall (fun n => is_hash (SubtreeNode.hash n)) ns ->
  Subtree.serializeNodes_loop ns
    (done ++ repeat 0 (List.length ns * 32)) (List.length done) =
  Returns (done ++ flat_map SubtreeNode.hash ns).
Proof.
  induction ns as [| node rest IH]; intros done H.
  - reflexivity.
  - inversion H as [| ? ? [Hlen Hbytes] Hrest]; subst.
    cbn [Subtree.serializeNodes_loop flat_map List.length].
    unfold Uint8Array_set.
    replace (S (List.length rest) * 32)%nat
      with (32 + List.length rest * 32)%nat by lia.
    rewrite repeat_app, !length_app, !repeat_length, Hlen.
    replace (_ <? _)%nat with false by (symmetry; apply Nat.ltb_ge; lia).
    rewrite firstn_exact by reflexivity.
    rewrite (app_assoc done (repeat 0 32)).
    rewrite skipn_exact by (rewrite length_app, repeat_length; lia).
    rewrite (map_mod_bytes _ Hbytes).
    specialize (IH (done ++ SubtreeNode.hash node) Hrest).
    rewrite length_app, Hlen in IH. rewrite app_assoc, IH.
    now rewrite <- app_assoc.
Qed.

(** X24. When every node's hash is 32 bytes, [serializeNodes] returns
    the hashes of the nodes one after the other, in the order of the
    nodes, and never runs past its buffer. *)
Theorem serializeNodes_concatenates_hashes :
  forall t : Subtree.t,
    Forall (fun n => is_hash (SubtreeNode.hash n)) (Subtree.nodes t) ->
    Subtree.serializeNodes t =
    Returns (flat_map SubtreeNode.hash (Subtree.nodes t)).
Proof.
  intros t H. exact (serializeNodes_loop_run (Subtree.nodes t) [] H).
Qed.

Lemma serializeNodes_concatenates_hashes_witness :
  Subtree.serializeNodes example_subtree =
  Returns (flat_map SubtreeNode.hash (Subtree.nodes example_subtree)).
Proof.
  apply serializeNodes_concatenates_hashes.
  destruct example_subtree_serializable as (_ & _ & _ & _ & Hn & _).
  eapply Forall_impl; [| exact Hn]. intros n [Hh _]. exact Hh.
Defined.
